(** * BEEP: Maccor procedure -> Biologic "Modulo Bat" conversion

    A shallow embedding of [beep/protocol/maccor_to_biologic_mb.py]
    (class [MaccorToBiologicMb]) and the properties of its converters,
    step compiler, two-pass control-flow planner and serializer.

    Conventions of the embedding:
    - a Python exception is a value [Err e] of the [result] monad;
    - a Python [dict] is a stdpp [gmap]; a sequence record ("seq") is a
      [gmap string val];
    - a Python [float] is an IEEE-754 binary64 number, modelled by
      [spec_float] at precision 53 and with the operations of [SpecFloat];
    - a Python [int] is a [Z];
    - a Python [str] is a [string] that holds its UTF-8 bytes;
    - [print] calls have no effect on the result and are left out. *)

From Stdlib Require Import ZArith List String Ascii DecimalString SpecFloat.
From stdpp Require Import gmap strings list fin_maps.

Local Open Scope string_scope.
Local Open Scope list_scope.
Local Open Scope Z_scope.

(** ** Exceptions *)

Inductive error : Type :=
| Exception (msg : string)
| AssertionError
| KeyError
| ValueError
| IndexError
| TypeError
| OverflowError.

Inductive result (A : Type) : Type :=
| Ok (a : A)
| Err (e : error).
Arguments Ok {A} a.
Arguments Err {A} e.

#[global] Instance result_ret : MRet result := fun _ a => Ok a.
#[global] Instance result_bind : MBind result := fun _ _ f m =>
  match m with
  | Ok a => f a
  | Err e => Err e
  end.

Definition is_Err {A} (r : result A) : Prop := ∃ e, r = Err e.

(** [assert c] *)
Definition py_assert (c : bool) : result unit :=
  if c then Ok tt else Err AssertionError.

(** [d[k]] on a dict. *)
Definition getitem `{Countable K} {V} (d : gmap K V) (k : K) : result V :=
  match d !! k with
  | Some v => Ok v
  | None => Err KeyError
  end.

(** ** Characters and strings *)

Definition chars (s : string) : list ascii := list_ascii_of_string s.

Definition is_digit (c : ascii) : bool :=
  let n := N_of_ascii c in ((48 <=? n) && (n <=? 57))%N.

Definition is_nonzero_digit (c : ascii) : bool :=
  let n := N_of_ascii c in ((49 <=? n) && (n <=? 57))%N.

Definition digit_val (c : ascii) : Z := Z.of_N (N_of_ascii c) - 48.

(** Whitespace stripped by [int()] and [float()] from an ASCII string:
    tab, line feed, vertical tab, form feed, carriage return, space. *)
Definition is_space (c : ascii) : bool :=
  let n := N_of_ascii c in
  (((9 <=? n) && (n <=? 13)) || (n =? 32))%N.

Definition ascii_eqb (a b : ascii) : bool := Ascii.eqb a b.

Fixpoint lstrip (l : list ascii) : list ascii :=
  match l with
  | c :: r => if is_space c then lstrip r else l
  | [] => []
  end.

Definition strip (l : list ascii) : list ascii :=
  rev (lstrip (rev (lstrip l))).

(** A run of decimal digits in which single underscores may separate
    digits; returns the digits read (underscores dropped) and the rest. *)
Fixpoint digit_run (l : list ascii) : list ascii * list ascii :=
  match l with
  | c :: r =>
      if is_digit c then
        match r with
        | u :: ((d :: _) as r') =>
            if ascii_eqb u "_" && is_digit d
            then let '(ds, rest) := digit_run r' in (c :: ds, rest)
            else let '(ds, rest) := digit_run r in (c :: ds, rest)
        | _ => let '(ds, rest) := digit_run r in (c :: ds, rest)
        end
      else ([], l)
  | [] => ([], [])
  end.

(** Value of a digit list, most significant digit first. *)
Definition digits_val (ds : list ascii) : Z :=
  fold_left (fun acc c => 10 * acc + digit_val c) ds 0.

Definition read_sign (l : list ascii) : bool * list ascii :=
  match l with
  | c :: r =>
      if ascii_eqb c "-" then (true, r)
      else if ascii_eqb c "+" then (false, r)
      else (false, l)
  | [] => (false, [])
  end.

(** [int(s)] for a [str] argument of ASCII characters, base 10, within
    the number of digits CPython accepts (see [plain_literal]). *)
Definition py_int_str (s : string) : result Z :=
  let '(neg, l) := read_sign (strip (chars s)) in
  match digit_run l with
  | ((_ :: _) as ds, []) => Ok (if neg then - digits_val ds else digits_val ds)
  | _ => Err ValueError
  end.

(** [s.split(sep)] for a one-character separator. *)
Fixpoint split_on (sep : ascii) (l : list ascii) : list (list ascii) :=
  match l with
  | [] => [[]]
  | c :: r =>
      if ascii_eqb c sep then [] :: split_on sep r
      else match split_on sep r with
           | w :: ws => (c :: w) :: ws
           | [] => [[c]]
           end
  end.

Definition py_split (sep : ascii) (s : string) : list string :=
  map string_of_list_ascii (split_on sep (chars s)).

(** [s[0:n]] *)
Definition py_prefix (n : nat) (s : string) : string :=
  string_of_list_ascii (take n (chars s)).

(** Decimal rendering of a non-negative integer. *)
Definition str_of_N (n : N) : string :=
  NilEmpty.string_of_uint (N.to_uint n).

Definition str_of_nat (n : nat) : string := str_of_N (N.of_nat n).

(** ** Python floats: IEEE-754 binary64 *)

Module F64.
Definition prec : Z := 53.
Definition emax : Z := 1024.

Definition mul : spec_float → spec_float → spec_float := SFmul prec emax.
Definition add : spec_float → spec_float → spec_float := SFadd prec emax.
Definition ltb : spec_float → spec_float → bool := SFltb.
Definition eqb : spec_float → spec_float → bool := SFeqb.

(** [float(z)] for an [int] that is in range. *)
Definition of_int (z : Z) : spec_float := binary_normalize prec emax z 0 false.

(** The float nearest to [(-1)^neg * m * 10^e] (ties to even): the value
    of a decimal literal. *)
Definition of_decimal (neg : bool) (m e : Z) : spec_float :=
  match m with
  | Zpos p =>
      if 0 <=? e then binary_round prec emax neg (p * Z.to_pos (10 ^ e)) 0
      else
        let '(q, e', l) := SFdiv_core_binary prec emax m 0 (10 ^ (- e)) 0 in
        binary_round_aux prec emax neg q e' l
  | _ => S754_zero neg
  end.

Definition zero : spec_float := S754_zero false.
Definition one : spec_float := of_int 1.

(** [int(x)]: truncation towards zero. *)
Definition to_int (x : spec_float) : result Z :=
  match x with
  | S754_zero _ => Ok 0
  | S754_finite s m e =>
      Ok (cond_Zopp s (if 0 <=? e then Zpos m * 2 ^ e else Zpos m / 2 ^ (- e)))
  | S754_infinity _ => Err OverflowError
  | S754_nan => Err ValueError
  end.

(** [a / b] on two [int]s with [b > 0]: the correctly rounded quotient. *)
Definition int_truediv (a b : Z) : result spec_float :=
  let q :=
    match a with
    | Z0 => zero
    | Zpos _ =>
        let '(q, e', l) := SFdiv_core_binary prec emax a 0 b 0 in
        binary_round_aux prec emax false q e' l
    | Zneg p =>
        let '(q, e', l) := SFdiv_core_binary prec emax (Zpos p) 0 b 0 in
        binary_round_aux prec emax true q e' l
    end in
  match q with
  | S754_infinity _ => Err OverflowError
  | _ => Ok q
  end.

(** [x % 1.0]: C [fmod] followed by Python's sign adjustment, so that a
    non-zero result lies in (0, 1). *)
Definition mod_one (x : spec_float) : spec_float :=
  match x with
  | S754_nan | S754_infinity _ => S754_nan
  | S754_zero _ => zero
  | S754_finite s m e =>
      if 0 <=? e then zero
      else
        match Zpos m mod 2 ^ (- e) with
        | Zpos r =>
            let f := binary_round prec emax s r e in
            if s then add f one else f
        | _ => zero
        end
  end.

Definition pad3 (n : Z) : string :=
  let d := str_of_N (Z.to_N n) in
  if n <? 10 then "00" +:+ d else if n <? 100 then "0" +:+ d else d.

(** [round(a / b)] to the nearest integer, ties to even, for [b > 0]. *)
Definition round_half_even (a b : Z) : Z :=
  let q := a / b in
  let r := a mod b in
  match 2 * r ?= b with
  | Lt => q
  | Gt => q + 1
  | Eq => if Z.even q then q else q + 1
  end.

(** ["{:.3f}".format(x)] for a float [x]. *)
Definition format_3f (x : spec_float) : string :=
  match x with
  | S754_nan => "nan"
  | S754_infinity s => if s then "-inf" else "inf"
  | S754_zero s => if s then "-0.000" else "0.000"
  | S754_finite s m e =>
      let n := if 0 <=? e then Zpos m * 1000 * 2 ^ e
               else round_half_even (Zpos m * 1000) (2 ^ (- e)) in
      (if s then "-" else EmptyString) +:+
      str_of_N (Z.to_N (n / 1000)) +:+ "." +:+ pad3 (n mod 1000)
  end.

(** ["{:.3f}".format(z)] for an [int] [z]: the int is converted to a
    float first. *)
Definition format_3f_int (z : Z) : result string :=
  match of_int z with
  | S754_infinity _ => Err OverflowError
  | x => Ok (format_3f x)
  end.
End F64.

Definition lower (c : ascii) : ascii :=
  let n := N_of_ascii c in
  if ((65 <=? n) && (n <=? 90))%N then ascii_of_N (n + 32) else c.

(** [float(s)] for a [str] argument of ASCII characters (see
    [plain_literal]). *)
Definition py_float (s : string) : result spec_float :=
  let '(neg, l) := read_sign (strip (chars s)) in
  let word := string_of_list_ascii (map lower l) in
  if (word =? "inf")%string || (word =? "infinity")%string
  then Ok (S754_infinity neg)
  else if (word =? "nan")%string then Ok S754_nan
  else
    let '(ip, l1) := digit_run l in
    let '(fp, l2) :=
      match l1 with
      | c :: r => if ascii_eqb c "." then digit_run r else ([], l1)
      | [] => ([], l1)
      end in
    let m := digits_val (ip ++ fp) in
    let scale := Z.of_nat (length fp) in
    match ip ++ fp, l2 with
    | [], _ => Err ValueError
    | _, [] => Ok (F64.of_decimal neg m (- scale))
    | _, c :: r =>
        if ascii_eqb (lower c) "e" then
          let '(eneg, r1) := read_sign r in
          match digit_run r1 with
          | ((_ :: _) as ed, []) =>
              Ok (F64.of_decimal neg m
                    ((if eneg then - digits_val ed else digits_val ed) - scale))
          | _ => Err ValueError
          end
        else Err ValueError
    end.

(** ** Magnitude and time converters *)

(** Maximal run of characters matching [[0-9]]. *)
Fixpoint digits_prefix (l : list ascii) : list ascii :=
  match l with
  | c :: r => if is_digit c then c :: digits_prefix r else []
  | [] => []
  end.

Definition is_sign (c : ascii) : bool := ascii_eqb c "-" || ascii_eqb c "+".

(** What [[-+]?[0-9]+] matches at the head of [l], if anything. *)
Definition match_signed_digits (l : list ascii) : option (list ascii) :=
  match l with
  | c :: r =>
      if is_sign c then
        match digits_prefix r with
        | [] => None
        | ds => Some (c :: ds)
        end
      else
        match digits_prefix l with
        | [] => None
        | ds => Some ds
        end
  | [] => None
  end.

(** [re.search("(e|E)([-+]?[0-9]+)", s)]: the second group of the leftmost
    match. *)
Fixpoint search_p10 (l : list ascii) : option (list ascii) :=
  match l with
  | [] => None
  | c :: r =>
      if ascii_eqb c "e" || ascii_eqb c "E" then
        match match_signed_digits r with
        | Some g => Some g
        | None => search_p10 r
        end
      else search_p10 r
  end.

(** What [[0-9]*[1-9]] matches at the head of [l] ([[]] when it does not
    match): the digit run up to and including its last non-zero digit. *)
Fixpoint sig_prefix (l : list ascii) : list ascii :=
  match l with
  | c :: r =>
      if is_digit c then
        match sig_prefix r with
        | [] => if is_nonzero_digit c then [c] else []
        | g => c :: g
        end
      else []
  | [] => []
  end.

(** [re.search("\\.([0-9]*[1-9])", s)]: the group of the leftmost match. *)
Fixpoint search_sig_figs (l : list ascii) : option (list ascii) :=
  match l with
  | [] => None
  | c :: r =>
      if ascii_eqb c "." then
        match sig_prefix r with
        | [] => search_sig_figs r
        | g => Some g
        end
      else search_sig_figs r
  end.

Definition _get_decimal_sig_figs (val_str : string) : result Z :=
  p10 ← match search_p10 (chars val_str) with
        | None => Ok 0
        | Some g => py_int_str (string_of_list_ascii g)
        end;
  let explicit_sig_figs :=
    match search_sig_figs (chars val_str) with
    | None => 0
    | Some g => Z.of_nat (length g)
    end in
  Ok (explicit_sig_figs - p10).

(** Float literals of the source. *)
Definition f1 : spec_float := F64.of_int 1.
Definition f1e3 : spec_float := F64.of_decimal false 1 3.
Definition f1e6 : spec_float := F64.of_decimal false 1 6.
Definition f1e9 : spec_float := F64.of_decimal false 1 9.
Definition f1e12 : spec_float := F64.of_decimal false 1 12.
Definition f1em3 : spec_float := F64.of_decimal false 1 (-3).
Definition f1em6 : spec_float := F64.of_decimal false 1 (-6).
Definition f1em9 : spec_float := F64.of_decimal false 1 (-9).

Definition fmt (x : spec_float) : string := F64.format_3f x.

Definition _convert_volts (val_str : string) : result (string * string) :=
  decimal_sig_figs ← _get_decimal_sig_figs val_str;
  num ← py_float val_str;
  if F64.ltb num f1 || (3 <? decimal_sig_figs)
  then Ok (fmt (F64.mul num f1e3), "mV")
  else Ok (fmt num, "V").

Definition _convert_amps (val_str : string) : result (string * string) :=
  decimal_sig_figs ← _get_decimal_sig_figs val_str;
  num ← py_float val_str;
  if F64.ltb num f1em9 || (12 <? decimal_sig_figs)
  then Ok (fmt (F64.mul num f1e12), "pA")
  else if F64.ltb num f1em6 || (9 <? decimal_sig_figs)
  then Ok (fmt (F64.mul num f1e9), "nA")
  else if F64.ltb num f1em3 || (6 <? decimal_sig_figs)
  then Ok (fmt (F64.mul num f1e6), "µA")
  else if F64.ltb num f1 || (3 <? decimal_sig_figs)
  then Ok (fmt (F64.mul num f1e3), "mA")
  else Ok (fmt num, "A").

Definition _convert_watts (val_str : string) : result (string * string) :=
  decimal_sig_figs ← _get_decimal_sig_figs val_str;
  num ← py_float val_str;
  if F64.ltb num f1em3 || (6 <? decimal_sig_figs)
  then Ok (fmt (F64.mul num f1e6), "µW")
  else if F64.ltb num f1 || (3 <? decimal_sig_figs)
  then Ok (fmt (F64.mul num f1e3), "mW")
  else Ok (fmt num, "W").

Definition _convert_ohms (val_str : string) : result (string * string) :=
  decimal_sig_figs ← _get_decimal_sig_figs val_str;
  num ← py_float val_str;
  if F64.ltb num f1em3 || (6 <? decimal_sig_figs)
  then Ok (fmt (F64.mul num f1e6), "µOhms")
  else if F64.ltb num f1 || (3 <? decimal_sig_figs)
  then Ok (fmt (F64.mul num f1e3), "mOhms")
  else if F64.ltb num f1e3 || (0 <? decimal_sig_figs)
  then Ok (fmt num, "Ohms")
  else if F64.ltb num f1e6 || (-3 <? decimal_sig_figs)
  then Ok (fmt (F64.mul num f1em3), "kOhms")
  else Ok (fmt (F64.mul num f1em6), "MOhms").

(** One component of a Maccor time string: blank means zero. *)
Definition time_component (s : string) : result spec_float :=
  if (s =? EmptyString)%string then Ok F64.zero else py_float s.

(** [biologic_max_time_num = 1e10]; the float is the integer 10^10 exactly,
    and Python compares an int with a float by value. *)
Definition biologic_max_time_num : Z := 10 ^ 10.

Definition _convert_time (time_str : string) : result (string * string) :=
  match py_split ":" time_str with
  | [hour_str; min_str; sec_str] =>
      hours ← time_component hour_str;
      mins ← time_component min_str;
      secs ← time_component sec_str;
      let f60 := F64.of_int 60 in
      let f1000 := F64.of_int 1000 in
      if F64.eqb mins F64.zero && F64.eqb secs F64.zero then
        h ← F64.to_int hours;
        v ← F64.format_3f_int h;
        Ok (v, "hr")
      else if F64.eqb secs F64.zero then
        total_time_min ← F64.to_int (F64.add (F64.mul hours f60) mins);
        v ← F64.format_3f_int total_time_min;
        Ok (v, "mn")
      else if F64.eqb (F64.mod_one secs) F64.zero then
        total_time_sec ←
          F64.to_int
            (F64.add (F64.add (F64.mul (F64.mul hours f60) f60)
                              (F64.mul mins f60)) secs);
        v ← F64.format_3f_int total_time_sec;
        Ok (v, "s")
      else
        total_time_ms ←
          F64.to_int
            (F64.add
               (F64.add (F64.mul (F64.mul (F64.mul hours f60) f60) f1000)
                        (F64.mul (F64.mul mins f60) f1000))
               (F64.mul secs f1000));
        if total_time_ms <? biologic_max_time_num then
          v ← F64.format_3f_int total_time_ms;
          Ok (v, "ms")
        else
          total_time_sec ← F64.int_truediv total_time_ms 1000;
          Ok (fmt total_time_sec, "s")
  | _ => Err ValueError
  end.

(** ** Data model *)

(** Values stored in a sequence record. The converter writes Python
    [int]s and [str]s only; these are the values modelled. *)
Inductive val : Type :=
| VInt (z : Z)
| VStr (s : string).

(** A destination sequence record: a dict from field name to value. *)
Abbreviation seq_t := (gmap string val).

(** [int(v)] *)
Definition py_int (v : val) : result Z :=
  match v with
  | VInt z => Ok z
  | VStr s => py_int_str s
  end.

(** [v += n] for an [int] [n]. *)
Definition py_iadd (v : val) (n : Z) : result val :=
  match v with
  | VInt z => Ok (VInt (z + n))
  | VStr _ => Err TypeError
  end.

(** What [xmltodict] leaves under a repeated child element: nothing, a
    single dict, or a list of dicts. *)
Inductive children (A : Type) : Type :=
| NoChild
| OneChild (a : A)
| ManyChildren (l : list A).
Arguments NoChild {A}.
Arguments OneChild {A} a.
Arguments ManyChildren {A} l.

(** [x if isinstance(x, list) else [] if x is None else [x]] *)
Definition as_list {A} (c : children A) : list A :=
  match c with
  | ManyChildren l => l
  | NoChild => []
  | OneChild a => [a]
  end.

(** A step of the parsed procedure. [Ends] stands for
    [step["Ends"]["EndEntry"]] and [Reports] for
    [step["Reports"]["ReportEntry"]]; the fields asserted to be [str] by
    the source are strings, [StepMode] and [StepValue] may be absent. *)
Record EndEntry : Type := {
  EndType : string;
  Oper : string;
  Value : string;
  Step : string
}.

Record ReportEntry : Type := {
  ReportType : string;
  ReportValue : string
}.

Record TestStep : Type := {
  StepType : string;
  StepMode : option string;
  StepValue : option string;
  Ends : children EndEntry;
  Reports : children ReportEntry
}.

(** Magic number for biologic. *)
Definition END_SEQ_NUM : Z := 9999.

(** ["lim{}_seq".format(n)] and the like. *)
Definition lim_key (lim_num : nat) (suffix : string) : string :=
  "lim" +:+ str_of_nat lim_num +:+ suffix.

Definition rec_key (rec_num : nat) (suffix : string) : string :=
  "rec" +:+ str_of_nat rec_num +:+ suffix.

Definition operator_map : gmap string string :=
  <[">=" := ">"]> (<["<=" := "<"]> ∅).

Definition streq (a b : string) : bool := String.eqb a b.

Section Converter.

(** The record template [self.blank_seq], loaded from
    [biologic_mb_schema.yaml]. *)
Variable blank_seq : seq_t.

(** *** Step compiler *)

(** The part of [_proc_step_to_seq] that depends on the step type and
    mode. *)
Definition proc_control (test_step : TestStep) (new_seq : seq_t)
  : result seq_t :=
  let step_type := StepType test_step in
  let step_mode := StepMode test_step in
  let step_value := StepValue test_step in
  if streq step_type "Rest" then
    Ok (<["charge/discharge" := VStr "Charge"]>
        (<["N" := VStr "1.00"]>
        (<["Apply I/C" := VStr "I"]>
        (<["type" := VStr "Rest"]> new_seq))))
  else if negb (streq step_type "Charge" || streq step_type "Dischrge") then
    Err (Exception "Unsupported Control StepType")
  else
    let direction :=
      VStr (if streq step_type "Charge" then "Charge" else "Discharge") in
    match step_mode with
    | Some "Current" =>
        match step_value with
        | None => Err AssertionError
        | Some sv =>
            '(ctrl1_val, ctrl1_val_unit) ← _convert_amps sv;
            Ok (<["charge/discharge" := direction]>
                (<["N" := VStr "15.00"]>
                (<["ctrl1_val_vs" := VStr "<None>"]>
                (<["Apply I/C" := VStr "C / N"]>
                (<["type" := VStr "CC"]>
                (<["ctrl1_val_unit" := VStr ctrl1_val_unit]>
                (<["ctrl1_val" := VStr ctrl1_val]> new_seq)))))))
        end
    | Some "Voltage" =>
        match step_value with
        | None => Err AssertionError
        | Some sv =>
            '(ctrl1_val, ctrl1_val_unit) ← _convert_amps sv;
            Ok (<["charge/discharge" := direction]>
                (<["N" := VStr "15.00"]>
                (<["ctrl1_val_vs" := VStr "Ref"]>
                (<["Apply I/C" := VStr "C / N"]>
                (<["type" := VStr "CV"]>
                (<["ctrl1_val_unit" := VStr ctrl1_val_unit]>
                (<["ctrl1_val" := VStr ctrl1_val]> new_seq)))))))
        end
    | _ => Err (Exception "Unsupported Charge/Discharge StepMode")
    end.

(** One iteration of the loop over [end_entries_list]. *)
Definition proc_end_entry (step_num : Z) (seq_from_step_num : gmap Z Z)
    (goto_lower_bound end_step_num : Z)
    (idx : nat) (end_entry : EndEntry) (new_seq : seq_t) : result seq_t :=
  let lim_num := (idx + 1)%nat in
  let end_type := EndType end_entry in
  let end_oper := Oper end_entry in
  let end_value := Value end_entry in
  goto_step_num ← py_int_str (Step end_entry);
  if (goto_step_num <? goto_lower_bound) || (end_step_num <? goto_step_num)
  then Err (Exception "GOTO to location that could break loop")
  else
    match seq_from_step_num !! goto_step_num with
    | None => Err AssertionError
    | Some goto_seq =>
        let new_seq := <[lim_key lim_num "_seq" := VInt goto_seq]> new_seq in
        let new_seq :=
          if negb (goto_step_num =? step_num + 1)
          then <[lim_key lim_num "_action" := VStr "Goto sequence"]> new_seq
          else new_seq in
        if streq end_type "StepTime" then
          if negb (streq end_oper "=") then
            Err (Exception "Unsupported StepTime operator in EndEntry")
          else
            '(lim_value, lim_value_unit) ← _convert_time end_value;
            Ok (<[lim_key lim_num "_comp" := VStr ">"]>
                (<[lim_key lim_num "_value" := VStr lim_value]>
                (<[lim_key lim_num "_value_unit" := VStr lim_value_unit]>
                (<[lim_key lim_num "_type" := VStr "Time"]> new_seq))))
        else if streq end_type "Voltage" then
          comp ← getitem operator_map end_oper;
          '(lim_value, lim_value_unit) ← _convert_volts end_value;
          Ok (<[lim_key lim_num "_value_unit" := VStr lim_value_unit]>
              (<[lim_key lim_num "_value" := VStr lim_value]>
              (<[lim_key lim_num "_type" := VStr "Voltage"]>
              (<[lim_key lim_num "_comp" := VStr comp]> new_seq))))
        else if streq end_type "Current" then
          comp ← getitem operator_map end_oper;
          '(lim_value, lim_value_unit) ← _convert_amps end_value;
          Ok (<[lim_key lim_num "_value_unit" := VStr lim_value_unit]>
              (<[lim_key lim_num "_value" := VStr lim_value]>
              (<[lim_key lim_num "_type" := VStr "Current"]>
              (<[lim_key lim_num "_comp" := VStr comp]> new_seq))))
        else Err (Exception "Unsupported EndType")
    end.

(** One iteration of the loop over [report_entries_list]. *)
Definition proc_report_entry (idx : nat) (report : ReportEntry)
    (new_seq : seq_t) : result seq_t :=
  let rec_num := (idx + 1)%nat in
  let report_type := ReportType report in
  let report_value := ReportValue report in
  if streq report_type "StepTime" then
    '(rec_value, rec_value_unit) ← _convert_time report_value;
    Ok (<[rec_key rec_num "_value_unit" := VStr rec_value_unit]>
        (<[rec_key rec_num "_value" := VStr rec_value]>
        (<[rec_key rec_num "_type" := VStr "Time"]> new_seq)))
  else if streq report_type "Voltage" then
    '(rec_value, rec_value_unit) ← _convert_volts report_value;
    Ok (<[rec_key rec_num "_value_unit" := VStr rec_value_unit]>
        (<[rec_key rec_num "_value" := VStr rec_value]>
        (<[rec_key rec_num "_type" := VStr "Voltage"]> new_seq)))
  else if streq report_type "Current" then
    '(rec_value, rec_value_unit) ← _convert_amps report_value;
    Ok (<[rec_key rec_num "_value_unit" := VStr rec_value_unit]>
        (<[rec_key rec_num "_value" := VStr rec_value]>
        (<[rec_key rec_num "_type" := VStr "Current"]> new_seq)))
  else Err (Exception "Unsupported ReportType").

(** [for idx, x in enumerate(l): acc = body(idx, x, acc)], starting the
    count at [idx]. *)
Fixpoint for_enumerate {A St} (body : nat → A → St → result St)
    (idx : nat) (l : list A) (acc : St) : result St :=
  match l with
  | [] => Ok acc
  | x :: r =>
      acc' ← body idx x acc;
      for_enumerate body (S idx) r acc'
  end.

Definition _proc_step_to_seq (test_step : TestStep) (step_num : Z)
    (seq_from_step_num : gmap Z Z) (goto_lower_bound end_step_num : Z)
  : result seq_t :=
  seq_num ← getitem seq_from_step_num step_num;
  let new_seq :=
    <["lim3_seq" := VInt (seq_num + 1)]>
    (<["lim2_seq" := VInt (seq_num + 1)]>
    (<["lim1_seq" := VInt (seq_num + 1)]>
    (<["Ns" := VInt seq_num]> blank_seq))) in
  new_seq ← proc_control test_step new_seq;
  let end_entries_list := as_list (Ends test_step) in
  let num_lims := length end_entries_list in
  if (3 <? num_lims)%nat then
    Err (Exception "Step has more than 3 EndEntries")
  else
    let new_seq := <["lim_nb" := VInt (Z.of_nat num_lims)]> new_seq in
    new_seq ←
      for_enumerate
        (proc_end_entry step_num seq_from_step_num goto_lower_bound
                        end_step_num)
        0 end_entries_list new_seq;
    let report_entries_list := as_list (Reports test_step) in
    let num_reports := length report_entries_list in
    if (3 <? num_reports)%nat then
      Err (Exception "Step has more than 3 ReportEntries")
    else
      let new_seq := <["rec_nb" := VInt (Z.of_nat num_reports)]> new_seq in
      for_enumerate proc_report_entry 0 report_entries_list new_seq.

(** *** Synthesized loop records *)

Definition _create_loop_seq (seq_num seq_num_to_loop_to num_loops : Z)
  : seq_t :=
  <["ctrl1_val" := VStr "100.000"]>
  (<["Apply I/C" := VStr "C / N"]>
  (<["lim3_seq" := VInt (seq_num + 1)]>
  (<["lim2_seq" := VInt (seq_num + 1)]>
  (<["lim1_seq" := VInt (seq_num + 1)]>
  (<["ctrl_seq" := VInt seq_num]>
  (<["loop_repeat" := VInt num_loops]>
  (<["type" := VStr "Loop"]>
  (<["Ns" := VInt seq_num]> blank_seq)))))))).

Definition _create_advance_cyle_seqs (seq_num : Z) : result (seq_t * seq_t) :=
  if seq_num =? 0 then
    Err (Exception
           "Biologic does not support advancing cycle number at step 1/seq 0")
  else
    let blank_loop_seq := _create_loop_seq seq_num 0 0 in
    let adv_cycle_loop_seq := _create_loop_seq (seq_num + 1) seq_num 1 in
    Ok (blank_loop_seq, adv_cycle_loop_seq).

(** *** Loop unrolling *)

(** The body of [for j in range(0, 3)] in [_unroll_loop]. *)
Definition unroll_goto (seq : seq_t) (shift : Z)
    (loop_start_seq_num loop_post_seq_num : Z)
    (unrolled_seq : seq_t) (j : nat) : result seq_t :=
  let goto_field := lim_key (j + 1) "_seq" in
  v ← getitem seq goto_field;
  goto_seq_num ← py_int v;
  if (loop_start_seq_num <=? goto_seq_num)
     && (goto_seq_num <=? loop_post_seq_num)
  then Ok (<[goto_field := VInt (goto_seq_num + shift)]> unrolled_seq)
  else Ok unrolled_seq.

(** The body of [for seq in loop]: the copy of [seq] made for the
    duplicate whose indices are moved by [shift = len(loop) * i]. *)
Definition unroll_seq (shift : Z) (loop_start_seq_num loop_post_seq_num : Z)
    (seq : seq_t) : result seq_t :=
  ns ← getitem seq "Ns";
  ns' ← py_iadd ns shift;
  let unrolled_seq := <["Ns" := ns']> seq in
  u1 ← unroll_goto seq shift loop_start_seq_num loop_post_seq_num
         unrolled_seq 0;
  u2 ← unroll_goto seq shift loop_start_seq_num loop_post_seq_num u1 1;
  unroll_goto seq shift loop_start_seq_num loop_post_seq_num u2 2.

(** [for x in l: acc.append(body(x))] *)
Fixpoint for_append {A B} (body : A → result B) (l : list A) (acc : list B)
  : result (list B) :=
  match l with
  | [] => Ok acc
  | x :: r =>
      y ← body x;
      for_append body r (acc ++ [y])
  end.

(** [for i in range(1, num_loops + 1)], given as the list of the values
    of [i]. *)
Fixpoint unroll_copies (loop : list seq_t)
    (loop_start_seq_num loop_post_seq_num : Z)
    (copies : list Z) (unrolled_loop : list seq_t) : result (list seq_t) :=
  match copies with
  | [] => Ok unrolled_loop
  | i :: rest =>
      unrolled_loop' ←
        for_append
          (unroll_seq (Z.of_nat (length loop) * i)
                      loop_start_seq_num loop_post_seq_num)
          loop unrolled_loop;
      unroll_copies loop loop_start_seq_num loop_post_seq_num rest
                    unrolled_loop'
  end.

Definition _unroll_loop (loop : list seq_t) (num_loops : Z)
    (loop_start_seq_num loop_post_seq_num : Z) : result (list seq_t) :=
  unrolled_loop ←
    unroll_copies loop loop_start_seq_num loop_post_seq_num
                  (seqZ 1 num_loops) loop;
  _ ← py_assert (Z.of_nat (length unrolled_loop)
                  =? Z.of_nat (length loop) * (num_loops + 1));
  Ok unrolled_loop.

(** *** Control-flow planner *)

(** Python lists used as stacks; the head of the Rocq list is the last
    element of the Python list. *)
Definition top {A} (stack : list A) : result A :=
  match stack with
  | x :: _ => Ok x
  | [] => Err IndexError
  end.

Definition pop {A} (stack : list A) : result (A * list A) :=
  match stack with
  | x :: r => Ok (x, r)
  | [] => Err IndexError
  end.

(** [stack[-1] = f(stack[-1])] *)
Definition update_top {A} (f : A → A) (stack : list A) : result (list A) :=
  match stack with
  | x :: r => Ok (f x :: r)
  | [] => Err IndexError
  end.

Definition is_do (step_type : string) : bool :=
  streq (py_prefix 2 step_type) "Do".

Definition is_loop (step_type : string) : bool :=
  streq (py_prefix 4 step_type) "Loop".

(** [step["Ends"]["EndEntry"]] used as a dict. *)
Definition single_end_entry (step : TestStep) : result EndEntry :=
  match Ends step with
  | OneChild e => Ok e
  | _ => Err TypeError
  end.

(** The repeat count of a Loop step. *)
Definition loop_count (step : TestStep) : result Z :=
  e ← single_end_entry step;
  _ ← py_assert (streq (EndType e) "Loop Cnt");
  py_int_str (Value e).

(** State of the first pass. The one-entry dicts [{"will_unroll": b}] and
    [{"ignore": b}] are stored as the boolean [b]. *)
Record sizing_state : Type := {
  curr_seq_num : Z;
  loop_seq_count_stack : list Z;
  loop_will_unroll_stack : list bool;
  seq_num_by_step_num : gmap Z Z;
  loop_unroll_status_by_idx : gmap nat bool;
  adv_cycle_ignore_status_by_idx : gmap nat bool
}.

(** One iteration of the first loop of
    [_create_biologic_seqs_from_maccor_ast]. *)
Definition sizing_step (steps : list TestStep) (idx : nat) (step : TestStep)
    (st : sizing_state) : result sizing_state :=
  let step_num := Z.of_nat idx + 1 in
  let by_step := <[step_num := curr_seq_num st]> (seq_num_by_step_num st) in
  next ← match steps !! (idx + 1)%nat with
         | Some s => Ok s
         | None => Err IndexError
         end;
  let is_last_step_in_loop := is_loop (StepType next) in
  curr_loop_will_unroll ← top (loop_will_unroll_stack st);
  let step_type := StepType step in
  if is_do step_type then
    will_unroll ← update_top (λ _, true) (loop_will_unroll_stack st);
    Ok {| curr_seq_num := curr_seq_num st;
          loop_seq_count_stack := 0 :: loop_seq_count_stack st;
          loop_will_unroll_stack := false :: will_unroll;
          seq_num_by_step_num := by_step;
          loop_unroll_status_by_idx := loop_unroll_status_by_idx st;
          adv_cycle_ignore_status_by_idx :=
            adv_cycle_ignore_status_by_idx st |}
  else if streq step_type "AdvCycle" && is_last_step_in_loop
          && negb curr_loop_will_unroll then
    Ok {| curr_seq_num := curr_seq_num st;
          loop_seq_count_stack := loop_seq_count_stack st;
          loop_will_unroll_stack := loop_will_unroll_stack st;
          seq_num_by_step_num := by_step;
          loop_unroll_status_by_idx := loop_unroll_status_by_idx st;
          adv_cycle_ignore_status_by_idx :=
            <[idx := true]> (adv_cycle_ignore_status_by_idx st) |}
  else if streq step_type "AdvCycle" then
    will_unroll ← update_top (λ _, true) (loop_will_unroll_stack st);
    counts ← update_top (λ c, c + 2) (loop_seq_count_stack st);
    Ok {| curr_seq_num := curr_seq_num st + 2;
          loop_seq_count_stack := counts;
          loop_will_unroll_stack := will_unroll;
          seq_num_by_step_num := by_step;
          loop_unroll_status_by_idx := loop_unroll_status_by_idx st;
          adv_cycle_ignore_status_by_idx :=
            <[idx := false]> (adv_cycle_ignore_status_by_idx st) |}
  else if is_loop step_type then
    num_loops ← loop_count step;
    '(curr_loop_seq_count, counts) ← pop (loop_seq_count_stack st);
    '(_, will_unroll) ← pop (loop_will_unroll_stack st);
    let status :=
      <[idx := curr_loop_will_unroll]> (loop_unroll_status_by_idx st) in
    let '(curr, curr_loop_seq_count) :=
      if curr_loop_will_unroll
      then (curr_seq_num st + curr_loop_seq_count * num_loops,
            curr_loop_seq_count * (num_loops + 1))
      else (curr_seq_num st + 1, curr_loop_seq_count + 1) in
    counts ← update_top (λ c, c + curr_loop_seq_count) counts;
    Ok {| curr_seq_num := curr;
          loop_seq_count_stack := counts;
          loop_will_unroll_stack := will_unroll;
          seq_num_by_step_num := by_step;
          loop_unroll_status_by_idx := status;
          adv_cycle_ignore_status_by_idx :=
            adv_cycle_ignore_status_by_idx st |}
  else if is_last_step_in_loop then
    will_unroll ← update_top (λ _, true) (loop_will_unroll_stack st);
    counts ← update_top (λ c, c + 1) (loop_seq_count_stack st);
    Ok {| curr_seq_num := curr_seq_num st + 1;
          loop_seq_count_stack := counts;
          loop_will_unroll_stack := will_unroll;
          seq_num_by_step_num := by_step;
          loop_unroll_status_by_idx := loop_unroll_status_by_idx st;
          adv_cycle_ignore_status_by_idx :=
            adv_cycle_ignore_status_by_idx st |}
  else
    counts ← update_top (λ c, c + 1) (loop_seq_count_stack st);
    Ok {| curr_seq_num := curr_seq_num st + 1;
          loop_seq_count_stack := counts;
          loop_will_unroll_stack := loop_will_unroll_stack st;
          seq_num_by_step_num := by_step;
          loop_unroll_status_by_idx := loop_unroll_status_by_idx st;
          adv_cycle_ignore_status_by_idx :=
            adv_cycle_ignore_status_by_idx st |}.

(** [steps[0:-1]] *)
Definition all_but_last {A} (l : list A) : list A :=
  take (length l - 1) l.

Definition sizing_init (steps : list TestStep) : sizing_state :=
  {| curr_seq_num := 0;
     loop_seq_count_stack := [0];
     loop_will_unroll_stack := [false];
     seq_num_by_step_num := {[ Z.of_nat (length steps) := END_SEQ_NUM ]};
     loop_unroll_status_by_idx := ∅;
     adv_cycle_ignore_status_by_idx := ∅ |}.

(** The result of the first pass: the state after the loop together with
    [pre_computed_seq_count]. *)
Definition sizing_pass (steps : list TestStep) : result (sizing_state * Z) :=
  last_step ← match last steps with
              | Some s => Ok s
              | None => Err IndexError
              end;
  _ ← py_assert (streq (StepType last_step) "End");
  st ← for_enumerate (sizing_step steps) 0 (all_but_last steps)
                      (sizing_init steps);
  _ ← py_assert (length (loop_seq_count_stack st) =? 1)%nat;
  _ ← py_assert (length (loop_will_unroll_stack st) =? 1)%nat;
  '(pre_computed_seq_count, _) ← pop (loop_seq_count_stack st);
  _ ← py_assert (pre_computed_seq_count =? curr_seq_num st);
  Ok (st, pre_computed_seq_count).

(** State of the second pass. *)
Record gen_state : Type := {
  seq_loop_stack : list (list seq_t);
  loop_start_seq_num_stack : list Z;
  step_num_goto_lower_bound : Z
}.

(** One iteration of the second loop. *)
Definition gen_step (sz : sizing_state) (end_step_num : Z)
    (idx : nat) (step : TestStep) (st : gen_state) : result gen_state :=
  let step_type := StepType step in
  let step_num := Z.of_nat idx + 1 in
  seq_num ← getitem (seq_num_by_step_num sz) step_num;
  if is_do step_type then
    Ok {| step_num_goto_lower_bound := step_num;
          seq_loop_stack := [] :: seq_loop_stack st;
          loop_start_seq_num_stack := seq_num :: loop_start_seq_num_stack st |}
  else if is_loop step_type && negb (step_num =? 0) then
    '(loop_start_seq_num, starts) ← pop (loop_start_seq_num_stack st);
    num_loops ← loop_count step;
    loop_will_unroll ← getitem (loop_unroll_status_by_idx sz) idx;
    '(loop, stack) ← pop (seq_loop_stack st);
    loop ←
      (if loop_will_unroll : bool then
         unrolled_loop ←
           _unroll_loop loop num_loops loop_start_seq_num seq_num;
         _ ← py_assert (Z.of_nat (length unrolled_loop)
                         =? Z.of_nat (length loop) * (num_loops + 1));
         Ok unrolled_loop
       else
         Ok (loop ++ [_create_loop_seq seq_num loop_start_seq_num num_loops]));
    stack ← update_top (λ l, l ++ loop) stack;
    Ok {| step_num_goto_lower_bound := step_num;
          seq_loop_stack := stack;
          loop_start_seq_num_stack := starts |}
  else if streq step_type "AdvCycle" then
    ignore ← getitem (adv_cycle_ignore_status_by_idx sz) idx;
    if negb ignore then
      '(blank_loop_seq, adv_cycle_loop_seq) ← _create_advance_cyle_seqs seq_num;
      stack ← update_top (λ l, (l ++ [blank_loop_seq]) ++ [adv_cycle_loop_seq])
                         (seq_loop_stack st);
      Ok {| step_num_goto_lower_bound := step_num;
            seq_loop_stack := stack;
            loop_start_seq_num_stack := loop_start_seq_num_stack st |}
    else Ok st
  else
    seq ← _proc_step_to_seq step step_num (seq_num_by_step_num sz)
                            (step_num_goto_lower_bound st) end_step_num;
    stack ← update_top (λ l, l ++ [seq]) (seq_loop_stack st);
    Ok {| step_num_goto_lower_bound := step_num_goto_lower_bound st;
          seq_loop_stack := stack;
          loop_start_seq_num_stack := loop_start_seq_num_stack st |}.

Definition gen_init : gen_state :=
  {| seq_loop_stack := [[]];
     loop_start_seq_num_stack := [];
     step_num_goto_lower_bound := 0 |}.

(** The second pass up to [seqs = seq_loop_stack.pop()]. *)
Definition generation_pass (steps : list TestStep) (sz : sizing_state)
  : result (list seq_t) :=
  st ← for_enumerate (gen_step sz (Z.of_nat (length steps))) 0
                      (all_but_last steps) gen_init;
  _ ← py_assert (length (seq_loop_stack st) =? 1)%nat;
  '(seqs, _) ← pop (seq_loop_stack st);
  Ok seqs.

(** The argument is the list found at
    [MaccorTestProcedure.ProcSteps.TestStep]. *)
Definition _create_biologic_seqs_from_maccor_ast (steps : list TestStep)
  : result (list seq_t) :=
  '(sz, pre_computed_seq_count) ← sizing_pass steps;
  seqs ← generation_pass steps sz;
  _ ← py_assert (Z.of_nat (length seqs) =? pre_computed_seq_count);
  Ok seqs.

End Converter.

(** ** Sample procedures *)

(** The chosen fields of every record of a conversion result. *)
Definition fields (ks : list string) (r : result (list seq_t))
  : result (list (list (option val))) :=
  match r with
  | Ok l => Ok (map (λ s : seq_t, map (λ k, s !! k) ks) l)
  | Err e => Err e
  end.

Definition control_step (step_type : string) : TestStep :=
  {| StepType := step_type; StepMode := None; StepValue := None;
     Ends := NoChild; Reports := NoChild |}.

Definition loop_step (step_type count : string) : TestStep :=
  {| StepType := step_type; StepMode := None; StepValue := None;
     Ends := OneChild {| EndType := "Loop Cnt"; Oper := "=";
                         Value := count; Step := "000" |};
     Reports := NoChild |}.

(** A rest that ends after ten seconds and then goes to step [goto]. *)
Definition rest_step (goto : string) : TestStep :=
  {| StepType := "Rest"; StepMode := None; StepValue := None;
     Ends := OneChild {| EndType := "StepTime"; Oper := "=";
                         Value := "00:00:10"; Step := goto |};
     Reports := NoChild |}.

(** Do / Rest / AdvCycle / Loop x5 / End: a loop the planner keeps native. *)
Definition native_loop_procedure : list TestStep :=
  [ control_step "Do 1"; rest_step "003"; control_step "AdvCycle";
    loop_step "Loop 1" "5"; control_step "End" ].

(** Rest / AdvCycle / Rest / End: an advance-cycle outside any loop. *)
Definition adv_cycle_procedure : list TestStep :=
  [ rest_step "002"; control_step "AdvCycle"; rest_step "004";
    control_step "End" ].

(** Rest (goes to step 3) / Do / Rest / Rest / Loop x1 / End: the first
    rest jumps over the Do step. *)
Definition goto_over_do_procedure : list TestStep :=
  [ rest_step "003"; control_step "Do 1"; rest_step "004"; rest_step "005";
    loop_step "Loop 1" "1"; control_step "End" ].

(** Step-to-sequence map of a two-step procedure (one physical step and
    the End step). *)
Definition single_step_map : gmap Z Z := <[1 := 0]> {[ 2 := END_SEQ_NUM ]}.

(** What the step compiler returns for [rest_step "002"] as step 1 of that
    procedure, on an empty template. *)
Definition sample_rest_record : seq_t :=
  match _proc_step_to_seq ∅ (rest_step "002") 1 single_step_map 0 2 with
  | Ok s => s
  | Err _ => ∅
  end.

(** The two passes on [native_loop_procedure], on an empty template. *)
Definition native_loop_sizing : sizing_state :=
  match sizing_pass native_loop_procedure with
  | Ok (sz, _) => sz
  | Err _ => sizing_init []
  end.

Definition native_loop_records : list seq_t :=
  match generation_pass ∅ native_loop_procedure native_loop_sizing with
  | Ok seqs => seqs
  | Err _ => []
  end.

(** Spec wording of the precision of a decimal string: the count of
    explicit fractional digits (every digit that follows the first ["."])
    minus the power of ten of the exponent. *)
Fixpoint spec_fraction_digits (l : list ascii) : Z :=
  match l with
  | [] => 0
  | c :: r =>
      if ascii_eqb c "." then Z.of_nat (length (digits_prefix r))
      else spec_fraction_digits r
  end.

Definition spec_decimal_sig_figs (val_str : string) : result Z :=
  p10 ← match search_p10 (chars val_str) with
        | None => Ok 0
        | Some g => py_int_str (string_of_list_ascii g)
        end;
  Ok (spec_fraction_digits (chars val_str) - p10).

(** ** Vocabulary of the statements *)

(** Field [k] of record [r] holds the integer [z]. *)
Definition int_field (r : seq_t) (k : string) (z : Z) : Prop :=
  r !! k = Some (VInt z).

(** The index fields every generated record carries. *)
Definition index_fields : list string :=
  ["Ns"; "lim1_seq"; "lim2_seq"; "lim3_seq"].

Definition goto_fields : list string := ["lim1_seq"; "lim2_seq"; "lim3_seq"].

Definition has_indices (r : seq_t) : Prop :=
  ∀ k, k ∈ index_fields → ∃ z, int_field r k z.

(** A goto index moved by [shift] when it lies in [[lo, hi]]. *)
Definition shift_index (shift lo hi g : Z) : Z :=
  if (lo <=? g) && (g <=? hi) then g + shift else g.

(** [r'] is the copy of [r] made for a duplicate displaced by [shift]:
    [Ns] moves by [shift], a goto index moves when it lies in [[lo, hi]],
    and every other field, [ctrl_seq] among them, is the original's. *)
Definition copy_of (shift lo hi : Z) (r r' : seq_t) : Prop :=
  (∀ ns, int_field r "Ns" ns → int_field r' "Ns" (ns + shift))
  ∧ (∀ k g, k ∈ goto_fields → int_field r k g →
       int_field r' k (shift_index shift lo hi g))
  ∧ (∀ k, k ∉ index_fields → r' !! k = r !! k).

(** The first pass has reserved, for every open loop level, as many
    records as the second pass has generated for it. *)
Definition sizes_agree (s1 : sizing_state) (s2 : gen_state) : Prop :=
  map (λ l : list seq_t, Z.of_nat (length l)) (seq_loop_stack s2)
  = loop_seq_count_stack s1.

(** The operator/kind combinations of an end-condition that the step
    compiler accepts, with the comparison operator it emits. *)
Definition accepted_end_condition (e : EndEntry) (comp : string) : Prop :=
  (EndType e = "StepTime" ∧ Oper e = "=" ∧ comp = ">")
  ∨ ((EndType e = "Voltage" ∨ EndType e = "Current")
     ∧ ((Oper e = ">=" ∧ comp = ">") ∨ (Oper e = "<=" ∧ comp = "<"))).

(** Spec wording of the rescaling rule. A unit of a ladder, largest unit
    first: its label, the size of one unit in the base unit, the number of
    decimal digits of the base unit it resolves, and the factor that takes
    a value in the base unit to this unit (none for the base unit). *)
Record rung : Type := {
  unit_label : string;
  unit_size : spec_float;
  unit_digits : Z;
  to_unit : option spec_float
}.

(** "Its numeric value is below 1 in the current unit or the detected
    precision exceeds 3 digits at the current scale". *)
Definition rescales (num : spec_float) (sig_figs : Z) (r : rung) : bool :=
  F64.ltb num (unit_size r) || (unit_digits r + 3 <? sig_figs).

(** Starting from [current], move to the next smaller unit as long as the
    rule asks for it and a smaller unit exists. *)
Fixpoint spec_ladder (num : spec_float) (sig_figs : Z)
    (current : rung) (smaller : list rung) : rung :=
  match smaller with
  | [] => current
  | next :: rest =>
      if rescales num sig_figs current
      then spec_ladder num sig_figs next rest
      else current
  end.

Definition render (num : spec_float) (r : rung) : string * string :=
  (fmt (match to_unit r with
        | Some f => F64.mul num f
        | None => num
        end),
   unit_label r).

Definition milli (label : string) : rung :=
  {| unit_label := label; unit_size := f1em3; unit_digits := 3;
     to_unit := Some f1e3 |}.
Definition micro (label : string) : rung :=
  {| unit_label := label; unit_size := f1em6; unit_digits := 6;
     to_unit := Some f1e6 |}.
Definition nano (label : string) : rung :=
  {| unit_label := label; unit_size := f1em9; unit_digits := 9;
     to_unit := Some f1e9 |}.
Definition pico (label : string) : rung :=
  {| unit_label := label; unit_size := F64.of_decimal false 1 (-12);
     unit_digits := 12; to_unit := Some f1e12 |}.
Definition base (label : string) : rung :=
  {| unit_label := label; unit_size := f1; unit_digits := 0;
     to_unit := None |}.
Definition kilo (label : string) : rung :=
  {| unit_label := label; unit_size := f1e3; unit_digits := -3;
     to_unit := Some f1em3 |}.
Definition mega (label : string) : rung :=
  {| unit_label := label; unit_size := f1e6; unit_digits := -6;
     to_unit := Some f1em6 |}.

(** The ladders of the four quantities, largest unit first. *)
Definition spec_volts (num : spec_float) (sig_figs : Z) : string * string :=
  render num (spec_ladder num sig_figs (base "V") [milli "mV"]).

Definition spec_amps (num : spec_float) (sig_figs : Z) : string * string :=
  render num
    (spec_ladder num sig_figs (base "A")
       [milli "mA"; micro "µA"; nano "nA"; pico "pA"]).

Definition spec_watts (num : spec_float) (sig_figs : Z) : string * string :=
  render num (spec_ladder num sig_figs (base "W") [milli "mW"; micro "µW"]).

Definition spec_ohms (num : spec_float) (sig_figs : Z) : string * string :=
  render num
    (spec_ladder num sig_figs (mega "MOhms")
       [kilo "kOhms"; base "Ohms"; milli "mOhms"; micro "µOhms"]).

(** Shape of the exponent of a decimal literal, with its value: nothing,
    or [e]/[E], an optional sign and at least one digit. *)
Inductive exponent_part : list ascii → Z → Prop :=
| exponent_none : exponent_part [] 0
| exponent_plain (c d : ascii) (ds : list ascii) :
    c = "e"%char ∨ c = "E"%char →
    Forall (λ x, is_digit x = true) (d :: ds) →
    exponent_part (c :: d :: ds) (digits_val (d :: ds))
| exponent_plus (c d : ascii) (ds : list ascii) :
    c = "e"%char ∨ c = "E"%char →
    Forall (λ x, is_digit x = true) (d :: ds) →
    exponent_part (c :: "+"%char :: d :: ds) (digits_val (d :: ds))
| exponent_minus (c d : ascii) (ds : list ascii) :
    c = "e"%char ∨ c = "E"%char →
    Forall (λ x, is_digit x = true) (d :: ds) →
    exponent_part (c :: "-"%char :: d :: ds) (- digits_val (d :: ds)).

(** Fractional digits that count: none, or a digit run that ends in a
    non-zero digit. *)
Definition significant_fraction (fr : list ascii) : Prop :=
  Forall (λ x, is_digit x = true) fr
  ∧ (fr = [] ∨ ∃ f d, fr = f ++ [d] ∧ is_nonzero_digit d = true).


(** What a report slot of a compiled record holds for a report trigger:
    the slot kind and the converted value and unit. *)
Definition report_slot (r : ReportEntry) (kind value value_unit : string)
  : Prop :=
  (ReportType r = "StepTime" ∧ kind = "Time"
   ∧ _convert_time (ReportValue r) = Ok (value, value_unit))
  ∨ (ReportType r = "Voltage" ∧ kind = "Voltage"
     ∧ _convert_volts (ReportValue r) = Ok (value, value_unit))
  ∨ (ReportType r = "Current" ∧ kind = "Current"
     ∧ _convert_amps (ReportValue r) = Ok (value, value_unit)).

(** The control fields of a compiled record, by step type and mode. *)
Definition control_fields (step : TestStep) (s : seq_t) : Prop :=
  (StepType step = "Rest"
   ∧ s !! "type" = Some (VStr "Rest")
   ∧ s !! "Apply I/C" = Some (VStr "I")
   ∧ s !! "N" = Some (VStr "1.00")
   ∧ s !! "charge/discharge" = Some (VStr "Charge"))
  ∨ (∃ direction kind vs step_value ctrl1_val ctrl1_val_unit,
       ((StepType step = "Charge" ∧ direction = "Charge")
        ∨ (StepType step = "Dischrge" ∧ direction = "Discharge"))
       ∧ ((StepMode step = Some "Current" ∧ kind = "CC" ∧ vs = "<None>")
          ∨ (StepMode step = Some "Voltage" ∧ kind = "CV" ∧ vs = "Ref"))
       ∧ StepValue step = Some step_value
       ∧ _convert_amps step_value = Ok (ctrl1_val, ctrl1_val_unit)
       ∧ s !! "type" = Some (VStr kind)
       ∧ s !! "Apply I/C" = Some (VStr "C / N")
       ∧ s !! "N" = Some (VStr "15.00")
       ∧ s !! "ctrl1_val_vs" = Some (VStr vs)
       ∧ s !! "ctrl1_val" = Some (VStr ctrl1_val)
       ∧ s !! "ctrl1_val_unit" = Some (VStr ctrl1_val_unit)
       ∧ s !! "charge/discharge" = Some (VStr direction)).

(** A constant-current charge at 1.5 A with one report every 0.5 V. *)
Definition charge_step : TestStep :=
  {| StepType := "Charge"; StepMode := Some "Current";
     StepValue := Some "1.5";
     Ends := OneChild {| EndType := "Voltage"; Oper := ">=";
                         Value := "4.2"; Step := "002" |};
     Reports := OneChild {| ReportType := "Voltage";
                            ReportValue := "0.5" |} |}.

Definition sample_charge_record : seq_t :=
  match _proc_step_to_seq ∅ charge_step 1 single_step_map 0 2 with
  | Ok s => s
  | Err _ => ∅
  end.

(** What a limit slot of a compiled record holds for an end-condition:
    the slot kind and the converted value and unit. *)
Definition limit_slot (e : EndEntry) (kind value value_unit : string)
  : Prop :=
  (EndType e = "StepTime" ∧ kind = "Time"
   ∧ _convert_time (Value e) = Ok (value, value_unit))
  ∨ (EndType e = "Voltage" ∧ kind = "Voltage"
     ∧ _convert_volts (Value e) = Ok (value, value_unit))
  ∨ (EndType e = "Current" ∧ kind = "Current"
     ∧ _convert_amps (Value e) = Ok (value, value_unit)).

(** The end-condition and the report trigger of [charge_step]. *)
Definition charge_end_entry : EndEntry :=
  {| EndType := "Voltage"; Oper := ">="; Value := "4.2"; Step := "002" |}.

Definition charge_report_entry : ReportEntry :=
  {| ReportType := "Voltage"; ReportValue := "0.5" |}.

(** Whether a computation returns. *)
Definition succeeds {A} (r : result A) : bool :=
  match r with
  | Ok _ => true
  | Err _ => false
  end.

(** Number of colons of a time string. *)
Definition colons (time_str : string) : nat :=
  length (List.filter (λ c, ascii_eqb c ":") (chars time_str)).

(** The float [float("-1.5")]. *)
Definition minus_one_and_a_half : spec_float := F64.of_decimal true 15 (-1).

(** Sum of the counts of a stack of loop levels. *)
Definition total (counts : list Z) : Z := foldr Z.add 0 counts.

(** The records of [l] carry in [Ns] the consecutive indices that start at
    [base]. *)
Definition numbered (base : Z) (l : list seq_t) : Prop :=
  ∀ k r, l !! k = Some r → r !! "Ns" = Some (VInt (base + Z.of_nat k)).

(** Every level of the stack of open loops is numbered from the number of
    records of the levels below it. *)
Fixpoint stack_numbered (stack : list (list seq_t)) : Prop :=
  match stack with
  | [] => True
  | l :: below =>
      numbered (total (map (λ l : list seq_t, Z.of_nat (length l)) below)) l
      ∧ stack_numbered below
  end.

(** What the two passes keep between them: the reserved counts are the
    lengths of the generated levels, the running total is their sum, and
    the generated records are numbered by position. *)
Definition plan_inv (s1 : sizing_state) (s2 : gen_state) : Prop :=
  sizes_agree s1 s2
  ∧ curr_seq_num s1 = total (loop_seq_count_stack s1)
  ∧ stack_numbered (seq_loop_stack s2).

(** The records of the conversion of [goto_over_do_procedure], whose loop
    is unrolled once. *)
Definition goto_over_do_records : list seq_t :=
  match _create_biologic_seqs_from_maccor_ast ∅ goto_over_do_procedure with
  | Ok seqs => seqs
  | Err _ => []
  end.

(** Number of steps that open a loop, and of steps that close one. *)
Definition opens (l : list TestStep) : nat :=
  length (List.filter (λ s, is_do (StepType s)) l).

Definition closes (l : list TestStep) : nat :=
  length (List.filter (λ s, is_loop (StepType s)) l).

(** The first pass, before its closing assertions. *)
Definition sizing_loop (steps : list TestStep) : result sizing_state :=
  for_enumerate (sizing_step steps) 0 (all_but_last steps)
                (sizing_init steps).

(** What the first pass keeps about the stack of open loops after [k]
    steps: it is never empty, and it has one level more than the loops
    opened and not yet closed. *)
Definition nesting_inv (l : list TestStep) (k : nat) (st : sizing_state)
  : Prop :=
  (1 ≤ length (loop_seq_count_stack st))%nat
  ∧ (length (loop_seq_count_stack st) + closes (take k l)
     = 1 + opens (take k l))%nat
  ∧ ∀ n, (n ≤ k)%nat → (closes (take n l) ≤ opens (take n l))%nat.

(** A step that is neither a Do nor an advance-cycle step, followed by a
    step that closes a loop. *)
Definition closes_after_step (steps : list TestStep) (p : nat) : Prop :=
  ∃ prev lp,
    steps !! p = Some prev ∧ steps !! S p = Some lp
    ∧ is_do (StepType prev) = false ∧ StepType prev ≠ "AdvCycle"
    ∧ is_loop (StepType lp) = true.

(** What the first pass keeps about the unroll decisions after [k] steps. *)
Definition unroll_inv (steps : list TestStep) (k : nat) (st : sizing_state)
  : Prop :=
  length (loop_will_unroll_stack st) = length (loop_seq_count_stack st)
  ∧ Forall (λ b, b = true) (tail (loop_will_unroll_stack st))
  ∧ (∀ p, k = S p → closes_after_step steps p →
          top (loop_will_unroll_stack st) = Ok true)
  ∧ (∀ p, (S p < k)%nat → closes_after_step steps p →
          loop_unroll_status_by_idx st !! S p = Some true).

(** What the second pass keeps about [step_num_goto_lower_bound] after
    [k] steps: it is not negative and not below the step number of any Do
    or Loop step seen so far. *)
Definition goto_floor_inv (steps : list TestStep) (k : nat) (st : gen_state)
  : Prop :=
  0 ≤ step_num_goto_lower_bound st
  ∧ ∀ j prev, (j < k)%nat → steps !! j = Some prev →
      is_do (StepType prev) = true ∨ is_loop (StepType prev) = true →
      Z.of_nat j + 1 ≤ step_num_goto_lower_bound st.

(** A step the planner hands to the step compiler. *)
Definition physical_step (step : TestStep) : Prop :=
  is_do (StepType step) = false ∧ is_loop (StepType step) = false
  ∧ StepType step ≠ "AdvCycle".

(** Record [r] has every field of the template [blank]. *)
Definition covers (blank r : seq_t) : Prop :=
  ∀ key, is_Some (blank !! key) → is_Some (r !! key).

(** The state the first pass reaches on [goto_over_do_procedure]. *)
Definition goto_over_do_sizing : sizing_state :=
  match sizing_loop goto_over_do_procedure with
  | Ok st => st
  | Err _ => sizing_init []
  end.

(** The last record of [goto_over_do_records]. *)
Definition goto_over_do_last : seq_t :=
  default ∅ (goto_over_do_records !! 4%nat).

(** A template of two fields that the converter never writes. *)
Definition sample_template : seq_t :=
  <["Bandwidth" := VInt 4]> (<["E range min (V)" := VStr "0.000"]> ∅).

Definition adv_cycle_records : list seq_t :=
  match _create_biologic_seqs_from_maccor_ast sample_template
          adv_cycle_procedure with
  | Ok seqs => seqs
  | Err _ => []
  end.

(** The first record of the advance-cycle pair of [adv_cycle_records]. *)
Definition adv_cycle_blank_loop : seq_t :=
  default ∅ (adv_cycle_records !! 1%nat).

(** AdvCycle / Rest / End: an advance-cycle as the first step. *)
Definition adv_cycle_first_procedure : list TestStep :=
  [ control_step "AdvCycle"; rest_step "003"; control_step "End" ].

(** ** Serializer *)

(** ["\r\n"] *)
Definition crlf : string := String "013" (String "010" EmptyString).

(** The lines of [l], each one ended by ["\r\n"]. *)
Fixpoint lines (l : list string) : string :=
  match l with
  | [] => EmptyString
  | x :: r => x +:+ crlf +:+ lines r
  end.

(** The fixed head of a protocol file; the superscript two is held, like
    every character outside ASCII, as its UTF-8 bytes. *)
Definition file_header : string :=
  lines
    [ "BT-LAB SETTING FILE"; EmptyString;
      "Number of linked techniques : 1"; EmptyString;
      "Filename : C:\dummy.mps"; EmptyString;
      "Device : BCS-805";
      "Ecell ctrl range : min = 0.00 V, max = 10.00 V";
      "Electrode material : ";
      "Initial state : ";
      "Electrolyte : ";
      "Comments : ";
      "Mass of active material : 0.001 mg";
      " at x = 0.000";
      "Molecular weight of active material (at x = 0) : 0.001 g/mol";
      "Atomic weight of intercalated ion : 0.001 g/mol";
      "Acquisition started at : xo = 0.000";
      "Number of e- transfered per intercalated ion : 1";
      "for DX = 1, DQ = 26.802 mA.h";
      "Battery capacity : 2.280 mA.h";
      "Electrode surface area : 0.001 cm²";
      "Characteristic mass : 9.130 mg";
      "Cycle Definition : Loop";
      "Turn to OCV between techniques"; EmptyString;
      "Technique : 1";
      "Modulo Bat" ].

(** A byte that continues a UTF-8 sequence. *)
Definition is_continuation (c : ascii) : bool :=
  let n := N_of_ascii c in ((128 <=? n) && (n <=? 191))%N.

(** [len(s)]: the number of code points of a [str], counted on its UTF-8
    bytes. *)
Definition py_len (s : string) : nat :=
  length (List.filter (λ c, negb (is_continuation c)) (chars s)).

Fixpoint spaces (n : nat) : string :=
  match n with
  | O => EmptyString
  | S n => String " " (spaces n)
  end.

(** [s.ljust(width, " ")] *)
Definition ljust (s : string) (width : Z) : string :=
  s +:+ spaces (Z.to_nat (width - Z.of_nat (py_len s))).

(** [str(z)] for an [int]. *)
Definition str_of_Z (z : Z) : string :=
  match z with
  | Zneg p => "-" +:+ str_of_N (Npos p)
  | _ => str_of_N (Z.to_N z)
  end.

(** [str(v)] for a value of a record. *)
Definition py_str (v : val) : string :=
  match v with
  | VInt z => str_of_Z z
  | VStr s => s
  end.

(** [for x in l: acc = body(x, acc)] *)
Fixpoint for_each {A St} (body : A → St → result St) (l : list A) (acc : St)
  : result St :=
  match l with
  | [] => Ok acc
  | x :: r =>
      acc' ← body x acc;
      for_each body r acc'
  end.

(** One iteration of the inner loop of [maccor_ast_to_protocol_str]. *)
Definition field_cell (key : string) (col_width : Z) (seq_num : nat)
    (seq : seq_t) (field_row : string) : result string :=
  match seq !! key with
  | None => Err (Exception "Could not find field in seq")
  | Some v =>
      if col_width <? Z.of_nat (py_len (py_str v))
      then Err (Exception "value in seq is greater than column width")
      else Ok (field_row +:+ ljust (py_str v) col_width)
  end.

(** One iteration of the outer loop. *)
Definition field_line (seqs : list seq_t) (col_width : Z) (key : string)
    (file_str : string) : result string :=
  if col_width <? Z.of_nat (py_len key)
  then Err (Exception "seq key has length greater than col width")
  else
    field_row ←
      for_enumerate (field_cell key col_width) 0 seqs (ljust key col_width);
    Ok (file_str +:+ (field_row +:+ crlf)).

(** [blank_keys] stands for [OrderedDict.keys(self.blank_seq)], the keys of
    the template in the order of the schema file. *)
Definition maccor_ast_to_protocol_str (blank_keys : list string)
    (blank_seq : seq_t) (steps : list TestStep) (col_width : Z)
  : result string :=
  seqs ← _create_biologic_seqs_from_maccor_ast blank_seq steps;
  for_each (field_line seqs col_width) blank_keys file_header.

(** The table the serializer writes: one line per template key, holding
    the key and the field of every record, each padded to the column
    width. *)
Definition concat_strings (l : list string) : string :=
  foldr String.append EmptyString l.

Definition table_cell (key : string) (col_width : Z) (seq : seq_t) : string :=
  ljust (py_str (default (VStr EmptyString) (seq !! key))) col_width.

Definition table_line (key : string) (col_width : Z) (seqs : list seq_t)
  : string :=
  ljust key col_width
  +:+ concat_strings (map (table_cell key col_width) seqs) +:+ crlf.

Definition table (keys : list string) (col_width : Z) (seqs : list seq_t)
  : string :=
  concat_strings (map (λ key, table_line key col_width seqs) keys).

(** Every key and every field to be written fits in a column. *)
Definition fits (keys : list string) (col_width : Z) (seqs : list seq_t)
  : Prop :=
  ∀ key, key ∈ keys →
    Z.of_nat (py_len key) ≤ col_width
    ∧ ∀ seq, seq ∈ seqs →
        ∃ v, seq !! key = Some v ∧ Z.of_nat (py_len (py_str v)) ≤ col_width.

(** Every field of [keys] that a record of [seqs] has fits in a column. *)
Definition cells_fit (keys : list string) (col_width : Z)
    (seqs : list seq_t) : bool :=
  forallb
    (λ seq : seq_t,
       forallb
         (λ key,
            match seq !! key with
            | Some v => Z.of_nat (py_len (py_str v)) <=? col_width
            | None => true
            end)
         keys)
    seqs.

(** The keys of [sample_template], and the protocol file written for
    [adv_cycle_procedure] on that template. *)
Definition sample_keys : list string := ["Bandwidth"; "E range min (V)"].

Definition sample_protocol_str : string :=
  match maccor_ast_to_protocol_str sample_keys sample_template
          adv_cycle_procedure 20 with
  | Ok file_str => file_str
  | Err _ => EmptyString
  end.

(** A goto index that points into a list of [count] records, to the
    position right after it, or to the end marker. *)
Definition valid_goto (count g : Z) : Prop :=
  0 ≤ g ≤ count ∨ g = END_SEQ_NUM.

(** The three goto fields of a record hold valid goto indices. *)
Definition valid_gotos (count : Z) (r : seq_t) : Prop :=
  ∀ j, (1 ≤ j ≤ 3)%nat →
    ∃ g, r !! lim_key j "_seq" = Some (VInt g) ∧ valid_goto count g.

(** What the first pass keeps on a stretch of steps that are all handed
    to the step compiler: one record is reserved for each step. *)
Definition flat_sizing_inv (k : nat) (st : sizing_state) : Prop :=
  curr_seq_num st = Z.of_nat k
  ∧ ∀ j, (j < k)%nat →
      seq_num_by_step_num st !! (Z.of_nat j + 1) = Some (Z.of_nat j).

(** What the second pass keeps on such a stretch: no goto bound is set,
    and the only level holds the record of each step seen so far. *)
Definition flat_gen_inv (blank_seq : seq_t) (steps : list TestStep)
    (by_step : gmap Z Z) (k : nat) (st : gen_state) : Prop :=
  step_num_goto_lower_bound st = 0
  ∧ ∃ l, seq_loop_stack st = [l] ∧ length l = k
         ∧ ∀ j step, (j < k)%nat → steps !! j = Some step →
             ∃ r, l !! j = Some r
                  ∧ _proc_step_to_seq blank_seq step (Z.of_nat j + 1)
                      by_step 0 (Z.of_nat (length steps)) = Ok r.

(** Charge / Rest / End: a procedure without control-flow steps. *)
Definition flat_procedure : list TestStep :=
  [ charge_step; rest_step "003"; control_step "End" ].

Definition flat_records : list seq_t :=
  match _create_biologic_seqs_from_maccor_ast ∅ flat_procedure with
  | Ok seqs => seqs
  | Err _ => []
  end.

(** The record kinds the converter writes. *)
Definition known_type (r : seq_t) : Prop :=
  ∃ kind, r !! "type" = Some (VStr kind)
          ∧ kind ∈ ["Rest"; "CC"; "CV"; "Loop"].

(** Rest / Do / Rest / AdvCycle / Rest / Loop x1 / End: the advance-cycle
    step is not the last step of the loop, so the loop is unrolled with
    the advance-cycle pair in its body. *)
Definition unrolled_adv_cycle_procedure : list TestStep :=
  [ rest_step "002"; control_step "Do 1"; rest_step "004";
    control_step "AdvCycle"; rest_step "006"; loop_step "Loop 1" "1";
    control_step "End" ].

(** A constant-current charge with one end-condition that goes to step 2. *)
Definition end_entry_step (end_type oper value : string) : TestStep :=
  {| StepType := "Charge"; StepMode := Some "Current";
     StepValue := Some "1.5";
     Ends := OneChild {| EndType := end_type; Oper := oper;
                         Value := value; Step := "002" |};
     Reports := NoChild |}.

(** Field [k] of the record a computation returns. *)
Definition field (k : string) (r : result seq_t) : result (option val) :=
  match r with
  | Ok s => Ok (s !! k)
  | Err e => Err e
  end.

(** The strings on which [py_float] and [py_int_str] are [float] and
    [int]: ASCII characters only (Python also reads the decimal digits and
    the whitespace of other scripts), and no longer than the 4300 digits
    CPython accepts in an [int] literal by default. *)
Definition plain_literal (val_str : string) : bool :=
  forallb (λ c, (N_of_ascii c <? 128)%N) (chars val_str)
  && (length (chars val_str) <=? 4300)%nat.

(** * Properties *)

(** ** Converters: worked examples *)

(** C8 (as stated, refuted): the current converter does not map
    ["0.000000012"] to [("12.000", "pA")]. *)
Lemma convert_amps_12e9_not_pA :
  _convert_amps "0.000000012" ≠ Ok ("12.000", "pA").
Proof. vm_compute. discriminate. Qed.

(** C8 (amended): ["0.000000012"] is 1.2e-8 A, not below 1e-9 A and written
    with nine fractional digits, so the current converter answers
    [("12.000", "nA")]; twelve picoamperes, ["0.000000000012"], give
    [("12.000", "pA")]. *)
Theorem convert_amps_12e9_nA :
  _convert_amps "0.000000012" = Ok ("12.000", "nA")
  ∧ _convert_amps "0.000000000012" = Ok ("12.000", "pA").
Proof. split; vm_compute; reflexivity. Qed.

(** C9: the duration converter maps ["::.5"] to [("500.000", "ms")] and
    ["3600::"] to [("3600.000", "hr")]. *)
Theorem convert_time_examples :
  _convert_time "::.5" = Ok ("500.000", "ms")
  ∧ _convert_time "3600::" = Ok ("3600.000", "hr").
Proof. split; vm_compute; reflexivity. Qed.

(** ** Loop unrolling with no repeat *)

(** C10: unrolling with repeat count zero returns the loop body as it is,
    whatever the records and the bounds. *)
Theorem unroll_loop_zero (loop : list seq_t) (lo hi : Z) :
  _unroll_loop loop 0 lo hi = Ok loop.
Proof.
  unfold _unroll_loop. simpl.
  replace (Z.of_nat (length loop) * (0 + 1)) with (Z.of_nat (length loop))
    by lia.
  by rewrite Z.eqb_refl.
Qed.

(** ** Loop unrolling *)

Lemma bind_Ok {A B} (m : result A) (f : A → result B) (b : B) :
  m ≫= f = Ok b ↔ ∃ a, m = Ok a ∧ f a = Ok b.
Proof.
  destruct m as [a|e]; simpl; split.
  - eauto.
  - by intros (a' & [= ->] & ?).
  - discriminate.
  - by intros (? & [=] & _).
Qed.

Lemma unroll_goto_spec (seq u : seq_t) (shift lo hi g : Z) (j : nat) :
  int_field seq (lim_key (j + 1) "_seq") g →
  int_field u (lim_key (j + 1) "_seq") g →
  unroll_goto seq shift lo hi u j
  = Ok (<[lim_key (j + 1) "_seq" := VInt (shift_index shift lo hi g)]> u).
Proof.
  unfold unroll_goto, int_field, getitem, shift_index. intros -> Hu. simpl.
  destruct ((lo <=? g) && (g <=? hi)); [done|].
  by rewrite insert_id.
Qed.

Lemma unroll_seq_spec (shift lo hi : Z) (r : seq_t) (ns g1 g2 g3 : Z) :
  int_field r "Ns" ns → int_field r "lim1_seq" g1 →
  int_field r "lim2_seq" g2 → int_field r "lim3_seq" g3 →
  unroll_seq shift lo hi r
  = Ok (<["lim3_seq" := VInt (shift_index shift lo hi g3)]>
        (<["lim2_seq" := VInt (shift_index shift lo hi g2)]>
        (<["lim1_seq" := VInt (shift_index shift lo hi g1)]>
        (<["Ns" := VInt (ns + shift)]> r)))).
Proof.
  unfold unroll_seq, int_field. intros Hns H1 H2 H3.
  unfold getitem at 1. rewrite Hns. simpl.
  rewrite (unroll_goto_spec _ _ _ _ _ g1 0);
    [|done|by unfold int_field; rewrite lookup_insert_ne]. simpl.
  rewrite (unroll_goto_spec _ _ _ _ _ g2 1);
    [|done|by unfold int_field; rewrite !lookup_insert_ne]. simpl.
  rewrite (unroll_goto_spec _ _ _ _ _ g3 2);
    [|done|by unfold int_field; rewrite !lookup_insert_ne]. done.
Qed.

Lemma unroll_seq_copy (shift lo hi : Z) (r : seq_t) :
  has_indices r →
  ∃ r', unroll_seq shift lo hi r = Ok r' ∧ copy_of shift lo hi r r'.
Proof.
  intros Hr.
  destruct (Hr "Ns") as [ns Hns]; [set_solver|].
  destruct (Hr "lim1_seq") as [g1 H1]; [set_solver|].
  destruct (Hr "lim2_seq") as [g2 H2]; [set_solver|].
  destruct (Hr "lim3_seq") as [g3 H3]; [set_solver|].
  eexists. split; [by apply unroll_seq_spec|].
  unfold copy_of, int_field in *. split_and!.
  - intros ns' Hns'. rewrite Hns in Hns'. injection Hns' as <-.
    rewrite !lookup_insert_ne by done. by rewrite lookup_insert_eq.
  - intros k g Hk Hg. unfold goto_fields in Hk.
    apply elem_of_cons in Hk as [->|Hk];
      [|apply elem_of_cons in Hk as [->|Hk];
        [|apply list_elem_of_singleton in Hk as ->]].
    + rewrite H1 in Hg. injection Hg as <-.
      rewrite !lookup_insert_ne by done. by rewrite lookup_insert_eq.
    + rewrite H2 in Hg. injection Hg as <-.
      rewrite !lookup_insert_ne by done. by rewrite lookup_insert_eq.
    + rewrite H3 in Hg. injection Hg as <-. by rewrite lookup_insert_eq.
  - intros k Hk. unfold index_fields in Hk.
    rewrite !lookup_insert_ne; [done|set_solver..].
Qed.

Lemma for_append_Forall2 {A B} (body : A → result B) (P : A → B → Prop)
    (l : list A) (acc : list B) :
  Forall (λ x, ∃ y, body x = Ok y ∧ P x y) l →
  ∃ ys, for_append body l acc = Ok (acc ++ ys) ∧ Forall2 P l ys.
Proof.
  intros Hl. revert acc.
  induction Hl as [|x l (y & Hy & HP) _ IH]; intros acc; simpl.
  - exists []. by rewrite app_nil_r.
  - rewrite Hy. simpl. destruct (IH (acc ++ [y])) as (ys & -> & Hys).
    exists (y :: ys). split; [by rewrite <- app_assoc|by constructor].
Qed.

Lemma unroll_copies_blocks (loop : list seq_t) (lo hi : Z)
    (copies : list Z) (acc : list seq_t) :
  Forall has_indices loop →
  ∃ blocks,
    unroll_copies loop lo hi copies acc = Ok (acc ++ concat blocks)
    ∧ Forall2
        (λ i block,
           Forall2 (copy_of (Z.of_nat (length loop) * i) lo hi) loop block)
        copies blocks.
Proof.
  intros Hwf. revert acc. induction copies as [|i copies IH]; intros acc.
  - exists []. simpl. by rewrite app_nil_r.
  - simpl.
    destruct (for_append_Forall2
                (unroll_seq (Z.of_nat (length loop) * i) lo hi)
                (copy_of (Z.of_nat (length loop) * i) lo hi) loop acc)
      as (block & -> & Hblock).
    { eapply Forall_impl; [exact Hwf|]. intros r Hr.
      by apply unroll_seq_copy. }
    simpl. destruct (IH (acc ++ block)) as (blocks & -> & Hblocks).
    exists (block :: blocks). split; [by rewrite <- app_assoc|by constructor].
Qed.

Lemma concat_uniform_length {A} (n : nat) (blocks : list (list A)) :
  Forall (λ b, length b = n) blocks →
  length (concat blocks) = (length blocks * n)%nat.
Proof.
  induction 1 as [|b blocks Hb _ IH]; simpl; [done|].
  rewrite length_app, IH, Hb. done.
Qed.

Lemma concat_uniform_lookup {A} (n : nat) (blocks : list (list A))
    (i k : nat) (b : list A) (x : A) :
  Forall (λ b, length b = n) blocks →
  blocks !! i = Some b → b !! k = Some x →
  concat blocks !! (i * n + k)%nat = Some x.
Proof.
  intros Hlen. revert i. induction Hlen as [|b0 blocks Hb0 _ IH]; intros i Hi Hk.
  - done.
  - destruct i as [|i]; simpl in *.
    + injection Hi as ->. rewrite lookup_app_l; [done|].
      by eapply lookup_lt_Some.
    + rewrite lookup_app_r by lia.
      replace (n + i * n + k - length b0)%nat with (i * n + k)%nat by lia.
      by apply IH.
Qed.

(** The fields [_unroll_loop] does rewrite: for a repeat count N >= 0 and
    a body of L records that carry their index fields, unrolling returns
    L * (N + 1) records; the first L are the body, and the record at
    position k of duplicate i (1 <= i <= N) is the body's record k with
    [Ns] increased by i * L and each of [lim1_seq], [lim2_seq], [lim3_seq]
    increased by i * L when it lies in
    [[loop_start_seq_num, loop_post_seq_num]] and unchanged otherwise. *)
Theorem unroll_loop_shifts (loop : list seq_t) (num_loops lo hi : Z) :
  0 ≤ num_loops →
  Forall has_indices loop →
  ∃ unrolled,
    _unroll_loop loop num_loops lo hi = Ok unrolled
    ∧ length unrolled = (length loop * (Z.to_nat num_loops + 1))%nat
    ∧ (∀ k r, loop !! k = Some r → unrolled !! k = Some r)
    ∧ (∀ i k r, (1 ≤ i ≤ Z.to_nat num_loops)%nat → loop !! k = Some r →
         ∃ r', unrolled !! (i * length loop + k)%nat = Some r'
               ∧ copy_of (Z.of_nat (i * length loop)) lo hi r r').
Proof.
  intros HN Hwf. unfold _unroll_loop.
  destruct (unroll_copies_blocks loop lo hi (seqZ 1 num_loops) loop Hwf)
    as (blocks & -> & Hblocks).
  assert (Hn : length blocks = Z.to_nat num_loops).
  { by rewrite <- (Forall2_length _ _ _ Hblocks), length_seqZ. }
  assert (Huni : Forall (λ b, length b = length loop) blocks).
  { apply Forall_lookup. intros n b Hb.
    destruct (Forall2_lookup_r _ _ _ _ _ Hblocks Hb) as (i & _ & Hi).
    by rewrite (Forall2_length _ _ _ Hi). }
  assert (Hlen : length (loop ++ concat blocks)
                 = (length loop * (Z.to_nat num_loops + 1))%nat).
  { rewrite length_app, (concat_uniform_length _ _ Huni), Hn. lia. }
  exists (loop ++ concat blocks). simpl. split_and!.
  - rewrite Hlen.
    replace (Z.of_nat (length loop * (Z.to_nat num_loops + 1)))
      with (Z.of_nat (length loop) * (num_loops + 1)) by lia.
    by rewrite Z.eqb_refl.
  - done.
  - intros k r Hk. rewrite lookup_app_l; [done|by eapply lookup_lt_Some].
  - intros i k r [Hi1 Hi2] Hk.
    assert (Hc : seqZ 1 num_loops !! (i - 1)%nat = Some (Z.of_nat i)).
    { rewrite lookup_seqZ. lia. }
    destruct (Forall2_lookup_l _ _ _ _ _ Hblocks Hc) as (b & Hb & Hcopy).
    destruct (Forall2_lookup_l _ _ _ _ _ Hcopy Hk) as (r' & Hr' & Hrr').
    exists r'. split.
    + destruct i as [|i']; [lia|]. simpl in Hb.
      rewrite Nat.sub_0_r in Hb.
      rewrite lookup_app_r by (simpl; lia).
      replace (S i' * length loop + k - length loop)%nat
        with (i' * length loop + k)%nat by (simpl; lia).
      by eapply concat_uniform_lookup.
    + by replace (Z.of_nat (i * length loop))
        with (Z.of_nat (length loop) * Z.of_nat i) by lia.
Qed.

Lemma unroll_seq_keeps_ctrl_seq (shift lo hi : Z) (r r' : seq_t) :
  unroll_seq shift lo hi r = Ok r' → r' !! "ctrl_seq" = r !! "ctrl_seq".
Proof.
  unfold unroll_seq. intros H.
  apply bind_Ok in H as (v & Hv & H).
  apply bind_Ok in H as (v' & Hv' & H).
  apply bind_Ok in H as (u1 & H1 & H).
  apply bind_Ok in H as (u2 & H2 & H3).
  assert (Hgoto : ∀ u u' j, unroll_goto r shift lo hi u j = Ok u' →
                            u' !! "ctrl_seq" = u !! "ctrl_seq").
  { intros u u' j Hu. unfold unroll_goto in Hu.
    apply bind_Ok in Hu as (w & _ & Hu).
    apply bind_Ok in Hu as (g & _ & Hu).
    destruct (_ && _); injection Hu as <-; [|done].
    apply lookup_insert_ne. unfold lim_key. simpl. discriminate. }
  rewrite (Hgoto _ _ _ H3), (Hgoto _ _ _ H2), (Hgoto _ _ _ H1).
  by rewrite lookup_insert_ne.
Qed.

(** C3 (the code at the failing input): on Rest / Do / Rest / AdvCycle /
    Rest / Loop x1 / End the loop body of 4 records (indices 1 to 4) is
    unrolled once. The duplicates of the two loop records of the
    advance-cycle pair get [Ns] 6 and 7 and gotos 7 and 8, but their
    loop-control index [ctrl_seq] is still 2 and 3: it lies in the range
    [[1, 5]] of the loop and is not moved by 4 = body length * copy
    index, so the duplicated pair loops back into the first copy.
    Whatever its arguments, the copy [_unroll_loop] makes of a record has
    the [ctrl_seq] of the original. *)
Theorem unrolled_loop_records_keep_ctrl_seq :
  fields ["Ns"; "type"; "ctrl_seq"; "lim1_seq"]
    (_create_biologic_seqs_from_maccor_ast ∅ unrolled_adv_cycle_procedure)
  = Ok [ [Some (VInt 0); Some (VStr "Rest"); None; Some (VInt 1)];
         [Some (VInt 1); Some (VStr "Rest"); None; Some (VInt 2)];
         [Some (VInt 2); Some (VStr "Loop"); Some (VInt 2); Some (VInt 3)];
         [Some (VInt 3); Some (VStr "Loop"); Some (VInt 3); Some (VInt 4)];
         [Some (VInt 4); Some (VStr "Rest"); None; Some (VInt 5)];
         [Some (VInt 5); Some (VStr "Rest"); None; Some (VInt 6)];
         [Some (VInt 6); Some (VStr "Loop"); Some (VInt 2); Some (VInt 7)];
         [Some (VInt 7); Some (VStr "Loop"); Some (VInt 3); Some (VInt 8)];
         [Some (VInt 8); Some (VStr "Rest"); None; Some (VInt 9)] ]
  ∧ ∀ shift lo hi r r',
      unroll_seq shift lo hi r = Ok r' → r' !! "ctrl_seq" = r !! "ctrl_seq".
Proof.
  split; [vm_compute; reflexivity|].
  intros shift lo hi r r'. apply unroll_seq_keeps_ctrl_seq.
Qed.

(** ** The two passes agree on the number of records *)

(** Inversion of a successful monadic computation, one layer at a time. *)
Ltac inv_ok H :=
  repeat
    (cbv beta in H;
     match type of H with
     | (_ ≫= _) = Ok _ =>
         let x := fresh "x" in
         let Hx := fresh "Hx" in
         apply bind_Ok in H as (x & Hx & H)
     | (let '(_, _) := ?p in _) = Ok _ => destruct p eqn:?
     | (if ?c then _ else _) = Ok _ => destruct c eqn:?
     | Err _ = Ok _ => discriminate H
     end).

Lemma py_assert_Ok (c : bool) (u : unit) : py_assert c = Ok u → c = true.
Proof. by destruct c. Qed.

Lemma advcycle_not_do (t : string) : streq t "AdvCycle" = true → is_do t = false.
Proof. intros ->%String.eqb_eq. reflexivity. Qed.

Lemma advcycle_not_loop (t : string) :
  streq t "AdvCycle" = true → is_loop t = false.
Proof. intros ->%String.eqb_eq. reflexivity. Qed.

Section Agreement.

Variable blank_seq : seq_t.
Variable steps : list TestStep.

(** A later iteration of the first pass leaves the decisions recorded for
    earlier steps alone. *)
Lemma sizing_step_frame (k j : nat) (step : TestStep) (st st' : sizing_state) :
  sizing_step steps k step st = Ok st' → j ≠ k →
  loop_unroll_status_by_idx st' !! j = loop_unroll_status_by_idx st !! j
  ∧ adv_cycle_ignore_status_by_idx st' !! j
    = adv_cycle_ignore_status_by_idx st !! j.
Proof.
  intros H Hj. unfold sizing_step in H. inv_ok H;
    injection H as <-; simpl; by rewrite ?lookup_insert_ne.
Qed.

Lemma sizing_loop_frame (todo : list TestStep) (k j : nat)
    (st st' : sizing_state) :
  for_enumerate (sizing_step steps) k todo st = Ok st' → (j < k)%nat →
  loop_unroll_status_by_idx st' !! j = loop_unroll_status_by_idx st !! j
  ∧ adv_cycle_ignore_status_by_idx st' !! j
    = adv_cycle_ignore_status_by_idx st !! j.
Proof.
  revert k st. induction todo as [|step todo IH]; intros k st H Hj; simpl in H.
  - by injection H as <-.
  - apply bind_Ok in H as (st1 & H1 & H).
    destruct (IH _ _ H) as [-> ->]; [lia|].
    apply (sizing_step_frame _ _ _ _ _ H1). lia.
Qed.

Ltac inv_stack :=
  repeat
    (simplify_eq/=;
     match goal with
     | H : update_top _ ?s = Ok _ |- _ => is_var s; destruct s
     | H : pop ?s = Ok _ |- _ => is_var s; destruct s
     | H : top ?s = Ok _ |- _ => is_var s; destruct s
     | H : getitem _ _ = Ok _ |- _ =>
         unfold getitem in H;
         match type of H with
         | match ?o with _ => _ end = _ => destruct o eqn:?
         end
     | H : py_assert _ = Ok _ |- _ => apply py_assert_Ok in H
     end);
  simplify_eq/=.

Lemma step_agree (sz : sizing_state) (end_step_num : Z) (k : nat)
    (step : TestStep) (s1 s1' : sizing_state) (s2 s2' : gen_state) :
  sizing_step steps k step s1 = Ok s1' →
  gen_step blank_seq sz end_step_num k step s2 = Ok s2' →
  loop_unroll_status_by_idx sz !! k = loop_unroll_status_by_idx s1' !! k →
  adv_cycle_ignore_status_by_idx sz !! k
  = adv_cycle_ignore_status_by_idx s1' !! k →
  sizes_agree s1 s2 → sizes_agree s1' s2'.
Proof.
  intros H1 H2 Hu Hi Hag. unfold sizing_step in H1. unfold gen_step in H2.
  destruct s1 as [cur counts wu bys us ig], s2 as [stack starts lb].
  unfold sizes_agree in *. simpl in *. subst counts.
  revert H1 H2.
  destruct (is_do (StepType step)) eqn:Edo;
    destruct (streq (StepType step) "AdvCycle") eqn:Eadv;
    destruct (is_loop (StepType step)) eqn:Eloop;
    try (rewrite (advcycle_not_do _ Eadv) in Edo; discriminate Edo);
    try (rewrite (advcycle_not_loop _ Eadv) in Eloop; discriminate Eloop);
    cbn [andb negb]; intros H1 H2.
  all: inv_ok H1; injection H1 as <-; simpl in *.
  all: inv_ok H2; try (injection H2 as <-); simpl in *.
  all: try rewrite lookup_insert_eq in Hi; try rewrite lookup_insert_eq in Hu.
  all: try match goal with
           | H : negb (_ =? 0) = false |- _ =>
               apply negb_false_iff, Z.eqb_eq in H; lia
           end.
  all: inv_stack.
  all: rewrite ?length_app; simpl.
  all: try (f_equal; lia).
  - assert (x7 = x1) as -> by congruence.
    destruct x8; inv_ok Hx10; inv_stack.
    + match goal with H : (_ =? _) = true |- _ => apply Z.eqb_eq in H end.
      f_equal. lia.
    + rewrite length_app. simpl. f_equal. lia.
Qed.

Lemma passes_agree (sz : sizing_state) (end_step_num : Z)
    (todo : list TestStep) (k : nat)
    (s1 s1' : sizing_state) (s2 s2' : gen_state) :
  for_enumerate (sizing_step steps) k todo s1 = Ok s1' →
  for_enumerate (gen_step blank_seq sz end_step_num) k todo s2 = Ok s2' →
  (∀ j, (k ≤ j)%nat →
     loop_unroll_status_by_idx sz !! j = loop_unroll_status_by_idx s1' !! j
     ∧ adv_cycle_ignore_status_by_idx sz !! j
       = adv_cycle_ignore_status_by_idx s1' !! j) →
  sizes_agree s1 s2 → sizes_agree s1' s2'.
Proof.
  revert k s1 s2.
  induction todo as [|step todo IH]; intros k s1 s2 H1 H2 Hsz Hag;
    simpl in H1, H2.
  - by simplify_eq.
  - apply bind_Ok in H1 as (t1 & Ht1 & H1).
    apply bind_Ok in H2 as (t2 & Ht2 & H2).
    apply (IH _ _ _ H1 H2); [intros j Hj; apply Hsz; lia|].
    destruct (Hsz k) as [Hu Hi]; [lia|].
    destruct (sizing_loop_frame _ _ k _ _ H1 ltac:(lia)) as [Hu' Hi'].
    apply (step_agree _ _ _ _ _ _ _ _ Ht1 Ht2); [congruence..|done].
Qed.

(** C4: when the sizing pass succeeds with [pre_computed_seq_count] and
    the generation pass returns its list of records, the list has exactly
    [pre_computed_seq_count] records, which is also the running total
    [curr_seq_num]; the closing assertion therefore holds and the
    conversion returns that list. *)
Theorem sizing_count_matches_generation (sz : sizing_state)
    (pre_computed_seq_count : Z) (seqs : list seq_t) :
  sizing_pass steps = Ok (sz, pre_computed_seq_count) →
  generation_pass blank_seq steps sz = Ok seqs →
  Z.of_nat (length seqs) = pre_computed_seq_count
  ∧ pre_computed_seq_count = curr_seq_num sz
  ∧ _create_biologic_seqs_from_maccor_ast blank_seq steps = Ok seqs.
Proof.
  intros H1 H2.
  assert (Hlen : Z.of_nat (length seqs) = pre_computed_seq_count
                 ∧ pre_computed_seq_count = curr_seq_num sz).
  { unfold sizing_pass in H1. unfold generation_pass in H2.
    inv_ok H1. inv_ok H2. simplify_eq.
    repeat match goal with
           | H : py_assert _ = Ok _ |- _ => apply py_assert_Ok in H
           end.
    match goal with
    | Hs : for_enumerate (sizing_step _) _ _ _ = Ok _,
      Hg : for_enumerate (gen_step _ _ _) _ _ _ = Ok _ |- _ =>
        pose proof (passes_agree _ _ _ _ _ _ _ _ Hs Hg) as Hag
    end.
    unfold sizes_agree in Hag. specialize (Hag (λ _ _, conj eq_refl eq_refl) eq_refl).
    destruct (seq_loop_stack x6), (loop_seq_count_stack sz); simplify_eq/=.
    match goal with H : (_ =? _) = true |- _ => apply Z.eqb_eq in H end.
    done. }
  destruct Hlen as [Hlen Hcur]. split_and!; [done..|].
  unfold _create_biologic_seqs_from_maccor_ast. rewrite H1. simpl.
  rewrite H2. simpl. rewrite Hlen, Z.eqb_refl. done.
Qed.

End Agreement.

(** ** Step compiler: limit slots *)

Lemma streq_true (a b : string) : streq a b = true → a = b.
Proof. apply String.eqb_eq. Qed.

Lemma lim_key_sfx_inj (n : nat) (a b : string) :
  lim_key n a = lim_key n b → a = b.
Proof.
  unfold lim_key. intros H.
  apply (inj (String.app "lim")) in H.
  by apply (inj (String.app (str_of_nat n))) in H.
Qed.

Lemma rec_key_not_lim (n m : nat) (a b : string) : rec_key n a ≠ lim_key m b.
Proof. unfold rec_key, lim_key. simpl. discriminate. Qed.

Lemma operator_map_inv (oper comp : string) :
  getitem operator_map oper = Ok comp →
  (oper = ">=" ∧ comp = ">") ∨ (oper = "<=" ∧ comp = "<").
Proof.
  unfold getitem, operator_map. intros H.
  destruct (decide (oper = ">=")) as [->|Hge].
  { rewrite lookup_insert_eq in H. left. by simplify_eq. }
  rewrite lookup_insert_ne in H by done.
  destruct (decide (oper = "<=")) as [->|Hle].
  { rewrite lookup_insert_eq in H. right. by simplify_eq. }
  rewrite lookup_insert_ne, lookup_empty in H by done. discriminate.
Qed.

(** Lookups through the inserts made for one limit slot. *)
Ltac lim_lookup :=
  repeat
    (first
       [ rewrite lookup_insert_eq
       | rewrite lookup_insert_ne
           by (first [ intros ?%lim_key_sfx_inj; discriminate
                     | done
                     | auto ]) ]).

Section StepCompiler.

Variable blank_seq : seq_t.

Lemma proc_end_entry_inv (step_num : Z) (by_step : gmap Z Z) (lb ub : Z)
    (idx : nat) (e : EndEntry) (s s' : seq_t) :
  proc_end_entry step_num by_step lb ub idx e s = Ok s' →
  ∃ goto_step goto_seq comp,
    py_int_str (Step e) = Ok goto_step
    ∧ by_step !! goto_step = Some goto_seq
    ∧ accepted_end_condition e comp
    ∧ s' !! lim_key (idx + 1) "_comp" = Some (VStr comp)
    ∧ s' !! lim_key (idx + 1) "_seq" = Some (VInt goto_seq)
    ∧ s' !! lim_key (idx + 1) "_action"
      = (if goto_step =? step_num + 1
         then s !! lim_key (idx + 1) "_action"
         else Some (VStr "Goto sequence"))
    ∧ (∀ key, (∀ sfx, key ≠ lim_key (idx + 1) sfx) → s' !! key = s !! key).
Proof.
  unfold proc_end_entry. intros H.
  apply bind_Ok in H as (goto_step & Hgoto & H).
  destruct (_ || _); [discriminate|].
  destruct (by_step !! goto_step) as [goto_seq|] eqn:Hseq; [|discriminate].
  exists goto_step, goto_seq.
  inv_ok H.
  all: destruct (goto_step =? step_num + 1) eqn:Hnext; simpl in H.
  all: injection H as <-.
  all: repeat match goal with
              | E : streq _ _ = true |- _ => apply streq_true in E
              | E : negb (streq _ _) = false |- _ =>
                  apply negb_false_iff, streq_true in E
              | E : getitem operator_map _ = Ok _ |- _ =>
                  apply operator_map_inv in E
              end.
  all: eexists; split_and!; [done|done| |lim_lookup; done..|];
    [unfold accepted_end_condition; intuition (subst; auto)|].
  all: intros key Hkey; lim_lookup; done.
Qed.

Lemma lim_key_idx_ne (n m : nat) (a b : string) :
  n ≠ m → (n ≤ 3)%nat → (m ≤ 3)%nat → lim_key n a ≠ lim_key m b.
Proof.
  intros Hne Hn Hm.
  destruct n as [|[|[|[|n]]]]; [| | | |lia];
    (destruct m as [|[|[|[|m]]]]; [| | | |lia]);
    try done; unfold lim_key; simpl; discriminate.
Qed.

Lemma end_entries_frame (step_num : Z) (by_step : gmap Z Z) (lb ub : Z)
    (l : list EndEntry) (i0 : nat) (s s' : seq_t) (key : string) :
  for_enumerate (proc_end_entry step_num by_step lb ub) i0 l s = Ok s' →
  (∀ j sfx, (i0 ≤ j < i0 + length l)%nat → key ≠ lim_key (j + 1) sfx) →
  s' !! key = s !! key.
Proof.
  revert i0 s. induction l as [|e l IH]; intros i0 s H Hkey; simpl in H.
  - by simplify_eq.
  - apply bind_Ok in H as (s1 & H1 & H).
    rewrite (IH _ _ H) by (intros j sfx Hj; apply Hkey; simpl; lia).
    apply proc_end_entry_inv in H1 as (? & ? & ? & _ & _ & _ & _ & _ & _ & Hfr).
    apply Hfr. intros sfx. apply Hkey. simpl. lia.
Qed.

Lemma end_entries_inv (step_num : Z) (by_step : gmap Z Z) (lb ub : Z)
    (l : list EndEntry) (i0 : nat) (s s' : seq_t) (i : nat) (e : EndEntry) :
  for_enumerate (proc_end_entry step_num by_step lb ub) i0 l s = Ok s' →
  (i0 + length l ≤ 3)%nat →
  l !! i = Some e →
  ∃ goto_step goto_seq comp,
    py_int_str (Step e) = Ok goto_step
    ∧ by_step !! goto_step = Some goto_seq
    ∧ accepted_end_condition e comp
    ∧ s' !! lim_key (i0 + i + 1) "_comp" = Some (VStr comp)
    ∧ s' !! lim_key (i0 + i + 1) "_seq" = Some (VInt goto_seq)
    ∧ s' !! lim_key (i0 + i + 1) "_action"
      = (if goto_step =? step_num + 1
         then s !! lim_key (i0 + i + 1) "_action"
         else Some (VStr "Goto sequence")).
Proof.
  revert i0 s i. induction l as [|e0 l IH]; intros i0 s i H Hlen Hi;
    [done|].
  simpl in H, Hlen. apply bind_Ok in H as (s1 & H1 & H).
  destruct i as [|i]; simpl in Hi.
  - injection Hi as ->. rewrite Nat.add_0_r.
    apply proc_end_entry_inv in H1
      as (goto_step & goto_seq & comp & ? & ? & ? & Hc & Hs & Ha & _).
    exists goto_step, goto_seq, comp.
    rewrite !(end_entries_frame _ _ _ _ _ _ _ _ _ H); [done|..];
      intros j sfx Hj; apply lim_key_idx_ne; lia.
  - destruct (IH (S i0) s1 i H ltac:(lia) Hi)
      as (goto_step & goto_seq & comp & ? & ? & ? & Hc & Hs & Ha).
    exists goto_step, goto_seq, comp.
    replace (i0 + S i + 1)%nat with (S i0 + i + 1)%nat by lia.
    split_and!; [done..|]. rewrite Ha.
    apply proc_end_entry_inv in H1
      as (? & ? & ? & _ & _ & _ & _ & _ & _ & Hfr).
    rewrite Hfr; [done|]. intros sfx.
    apply lookup_lt_Some in Hi. apply lim_key_idx_ne; lia.
Qed.

Lemma proc_control_frame (step : TestStep) (s s' : seq_t) (key : string) :
  proc_control step s = Ok s' →
  key ∉ ["charge/discharge"; "N"; "Apply I/C"; "type"; "ctrl1_val_vs";
         "ctrl1_val_unit"; "ctrl1_val"] →
  s' !! key = s !! key.
Proof.
  unfold proc_control. intros H Hkey.
  repeat match type of H with
         | (if ?c then _ else _) = Ok _ => destruct c
         | match ?o with _ => _ end = Ok _ => destruct o
         | _ => progress inv_ok H
         end;
    try discriminate H; injection H as <-;
    rewrite !lookup_insert_ne; set_solver.
Qed.

Lemma report_entries_frame (l : list ReportEntry) (i0 : nat) (s s' : seq_t)
    (key : string) :
  for_enumerate proc_report_entry i0 l s = Ok s' →
  (∀ n sfx, key ≠ rec_key n sfx) →
  s' !! key = s !! key.
Proof.
  revert i0 s. induction l as [|r l IH]; intros i0 s H Hkey; simpl in H.
  - by simplify_eq.
  - apply bind_Ok in H as (s1 & H1 & H). rewrite (IH _ _ H) by done.
    unfold proc_report_entry in H1. inv_ok H1; injection H1 as <-;
      by rewrite !lookup_insert_ne
        by (intros Heq; eapply Hkey; symmetry; exact Heq).
Qed.

Lemma lim_action_fresh (n : nat) :
  (n ≤ 3)%nat →
  lim_key n "_action"
  ∉ ["lim_nb"; "lim3_seq"; "lim2_seq"; "lim1_seq"; "Ns"; "charge/discharge";
     "N"; "Apply I/C"; "type"; "ctrl1_val_vs"; "ctrl1_val_unit"; "ctrl1_val"].
Proof.
  intros Hn. destruct n as [|[|[|[|n]]]]; [| | | |lia];
    unfold lim_key; simpl;
    rewrite !not_elem_of_cons; split_and!; try discriminate;
    apply not_elem_of_nil.
Qed.

(** What a compiled record holds in the limit slot of each end-condition
    of its step. *)
Lemma proc_step_limit_slot (step : TestStep) (step_num : Z)
    (by_step : gmap Z Z) (lb ub : Z) (s : seq_t) (i : nat) (e : EndEntry) :
  _proc_step_to_seq blank_seq step step_num by_step lb ub = Ok s →
  as_list (Ends step) !! i = Some e →
  ∃ goto_step goto_seq comp,
    py_int_str (Step e) = Ok goto_step
    ∧ by_step !! goto_step = Some goto_seq
    ∧ accepted_end_condition e comp
    ∧ s !! lim_key (i + 1) "_comp" = Some (VStr comp)
    ∧ s !! lim_key (i + 1) "_seq" = Some (VInt goto_seq)
    ∧ s !! lim_key (i + 1) "_action"
      = (if goto_step =? step_num + 1
         then blank_seq !! lim_key (i + 1) "_action"
         else Some (VStr "Goto sequence")).
Proof.
  unfold _proc_step_to_seq. intros H Hi. inv_ok H.
  match goal with E : (3 <? length (as_list (Ends _)))%nat = false |- _ =>
    apply Nat.ltb_ge in E; rename E into Hlen end.
  match goal with
  | E : for_enumerate (proc_end_entry _ _ _ _) _ _ _ = Ok _ |- _ =>
      destruct (end_entries_inv _ _ _ _ _ _ _ _ _ _ E ltac:(simpl; lia) Hi)
        as (goto_step & goto_seq & comp & ? & ? & ? & Hc & Hs & Ha)
  end.
  simpl in Hc, Hs, Ha.
  exists goto_step, goto_seq, comp.
  assert (Hrec : ∀ sfx, s !! lim_key (i + 1) sfx = x1 !! lim_key (i + 1) sfx).
  { intros sfx.
    rewrite (report_entries_frame _ _ _ _ _ H)
      by (intros n sfx' Heq; by apply (rec_key_not_lim n (i + 1) sfx' sfx)).
    apply lookup_insert_ne. unfold lim_key. simpl. discriminate. }
  rewrite !Hrec. split_and!; [done..|]. rewrite Ha.
  destruct (goto_step =? step_num + 1); [|done].
  apply lookup_lt_Some in Hi.
  pose proof (lim_action_fresh (i + 1) ltac:(lia)) as Hfresh.
  rewrite !not_elem_of_cons in Hfresh.
  rewrite lookup_insert_ne by (intros Heq; symmetry in Heq; tauto).
  match goal with E : proc_control _ _ = Ok _ |- _ =>
    rewrite (proc_control_frame _ _ _ _ E)
      by (rewrite !not_elem_of_cons; tauto) end.
  rewrite !lookup_insert_ne by (intros Heq; symmetry in Heq; tauto).
  done.
Qed.

(** C5 (amended): in a compiled record the limit slot of the end-condition
    at position i holds the sequence index that the step-to-sequence map
    gives for the goto's step number, and its action is ["Goto sequence"]
    exactly when that step number differs from step_num + 1; when the goto
    is to the next step the action is the template's. The test is on
    source step numbers, not on sequence indices. *)
Theorem goto_action_by_step_number (step : TestStep) (step_num : Z)
    (by_step : gmap Z Z) (lb ub : Z) (s : seq_t) (i : nat) (e : EndEntry) :
  _proc_step_to_seq blank_seq step step_num by_step lb ub = Ok s →
  as_list (Ends step) !! i = Some e →
  ∃ goto_step_num goto_seq,
    py_int_str (Step e) = Ok goto_step_num
    ∧ by_step !! goto_step_num = Some goto_seq
    ∧ s !! lim_key (i + 1) "_seq" = Some (VInt goto_seq)
    ∧ (goto_step_num ≠ step_num + 1 →
       s !! lim_key (i + 1) "_action" = Some (VStr "Goto sequence"))
    ∧ (goto_step_num = step_num + 1 →
       s !! lim_key (i + 1) "_action" = blank_seq !! lim_key (i + 1) "_action").
Proof.
  intros Hs Hi.
  destruct (proc_step_limit_slot _ _ _ _ _ _ _ _ Hs Hi)
    as (goto_step & goto_seq & comp & ? & ? & _ & _ & Hseq & Ha).
  exists goto_step, goto_seq. split_and!; [done..| |].
  - intros Hne. apply Z.eqb_neq in Hne. by rewrite Ha, Hne.
  - intros Heq. apply Z.eqb_eq in Heq. by rewrite Ha, Heq.
Qed.

End StepCompiler.

(** ** Detected precision of a decimal string *)

Section Precision.

Implicit Types (l ip fr zs expo : list ascii) (c d : ascii).

Lemma digit_cases c :
  is_digit c = true →
  ascii_eqb c "." = false ∧ ascii_eqb c "e" = false ∧ ascii_eqb c "E" = false
  ∧ ascii_eqb c "_" = false ∧ is_space c = false ∧ is_sign c = false.
Proof.
  destruct c as [[] [] [] [] [] [] [] []]; vm_compute; intros; by split_and!.
Qed.

Lemma nonzero_is_digit c : is_nonzero_digit c = true → is_digit c = true.
Proof. destruct c as [[] [] [] [] [] [] [] []]; vm_compute; done. Qed.

Lemma digits_prefix_all l :
  Forall (λ x, is_digit x = true) l → digits_prefix l = l.
Proof. induction 1 as [|c l Hc _ IH]; simpl; [done|]. by rewrite Hc, IH. Qed.

Lemma digit_run_eq l :
  digit_run l
  = match l with
    | c :: r =>
        if is_digit c then
          match r with
          | u :: ((d :: _) as r') =>
              if ascii_eqb u "_" && is_digit d
              then let '(ds, rest) := digit_run r' in (c :: ds, rest)
              else let '(ds, rest) := digit_run r in (c :: ds, rest)
          | _ => let '(ds, rest) := digit_run r in (c :: ds, rest)
          end
        else ([], l)
    | [] => ([], [])
    end.
Proof. by destruct l. Qed.

Lemma digit_run_all l :
  Forall (λ x, is_digit x = true) l → digit_run l = (l, []).
Proof.
  induction 1 as [|c l Hc Hl IH]; [done|].
  rewrite digit_run_eq, Hc, IH.
  destruct l as [|u [|d l']]; try done.
  assert (ascii_eqb u "_" = false) as ->; [|done].
  inversion Hl; subst. by apply digit_cases.
Qed.

Lemma exponent_head_not_digit expo p :
  exponent_part expo p →
  match expo with [] => True | c :: _ => is_digit c = false end.
Proof. by destruct 1 as [|? ? ? [-> | ->]|? ? ? [-> | ->]|? ? ? [-> | ->]]. Qed.

Lemma search_sig_figs_skip c l :
  ascii_eqb c "." = false → search_sig_figs (c :: l) = search_sig_figs l.
Proof. simpl. by intros ->. Qed.

Lemma search_p10_skip c l :
  ascii_eqb c "e" = false → ascii_eqb c "E" = false →
  search_p10 (c :: l) = search_p10 l.
Proof. simpl. by intros -> ->. Qed.

Lemma search_sig_figs_digits l :
  Forall (λ x, is_digit x = true) l → search_sig_figs l = None.
Proof.
  induction 1 as [|c l Hc _ IH]; [done|].
  rewrite search_sig_figs_skip; [done|by apply digit_cases].
Qed.

Lemma exponent_no_dot expo p :
  exponent_part expo p → search_sig_figs expo = None.
Proof.
  destruct 1 as [|? ? ? [-> | ->] H|? ? ? [-> | ->] H|? ? ? [-> | ->] H];
    try done; rewrite !search_sig_figs_skip by done;
    by apply search_sig_figs_digits.
Qed.

Lemma exponent_search expo p :
  exponent_part expo p →
  match search_p10 expo with
  | None => Ok 0
  | Some g => py_int_str (string_of_list_ascii g)
  end = Ok p.
Proof.
  assert (Hrun : ∀ d ds, Forall (λ x, is_digit x = true) (d :: ds) →
                         strip (d :: ds) = d :: ds
                         ∧ strip ("+"%char :: d :: ds) = "+"%char :: d :: ds
                         ∧ strip ("-"%char :: d :: ds) = "-"%char :: d :: ds).
  { intros d ds H.
    assert (Hns : Forall (λ x, is_space x = false) (d :: ds)).
    { eapply Forall_impl; [exact H|]. intros x Hx. by apply digit_cases. }
    assert (Hstrip : ∀ l, Forall (λ x, is_space x = false) l → strip l = l).
    { intros l Hl. unfold strip.
      assert (Hls : ∀ k, Forall (λ x, is_space x = false) k → lstrip k = k).
      { intros k [|x k' Hx _]; simpl; [done|by rewrite Hx]. }
      rewrite (Hls l Hl), Hls, rev_involutive; [done|].
      by apply Forall_rev. }
    split_and!; apply Hstrip; [done|by constructor..]. }
  destruct 1 as [|c d ds Hc H|c d ds Hc H|c d ds Hc H]; [done|..].
  all: destruct (Hrun d ds H) as (Hs0 & Hs1 & Hs2).
  all: pose proof (digits_prefix_all _ H) as Hpre.
  all: pose proof (digit_run_all _ H) as Hdr.
  all: assert (Hd : is_digit d = true) by (by inversion H).
  all: destruct (digit_cases d Hd) as (_ & _ & _ & _ & _ & Hsg).
  all: assert (He : ascii_eqb c "e" || ascii_eqb c "E" = true)
         by (by destruct Hc as [-> | ->]).
  all: cbn [search_p10]; rewrite He.
  - unfold match_signed_digits. rewrite Hsg, Hpre.
    unfold py_int_str, chars.
    rewrite list_ascii_of_string_of_list_ascii, Hs0.
    unfold read_sign. unfold is_sign in Hsg.
    apply orb_false_iff in Hsg as [-> ->]. by rewrite Hdr.
  - unfold match_signed_digits.
    change (is_sign "+") with true. cbv iota. rewrite Hpre.
    unfold py_int_str, chars.
    rewrite list_ascii_of_string_of_list_ascii, Hs1.
    unfold read_sign. change (ascii_eqb "+" "-") with false.
    change (ascii_eqb "+" "+") with true. cbv iota. by rewrite Hdr.
  - unfold match_signed_digits.
    change (is_sign "-") with true. cbv iota. rewrite Hpre.
    unfold py_int_str, chars.
    rewrite list_ascii_of_string_of_list_ascii, Hs2.
    unfold read_sign. change (ascii_eqb "-" "-") with true.
    cbv iota. by rewrite Hdr.
Qed.

Lemma sig_prefix_eq c l :
  sig_prefix (c :: l)
  = if is_digit c then
      match sig_prefix l with
      | [] => if is_nonzero_digit c then [c] else []
      | g => c :: g
      end
    else [].
Proof. done. Qed.

Lemma sig_prefix_zeros zs expo p :
  Forall (λ x, x = "0"%char) zs → exponent_part expo p →
  sig_prefix (zs ++ expo) = [].
Proof.
  intros Hz He. induction Hz as [|c zs -> _ IH]; simpl app.
  - pose proof (exponent_head_not_digit _ _ He) as Hh.
    destruct expo as [|c expo]; [done|]. by rewrite sig_prefix_eq, Hh.
  - by rewrite sig_prefix_eq, IH.
Qed.

Lemma sig_prefix_fraction f d zs expo p :
  Forall (λ x, is_digit x = true) f → is_nonzero_digit d = true →
  Forall (λ x, x = "0"%char) zs → exponent_part expo p →
  sig_prefix (f ++ d :: zs ++ expo) = f ++ [d].
Proof.
  intros Hf Hd Hz He. induction Hf as [|c f Hc _ IH]; simpl app.
  - by rewrite sig_prefix_eq, (nonzero_is_digit _ Hd),
      (sig_prefix_zeros _ _ _ Hz He), Hd.
  - rewrite sig_prefix_eq, Hc, IH. by destruct f.
Qed.

Lemma search_p10_mantissa l rest :
  Forall (λ x, is_digit x = true ∨ x = "."%char) l →
  search_p10 (l ++ rest) = search_p10 rest.
Proof.
  induction 1 as [|c l Hc _ IH]; [done|]. simpl app.
  rewrite search_p10_skip; [done|..];
    destruct Hc as [Hc | ->]; try done; by apply digit_cases.
Qed.

Lemma search_sig_figs_mantissa ip rest :
  Forall (λ x, is_digit x = true) ip →
  search_sig_figs (ip ++ "."%char :: rest)
  = match sig_prefix rest with
    | [] => search_sig_figs rest
    | g => Some g
    end.
Proof.
  induction 1 as [|c l Hc _ IH]; [done|]. simpl app.
  rewrite search_sig_figs_skip; [done|by apply digit_cases].
Qed.

(** C6 (as stated, refuted): ["1.1000"] has four explicit fractional
    digits and no exponent, but its detected precision is 1, and the
    voltage converter emits it in V; ["1.1001"] goes to mV. *)
Lemma trailing_zeros_not_counted :
  spec_decimal_sig_figs "1.1000" = Ok 4
  ∧ _get_decimal_sig_figs "1.1000" = Ok 1
  ∧ _convert_volts "1.1000" = Ok ("1.100", "V")
  ∧ _convert_volts "1.1001" = Ok ("1100.100", "mV").
Proof. split_and!; vm_compute; reflexivity. Qed.

(** Comparison with a positive finite float is monotone in that float. *)
Lemma ltb_below (x : spec_float) (ma mb : positive) (ea eb : Z) :
  F64.ltb (S754_finite false ma ea) (S754_finite false mb eb) = true →
  F64.ltb x (S754_finite false ma ea) = true →
  F64.ltb x (S754_finite false mb eb) = true.
Proof.
  unfold F64.ltb, SFltb, SFcompare.
  destruct x as [sx|sx| |sx m e]; try destruct sx; try done.
  change (Pos.compare_cont Eq m ma) with (Pos.compare m ma).
  change (Pos.compare_cont Eq ma mb) with (Pos.compare ma mb).
  change (Pos.compare_cont Eq m mb) with (Pos.compare m mb).
  destruct (Z.compare_spec ea eb), (Z.compare_spec e ea),
    (Z.compare_spec e eb); try done; try lia.
  all: destruct (Pos.compare_spec ma mb), (Pos.compare_spec m ma),
    (Pos.compare_spec m mb); try done; lia.
Qed.

Lemma thresholds_ordered (x : spec_float) :
  (F64.ltb x f1em9 = true → F64.ltb x f1em6 = true)
  ∧ (F64.ltb x f1em6 = true → F64.ltb x f1em3 = true)
  ∧ (F64.ltb x f1em3 = true → F64.ltb x f1 = true)
  ∧ (F64.ltb x f1 = true → F64.ltb x f1e3 = true)
  ∧ (F64.ltb x f1e3 = true → F64.ltb x f1e6 = true).
Proof.
  split_and!; apply ltb_below; vm_compute; reflexivity.
Qed.

(** The converters pick the unit the step-down rule picks. *)
Lemma converters_follow_ladder (val_str : string) (sig_figs : Z)
    (num : spec_float) :
  _get_decimal_sig_figs val_str = Ok sig_figs →
  py_float val_str = Ok num →
  _convert_volts val_str = Ok (spec_volts num sig_figs)
  ∧ _convert_amps val_str = Ok (spec_amps num sig_figs)
  ∧ _convert_watts val_str = Ok (spec_watts num sig_figs)
  ∧ _convert_ohms val_str = Ok (spec_ohms num sig_figs).
Proof.
  intros Hsf Hnum.
  unfold _convert_volts, _convert_amps, _convert_watts, _convert_ohms.
  rewrite Hsf, Hnum.
  unfold spec_volts, spec_amps, spec_watts, spec_ohms.
  cbv [mbind result_bind spec_ladder rescales render unit_label unit_size
       unit_digits to_unit base milli micro nano pico kilo mega].
  change (0 + 3) with 3. change (3 + 3) with 6. change (6 + 3) with 9.
  change (9 + 3) with 12. change (-3 + 3) with 0. change (-6 + 3) with (-3).
  destruct (thresholds_ordered num) as (H96 & H63 & H30 & H03 & H36).
  destruct (F64.ltb num f1em9) eqn:E9; [rewrite (H96 eq_refl) in *|];
    (destruct (F64.ltb num f1em6) eqn:E6; [rewrite (H63 eq_refl) in *|]);
    (destruct (F64.ltb num f1em3) eqn:E3; [rewrite (H30 eq_refl) in *|]);
    (destruct (F64.ltb num f1) eqn:E0; [rewrite (H03 eq_refl) in *|]);
    (destruct (F64.ltb num f1e3) eqn:Ek; [rewrite (H36 eq_refl) in *|]);
    destruct (F64.ltb num f1e6) eqn:EM; try discriminate.
  all: cbn [orb].
  all: destruct (12 <? sig_figs) eqn:S12, (9 <? sig_figs) eqn:S9,
         (6 <? sig_figs) eqn:S6, (3 <? sig_figs) eqn:S3,
         (0 <? sig_figs) eqn:S0, (-3 <? sig_figs) eqn:SM; try lia.
  all: done.
Qed.

(** C6 (amended): for a decimal string made of integer digits, a point,
    fractional digits [fr] that end in a non-zero digit (or none), further
    zeros [zs] and an optional exponent of value [p], the detected
    precision is [length fr - p]: trailing zeros are not counted. With that
    precision every magnitude converter answers in the unit the step-down
    rule reaches: from the largest unit, rescale to the next smaller unit
    exactly when the value is below 1 in the current unit or the precision
    exceeds 3 digits at the current scale. *)
Theorem decimal_precision ip fr zs expo (p : Z) :
  Forall (λ x, is_digit x = true) ip →
  significant_fraction fr →
  Forall (λ x, x = "0"%char) zs →
  exponent_part expo p →
  let val_str := string_of_list_ascii (ip ++ "."%char :: fr ++ zs ++ expo) in
  let sig_figs := Z.of_nat (length fr) - p in
  _get_decimal_sig_figs val_str = Ok sig_figs
  ∧ ∀ num, py_float val_str = Ok num →
      _convert_volts val_str = Ok (spec_volts num sig_figs)
      ∧ _convert_amps val_str = Ok (spec_amps num sig_figs)
      ∧ _convert_watts val_str = Ok (spec_watts num sig_figs)
      ∧ _convert_ohms val_str = Ok (spec_ohms num sig_figs).
Proof.
  intros Hip [Hfr Hlast] Hzs Hexpo val_str sig_figs.
  assert (Hsf : _get_decimal_sig_figs val_str = Ok sig_figs).
  { unfold _get_decimal_sig_figs, val_str, chars.
    rewrite list_ascii_of_string_of_list_ascii.
    replace (ip ++ "."%char :: fr ++ zs ++ expo)
      with ((ip ++ "."%char :: fr ++ zs) ++ expo)
      by (by rewrite <- !app_assoc, <- app_comm_cons, <- app_assoc).
    rewrite search_p10_mantissa.
    2:{ apply Forall_app. split; [by eapply Forall_impl; [exact Hip|auto]|].
        constructor; [by right|]. apply Forall_app. split.
        - by eapply Forall_impl; [exact Hfr|auto].
        - eapply Forall_impl; [exact Hzs|]. intros ? ->. by left. }
    rewrite (exponent_search _ _ Hexpo). simpl.
    rewrite <- !app_assoc, <- app_comm_cons, <- app_assoc.
    rewrite (search_sig_figs_mantissa _ _ Hip).
    destruct Hlast as [-> | (f & d & -> & Hd)].
    - simpl app. rewrite (sig_prefix_zeros _ _ _ Hzs Hexpo).
      assert (search_sig_figs (zs ++ expo) = None) as ->; [|done].
      clear -Hzs Hexpo. induction Hzs as [|c zs -> _ IH]; simpl app.
      + by eapply exponent_no_dot.
      + by rewrite search_sig_figs_skip.
    - apply Forall_app in Hfr as [Hf _].
      rewrite <- app_assoc. simpl app.
      rewrite (sig_prefix_fraction _ _ _ _ _ Hf Hd Hzs Hexpo).
      destruct f; simpl; done. }
  split; [done|].
  intros num Hnum. by apply converters_follow_ladder.
Qed.

End Precision.

(** ** Synthesized loop records *)

Lemma create_loop_seq_fields (blank_seq : seq_t)
    (seq_num seq_num_to_loop_to num_loops : Z) :
  let r := _create_loop_seq blank_seq seq_num seq_num_to_loop_to num_loops in
  r !! "Ns" = Some (VInt seq_num)
  ∧ r !! "type" = Some (VStr "Loop")
  ∧ r !! "loop_repeat" = Some (VInt num_loops)
  ∧ r !! "ctrl_seq" = Some (VInt seq_num).
Proof.
  unfold _create_loop_seq. simpl. split_and!;
    rewrite ?lookup_insert_ne by done; by rewrite lookup_insert_eq.
Qed.

(** C1 (the code at the failing input): on Do / Rest / AdvCycle /
    Loop x5 / End the generation pass appends one Loop record with
    [loop_repeat] 5, but its [ctrl_seq] is 1, the record's own index,
    where the loop's first record has index 0; whatever its arguments,
    [_create_loop_seq] stores [seq_num] in [ctrl_seq] and ignores
    [seq_num_to_loop_to]. *)
Theorem native_loop_record_targets_itself :
  fields ["Ns"; "type"; "loop_repeat"; "ctrl_seq"]
    (_create_biologic_seqs_from_maccor_ast ∅ native_loop_procedure)
  = Ok [ [Some (VInt 0); Some (VStr "Rest"); None; None];
         [Some (VInt 1); Some (VStr "Loop"); Some (VInt 5); Some (VInt 1)] ]
  ∧ ∀ blank_seq seq_num seq_num_to_loop_to num_loops,
      _create_loop_seq blank_seq seq_num seq_num_to_loop_to num_loops
        !! "ctrl_seq"
      = Some (VInt seq_num).
Proof.
  split; [vm_compute; reflexivity|].
  intros. apply create_loop_seq_fields.
Qed.

(** C2 (the code at the failing input): on Rest / AdvCycle / Rest / End
    both records of the advance-cycle pair have [ctrl_seq] equal to their
    own [Ns] (1 and 2), so the control target is not strictly below the
    record's index; the same holds for every pair
    [_create_advance_cyle_seqs] returns. *)
Theorem loop_control_target_equals_index :
  fields ["Ns"; "type"; "ctrl_seq"]
    (_create_biologic_seqs_from_maccor_ast ∅ adv_cycle_procedure)
  = Ok [ [Some (VInt 0); Some (VStr "Rest"); None];
         [Some (VInt 1); Some (VStr "Loop"); Some (VInt 1)];
         [Some (VInt 2); Some (VStr "Loop"); Some (VInt 2)];
         [Some (VInt 3); Some (VStr "Rest"); None] ]
  ∧ ∀ blank_seq seq_num,
      match _create_advance_cyle_seqs blank_seq seq_num with
      | Ok (blank_loop_seq, adv_cycle_loop_seq) =>
          blank_loop_seq !! "ctrl_seq" = blank_loop_seq !! "Ns"
          ∧ adv_cycle_loop_seq !! "ctrl_seq" = adv_cycle_loop_seq !! "Ns"
      | Err _ => seq_num = 0
      end.
Proof.
  split; [vm_compute; reflexivity|].
  intros blank_seq seq_num. unfold _create_advance_cyle_seqs.
  destruct (seq_num =? 0) eqn:E; [by apply Z.eqb_eq|].
  split.
  - destruct (create_loop_seq_fields blank_seq seq_num 0 0)
      as (-> & _ & _ & ->). done.
  - destruct (create_loop_seq_fields blank_seq (seq_num + 1) seq_num 1)
      as (-> & _ & _ & ->). done.
Qed.

(** ** Goto action: counterexample and instances *)

(** C5 (as stated, refuted): in Rest (goto step 3) / Do / Rest / Rest /
    Loop x1 / End the first record has index 0 and its limit goes to
    sequence 1, the sequence that follows it, yet its action is
    ["Goto sequence"]. *)
Lemma goto_action_set_for_next_sequence :
  fields ["Ns"; "lim1_seq"; "lim1_action"]
    (_create_biologic_seqs_from_maccor_ast ∅ goto_over_do_procedure)
  = Ok [ [Some (VInt 0); Some (VInt 1); Some (VStr "Goto sequence")];
         [Some (VInt 1); Some (VInt 2); None];
         [Some (VInt 2); Some (VInt 3); None];
         [Some (VInt 3); Some (VInt 4); None];
         [Some (VInt 4); Some (VInt 5); None] ].
Proof. vm_compute. reflexivity. Qed.

Lemma goto_action_by_step_number_witness :
  _proc_step_to_seq ∅ (rest_step "002") 1 single_step_map 0 2
  = Ok sample_rest_record
  ∧ as_list (Ends (rest_step "002")) !! 0%nat
    = Some {| EndType := "StepTime"; Oper := "="; Value := "00:00:10";
              Step := "002" |}
  ∧ ∃ goto_step_num goto_seq,
      py_int_str "002" = Ok goto_step_num
      ∧ single_step_map !! goto_step_num = Some goto_seq
      ∧ sample_rest_record !! lim_key 1 "_seq" = Some (VInt goto_seq)
      ∧ (goto_step_num ≠ 1 + 1 →
         sample_rest_record !! lim_key 1 "_action"
         = Some (VStr "Goto sequence"))
      ∧ (goto_step_num = 1 + 1 →
         sample_rest_record !! lim_key 1 "_action"
         = (∅ : seq_t) !! lim_key 1 "_action").
Proof.
  assert (H1 : _proc_step_to_seq ∅ (rest_step "002") 1 single_step_map 0 2
               = Ok sample_rest_record) by (vm_compute; reflexivity).
  split; [exact H1|]. split; [reflexivity|].
  exact (goto_action_by_step_number ∅ (rest_step "002") 1 single_step_map
           0 2 sample_rest_record 0 _ H1 eq_refl).
Defined.

(** What one iteration of the loop over the end-conditions does for an
    end-condition whose goto is in range: it accepts the supported
    operator/kind combinations, and says how it fails on the others. *)
Lemma proc_end_entry_outcome (step_num : Z) (by_step : gmap Z Z) (lb ub : Z)
    (idx : nat) (e : EndEntry) (s : seq_t) (g gs : Z) :
  py_int_str (Step e) = Ok g → lb ≤ g ≤ ub → by_step !! g = Some gs →
  (∀ comp kind v u,
     accepted_end_condition e comp → limit_slot e kind v u →
     ∃ s', proc_end_entry step_num by_step lb ub idx e s = Ok s'
           ∧ s' !! lim_key (idx + 1) "_comp" = Some (VStr comp))
  ∧ (EndType e = "StepTime" → Oper e ≠ "=" →
     proc_end_entry step_num by_step lb ub idx e s
     = Err (Exception "Unsupported StepTime operator in EndEntry"))
  ∧ (EndType e = "Voltage" ∨ EndType e = "Current" →
     Oper e ≠ ">=" → Oper e ≠ "<=" →
     proc_end_entry step_num by_step lb ub idx e s = Err KeyError)
  ∧ (EndType e ≠ "StepTime" → EndType e ≠ "Voltage" →
     EndType e ≠ "Current" →
     proc_end_entry step_num by_step lb ub idx e s
     = Err (Exception "Unsupported EndType")).
Proof.
  intros Hg Hb Hmap. unfold proc_end_entry. rewrite Hg. simpl.
  assert ((g <? lb) || (ub <? g) = false) as ->.
  { apply orb_false_iff. split; apply Z.ltb_ge; lia. }
  rewrite Hmap.
  assert (Hmiss : ∀ oper, oper ≠ ">=" → oper ≠ "<=" →
                          getitem operator_map oper = Err KeyError).
  { intros oper H1 H2. unfold getitem, operator_map.
    by rewrite !lookup_insert_ne, lookup_empty. }
  split_and!.
  - intros comp kind v u Hacc Hslot.
    destruct Hacc as [(Ht & Ho & ->)|(Ht & Ho)].
    + destruct Hslot as [(_ & _ & Hv)|[(Ht' & _)|(Ht' & _)]];
        try congruence.
      rewrite Ht, Ho, Hv. simpl.
      destruct (negb (g =? step_num + 1)); simpl;
        eexists; (split; [reflexivity|]); lim_lookup; done.
    + destruct Hslot as [(Ht' & _)|[(Ht' & _ & Hv)|(Ht' & _ & Hv)]];
        [destruct Ht; congruence|..];
        rewrite Ht'; simpl; rewrite Hv;
        (destruct Ho as [[-> ->]|[-> ->]]); simpl;
        (destruct (negb (g =? step_num + 1))); simpl;
        eexists; (split; [reflexivity|]); lim_lookup; done.
  - intros Ht Ho. rewrite Ht. simpl.
    apply String.eqb_neq in Ho. unfold streq. by rewrite Ho.
  - intros Ht H1 H2.
    destruct Ht as [-> | ->]; simpl; by rewrite (Hmiss _ H1 H2).
  - intros H1 H2 H3. unfold streq.
    apply String.eqb_neq in H1, H2, H3. by rewrite H1, H2, H3.
Qed.

(** C7 (the code at the failing input): a charge step whose end-condition
    is [Voltage] with the operator ["="] is not refused with the
    exception the step compiler has for an unsupported operator: the
    lookup [operator_map[end_oper]] raises [KeyError] first, in the step
    compiler and so in the conversion. The rest of the claim holds.
    [Voltage] with [">="], [Current] with ["<="] and [StepTime] with ["="]
    are compiled to [">"], ["<"] and [">"]. Every record the step compiler
    returns holds in [lim(i+1)_comp] the operator [">"] for [StepTime]
    with ["="] and [">"] or ["<"] for [Voltage] or [Current] with [">="]
    or ["<="], never ["="]. An end-condition whose goto is in range is
    accepted when its combination is one of these and its value converts;
    otherwise the iteration raises: the exception for an unsupported
    [StepTime] operator, [KeyError] for [Voltage] or [Current] with
    another operator, the exception for an unsupported kind. *)
Theorem end_condition_operators :
  _proc_step_to_seq ∅ (end_entry_step "Voltage" "=" "4.2") 1
    single_step_map 0 2 = Err KeyError
  ∧ _create_biologic_seqs_from_maccor_ast ∅
      [end_entry_step "Voltage" "=" "4.2"; control_step "End"]
    = Err KeyError
  ∧ field "lim1_comp"
      (_proc_step_to_seq ∅ (end_entry_step "Voltage" ">=" "4.2") 1
         single_step_map 0 2) = Ok (Some (VStr ">"))
  ∧ field "lim1_comp"
      (_proc_step_to_seq ∅ (end_entry_step "Current" "<=" "0.05") 1
         single_step_map 0 2) = Ok (Some (VStr "<"))
  ∧ field "lim1_comp"
      (_proc_step_to_seq ∅ (end_entry_step "StepTime" "=" "00:00:10") 1
         single_step_map 0 2) = Ok (Some (VStr ">"))
  ∧ (∀ blank_seq step step_num by_step lb ub i e s,
       as_list (Ends step) !! i = Some e →
       _proc_step_to_seq blank_seq step step_num by_step lb ub = Ok s →
       ∃ comp, s !! lim_key (i + 1) "_comp" = Some (VStr comp)
               ∧ accepted_end_condition e comp
               ∧ comp ≠ "=")
  ∧ (∀ step_num by_step lb ub idx e s g gs,
       py_int_str (Step e) = Ok g → lb ≤ g ≤ ub → by_step !! g = Some gs →
       (∀ comp kind v u,
          accepted_end_condition e comp → limit_slot e kind v u →
          ∃ s', proc_end_entry step_num by_step lb ub idx e s = Ok s'
                ∧ s' !! lim_key (idx + 1) "_comp" = Some (VStr comp))
       ∧ (EndType e = "StepTime" → Oper e ≠ "=" →
          proc_end_entry step_num by_step lb ub idx e s
          = Err (Exception "Unsupported StepTime operator in EndEntry"))
       ∧ (EndType e = "Voltage" ∨ EndType e = "Current" →
          Oper e ≠ ">=" → Oper e ≠ "<=" →
          proc_end_entry step_num by_step lb ub idx e s = Err KeyError)
       ∧ (EndType e ≠ "StepTime" → EndType e ≠ "Voltage" →
          EndType e ≠ "Current" →
          proc_end_entry step_num by_step lb ub idx e s
          = Err (Exception "Unsupported EndType"))).
Proof.
  split_and!.
  - vm_compute; reflexivity.
  - vm_compute; reflexivity.
  - vm_compute; reflexivity.
  - vm_compute; reflexivity.
  - vm_compute; reflexivity.
  - intros blank_seq step step_num by_step lb ub i e s Hi Hs.
    destruct (proc_step_limit_slot _ _ _ _ _ _ _ _ _ Hs Hi)
      as (_ & _ & comp & _ & _ & Hacc & Hc & _).
    exists comp. split_and!; [done..|].
    destruct Hacc as [(_ & _ & ->)|(_ & [[_ ->]|[_ ->]])]; discriminate.
  - intros step_num by_step lb ub idx e s g gs Hg Hb Hmap.
    exact (proc_end_entry_outcome _ _ _ _ _ _ _ _ _ Hg Hb Hmap).
Qed.

(** ** Instances of the general theorems *)

Lemma sizing_count_matches_generation_witness :
  sizing_pass native_loop_procedure = Ok (native_loop_sizing, 2)
  ∧ generation_pass ∅ native_loop_procedure native_loop_sizing
    = Ok native_loop_records
  ∧ Z.of_nat (length native_loop_records) = 2
  ∧ 2 = curr_seq_num native_loop_sizing
  ∧ _create_biologic_seqs_from_maccor_ast ∅ native_loop_procedure
    = Ok native_loop_records.
Proof.
  assert (H1 : sizing_pass native_loop_procedure
               = Ok (native_loop_sizing, 2)) by (vm_compute; reflexivity).
  assert (H2 : generation_pass ∅ native_loop_procedure native_loop_sizing
               = Ok native_loop_records) by (vm_compute; reflexivity).
  split; [exact H1|]. split; [exact H2|].
  exact (sizing_count_matches_generation ∅ native_loop_procedure
           native_loop_sizing 2 native_loop_records H1 H2).
Defined.

Lemma loop_record_has_indices (blank_seq : seq_t) (a b c : Z) :
  has_indices (_create_loop_seq blank_seq a b c).
Proof.
  intros k Hk. unfold index_fields in Hk. unfold int_field, _create_loop_seq.
  apply elem_of_cons in Hk as [->|Hk];
    [|apply elem_of_cons in Hk as [->|Hk];
      [|apply elem_of_cons in Hk as [->|Hk];
        [|apply list_elem_of_singleton in Hk as ->]]];
    eexists; rewrite ?lookup_insert_ne by done; by rewrite lookup_insert_eq.
Defined.

Lemma unroll_loop_shifts_witness :
  let loop := [_create_loop_seq ∅ 1 1 3; _create_loop_seq ∅ 2 1 0] in
  0 ≤ 2
  ∧ Forall has_indices loop
  ∧ ∃ unrolled,
      _unroll_loop loop 2 1 3 = Ok unrolled
      ∧ length unrolled = (length loop * (Z.to_nat 2 + 1))%nat
      ∧ (∀ k r, loop !! k = Some r → unrolled !! k = Some r)
      ∧ (∀ i k r, (1 ≤ i ≤ Z.to_nat 2)%nat → loop !! k = Some r →
           ∃ r', unrolled !! (i * length loop + k)%nat = Some r'
                 ∧ copy_of (Z.of_nat (i * length loop)) 1 3 r r').
Proof.
  intros loop.
  assert (H0 : 0 ≤ 2) by lia.
  assert (Hwf : Forall has_indices loop).
  { repeat constructor; apply loop_record_has_indices. }
  split; [exact H0|]. split; [exact Hwf|].
  exact (unroll_loop_shifts loop 2 1 3 H0 Hwf).
Defined.

Lemma decimal_precision_witness :
  let ip := ["1"%char] in
  let fr := ["1"%char] in
  let zs := ["0"%char; "0"%char; "0"%char] in
  Forall (λ x, is_digit x = true) ip
  ∧ significant_fraction fr
  ∧ Forall (λ x, x = "0"%char) zs
  ∧ exponent_part [] 0
  ∧ _get_decimal_sig_figs "1.1000" = Ok (1 - 0)
  ∧ ∀ num, py_float "1.1000" = Ok num →
      _convert_volts "1.1000" = Ok (spec_volts num (1 - 0))
      ∧ _convert_amps "1.1000" = Ok (spec_amps num (1 - 0))
      ∧ _convert_watts "1.1000" = Ok (spec_watts num (1 - 0))
      ∧ _convert_ohms "1.1000" = Ok (spec_ohms num (1 - 0)).
Proof.
  intros ip fr zs.
  assert (H1 : Forall (λ x, is_digit x = true) ip)
    by (repeat constructor).
  assert (H2 : significant_fraction fr).
  { split; [repeat constructor|]. right. by exists [], "1"%char. }
  assert (H3 : Forall (λ x, x = "0"%char) zs) by (repeat constructor).
  split; [exact H1|]. split; [exact H2|]. split; [exact H3|].
  split; [exact exponent_none|].
  exact (decimal_precision ip fr zs [] 0 H1 H2 H3 exponent_none).
Defined.

(** * Further properties of the step compiler *)

Lemma for_enumerate_elem {A St} (body : nat → A → St → result St)
    (l : list A) (i0 : nat) (s s' : St) (i : nat) (x : A) :
  for_enumerate body i0 l s = Ok s' → l !! i = Some x →
  ∃ a a', body (i0 + i)%nat x a = Ok a'.
Proof.
  revert i0 s i. induction l as [|y l IH]; intros i0 s i H Hi; [done|].
  simpl in H. apply bind_Ok in H as (s1 & H1 & H).
  destruct i as [|i]; simpl in Hi.
  - injection Hi as ->. rewrite Nat.add_0_r. eauto.
  - destruct (IH _ _ _ H Hi) as (a & a' & Ha).
    exists a, a'. by replace (i0 + S i)%nat with (S i0 + i)%nat by lia.
Qed.

Lemma rec_key_sfx_inj (n : nat) (a b : string) :
  rec_key n a = rec_key n b → a = b.
Proof.
  unfold rec_key. intros H.
  apply (inj (String.app "rec")) in H.
  by apply (inj (String.app (str_of_nat n))) in H.
Qed.

Lemma rec_key_idx_ne (n m : nat) (a b : string) :
  n ≠ m → (n ≤ 3)%nat → (m ≤ 3)%nat → rec_key n a ≠ rec_key m b.
Proof.
  intros Hne Hn Hm.
  destruct n as [|[|[|[|n]]]]; [| | | |lia];
    (destruct m as [|[|[|[|m]]]]; [| | | |lia]);
    try done; unfold rec_key; simpl; discriminate.
Qed.

Ltac rec_lookup :=
  repeat
    (first
       [ rewrite lookup_insert_eq
       | rewrite lookup_insert_ne
           by (first [ intros ?%rec_key_sfx_inj; discriminate
                     | done
                     | auto ]) ]).

Lemma proc_report_entry_inv (idx : nat) (r : ReportEntry) (s s' : seq_t) :
  proc_report_entry idx r s = Ok s' →
  ∃ kind value value_unit,
    report_slot r kind value value_unit
    ∧ s' !! rec_key (idx + 1) "_type" = Some (VStr kind)
    ∧ s' !! rec_key (idx + 1) "_value" = Some (VStr value)
    ∧ s' !! rec_key (idx + 1) "_value_unit" = Some (VStr value_unit)
    ∧ (∀ key, (∀ sfx, key ≠ rec_key (idx + 1) sfx) → s' !! key = s !! key).
Proof.
  unfold proc_report_entry. intros H. inv_ok H; injection H as <-.
  all: repeat match goal with
              | E : streq _ _ = true |- _ => apply streq_true in E
              end.
  all: eexists _, _, _; split_and!;
    [|rec_lookup; done..|intros key Hkey; rec_lookup; done].
  all: unfold report_slot;
    first [by left | by right; left | by right; right].
Qed.

Lemma report_entries_frame_bounded (l : list ReportEntry) (i0 : nat)
    (s s' : seq_t) (key : string) :
  for_enumerate proc_report_entry i0 l s = Ok s' →
  (∀ j sfx, (i0 ≤ j < i0 + length l)%nat → key ≠ rec_key (j + 1) sfx) →
  s' !! key = s !! key.
Proof.
  revert i0 s. induction l as [|r l IH]; intros i0 s H Hkey; simpl in H.
  - by simplify_eq.
  - apply bind_Ok in H as (s1 & H1 & H).
    rewrite (IH _ _ H) by (intros j sfx Hj; apply Hkey; simpl; lia).
    apply proc_report_entry_inv in H1 as (? & ? & ? & _ & _ & _ & _ & Hfr).
    apply Hfr. intros sfx. apply Hkey. simpl. lia.
Qed.

Lemma report_entries_inv (l : list ReportEntry) (i0 : nat) (s s' : seq_t)
    (i : nat) (r : ReportEntry) :
  for_enumerate proc_report_entry i0 l s = Ok s' →
  (i0 + length l ≤ 3)%nat →
  l !! i = Some r →
  ∃ kind value value_unit,
    report_slot r kind value value_unit
    ∧ s' !! rec_key (i0 + i + 1) "_type" = Some (VStr kind)
    ∧ s' !! rec_key (i0 + i + 1) "_value" = Some (VStr value)
    ∧ s' !! rec_key (i0 + i + 1) "_value_unit" = Some (VStr value_unit).
Proof.
  revert i0 s i. induction l as [|r0 l IH]; intros i0 s i H Hlen Hi; [done|].
  simpl in H, Hlen. apply bind_Ok in H as (s1 & H1 & H).
  destruct i as [|i]; simpl in Hi.
  - injection Hi as ->. rewrite Nat.add_0_r.
    apply proc_report_entry_inv in H1
      as (kind & value & value_unit & ? & Ht & Hv & Hu & _).
    exists kind, value, value_unit.
    rewrite !(report_entries_frame_bounded _ _ _ _ _ H); [done|..];
      intros j sfx Hj; apply rec_key_idx_ne; lia.
  - destruct (IH (S i0) s1 i H ltac:(lia) Hi)
      as (kind & value & value_unit & ? & Ht & Hv & Hu).
    exists kind, value, value_unit.
    by replace (i0 + S i + 1)%nat with (S i0 + i + 1)%nat by lia.
Qed.

Lemma proc_end_entry_bounds (step_num : Z) (by_step : gmap Z Z) (lb ub : Z)
    (idx : nat) (e : EndEntry) (s s' : seq_t) :
  proc_end_entry step_num by_step lb ub idx e s = Ok s' →
  ∃ goto_step_num,
    py_int_str (Step e) = Ok goto_step_num
    ∧ lb ≤ goto_step_num ≤ ub
    ∧ is_Some (by_step !! goto_step_num).
Proof.
  unfold proc_end_entry. intros H.
  apply bind_Ok in H as (goto_step & Hgoto & H).
  destruct (_ || _) eqn:Hb; [discriminate|].
  destruct (by_step !! goto_step) as [goto_seq|] eqn:Hseq; [|discriminate].
  apply orb_false_iff in Hb as [H1 H2].
  apply Z.ltb_ge in H1, H2. exists goto_step. split_and!; eauto.
Qed.

Section StepCompilerMore.

Variable blank_seq : seq_t.

(** X1: when the step compiler returns a record, the goto of every
    end-condition of the step parses as an integer step number that lies
    in [[goto_lower_bound, end_step_num]] and has an entry in the
    step-to-sequence map; a goto outside these bounds is never compiled. *)
Theorem goto_targets_within_bounds (step : TestStep) (step_num : Z)
    (by_step : gmap Z Z) (lb ub : Z) (s : seq_t) (i : nat) (e : EndEntry) :
  _proc_step_to_seq blank_seq step step_num by_step lb ub = Ok s →
  as_list (Ends step) !! i = Some e →
  ∃ goto_step_num,
    py_int_str (Step e) = Ok goto_step_num
    ∧ lb ≤ goto_step_num ≤ ub
    ∧ is_Some (by_step !! goto_step_num).
Proof.
  unfold _proc_step_to_seq. intros H Hi. inv_ok H.
  match goal with
  | E : for_enumerate (proc_end_entry _ _ _ _) _ _ _ = Ok _ |- _ =>
      destruct (for_enumerate_elem _ _ _ _ _ _ _ E Hi) as (a & a' & Ha)
  end.
  by eapply proc_end_entry_bounds.
Qed.

(** X2: a compiled record carries the sequence index the map gives for its
    step in [Ns], the number of end-conditions in [lim_nb] and the number
    of report triggers in [rec_nb], both at most 3 (a step with more of
    either is never compiled), and every limit slot beyond the step's
    end-conditions still points to the next sequence, [Ns + 1]. *)
Theorem compiled_record_header (step : TestStep) (step_num : Z)
    (by_step : gmap Z Z) (lb ub : Z) (s : seq_t) :
  _proc_step_to_seq blank_seq step step_num by_step lb ub = Ok s →
  ∃ seq_num,
    by_step !! step_num = Some seq_num
    ∧ s !! "Ns" = Some (VInt seq_num)
    ∧ (length (as_list (Ends step)) ≤ 3)%nat
    ∧ (length (as_list (Reports step)) ≤ 3)%nat
    ∧ s !! "lim_nb" = Some (VInt (Z.of_nat (length (as_list (Ends step)))))
    ∧ s !! "rec_nb"
      = Some (VInt (Z.of_nat (length (as_list (Reports step)))))
    ∧ ∀ j, (length (as_list (Ends step)) < j ≤ 3)%nat →
           s !! lim_key j "_seq" = Some (VInt (seq_num + 1)).
Proof.
  unfold _proc_step_to_seq. intros H. inv_ok H.
  repeat match goal with
         | E : (3 <? _)%nat = false |- _ => apply Nat.ltb_ge in E
         end.
  match goal with
  | E : getitem by_step step_num = Ok ?x |- _ =>
      unfold getitem in E;
      destruct (by_step !! step_num) as [seq_num|] eqn:Hseq;
      [injection E as <-|discriminate E]
  end.
  match goal with
  | E : for_enumerate (proc_end_entry _ _ _ _) _ _ _ = Ok _ |- _ =>
      rename E into Hends
  end.
  match goal with
  | E : proc_control _ _ = Ok _ |- _ => rename E into Hctl
  end.
  exists seq_num. split_and!; [done| |done|done| | |].
  - rewrite (report_entries_frame _ _ _ _ _ H)
      by (intros; unfold rec_key; simpl; discriminate).
    rewrite lookup_insert_ne by done.
    rewrite (end_entries_frame _ _ _ _ _ _ _ _ _ Hends)
      by (intros; unfold lim_key; simpl; discriminate).
    rewrite lookup_insert_ne by done.
    rewrite (proc_control_frame _ _ _ _ Hctl)
      by (rewrite !not_elem_of_cons; split_and!; try discriminate;
          apply not_elem_of_nil).
    rewrite !lookup_insert_ne by done. by rewrite lookup_insert_eq.
  - rewrite (report_entries_frame _ _ _ _ _ H)
      by (intros; unfold rec_key; simpl; discriminate).
    rewrite lookup_insert_ne by done.
    rewrite (end_entries_frame _ _ _ _ _ _ _ _ _ Hends).
    + by rewrite lookup_insert_eq.
    + intros j sfx Hj.
      destruct j as [|[|[|j]]]; [..|simpl in Hj; lia];
        unfold lim_key; simpl; discriminate.
  - rewrite (report_entries_frame_bounded _ _ _ _ _ H).
    + by rewrite lookup_insert_eq.
    + intros j sfx Hj.
      destruct j as [|[|[|j]]]; [..|simpl in Hj; lia];
        unfold rec_key; simpl; discriminate.
  - intros j Hj.
    rewrite (report_entries_frame _ _ _ _ _ H)
      by (intros n sfx Heq; symmetry in Heq;
          by apply rec_key_not_lim in Heq).
    rewrite lookup_insert_ne by (unfold lim_key; simpl; discriminate).
    rewrite (end_entries_frame _ _ _ _ _ _ _ _ _ Hends)
      by (intros k sfx Hk; apply lim_key_idx_ne; simpl in Hk; lia).
    assert (Hj3 : j = 1%nat ∨ j = 2%nat ∨ j = 3%nat) by lia.
    destruct Hj3 as [-> | [-> | ->]].
    all: rewrite lookup_insert_ne by (unfold lim_key; simpl; discriminate).
    all: rewrite (proc_control_frame _ _ _ _ Hctl)
      by (unfold lim_key; simpl; rewrite !not_elem_of_cons; split_and!;
          try discriminate; apply not_elem_of_nil).
    all: unfold lim_key; simpl.
    all: rewrite ?lookup_insert_ne by done; by rewrite lookup_insert_eq.
Qed.

End StepCompilerMore.

(** The match of [proc_control] on the step mode, as two equality tests. *)
Lemma step_mode_cases {A} (mode : option string) (a b c : A) :
  match mode with
  | Some "Current" => a
  | Some "Voltage" => b
  | _ => c
  end
  = if decide (mode = Some "Current") then a
    else if decide (mode = Some "Voltage") then b else c.
Proof.
  case_decide as H1; [by subst|]. case_decide as H2; [by subst|].
  destruct mode as [s|]; [|done].
  repeat (match goal with
          | |- context [match ?x with _ => _ end] => is_var x; destruct x
          end; try reflexivity); congruence.
Qed.

Lemma proc_control_inv (step : TestStep) (s s' : seq_t) :
  proc_control step s = Ok s' → control_fields step s'.
Proof.
  unfold proc_control, control_fields. cbv zeta. rewrite step_mode_cases.
  intros H.
  destruct (streq (StepType step) "Rest") eqn:Erest.
  { apply streq_true in Erest. injection H as <-. left.
    split_and!; [done|..];
      rewrite ?lookup_insert_ne by done; by rewrite lookup_insert_eq. }
  right.
  destruct (streq (StepType step) "Charge") eqn:Echarge;
    [|destruct (streq (StepType step) "Dischrge") eqn:Edis];
    simpl in H; try discriminate H.
  all: repeat match goal with
              | E : streq _ _ = true |- _ => apply streq_true in E
              end.
  all: repeat case_decide; try discriminate H.
  all: destruct (StepValue step) as [sv|]; [|discriminate H].
  all: destruct (_convert_amps sv) as [[v u]|] eqn:Hconv; [|discriminate H].
  all: injection H as <-.
  1-2: exists "Charge".
  3-4: exists "Discharge".
  all: eexists _, _, sv, v, u; split_and!;
    [eauto|eauto|done|done|..];
    rewrite ?lookup_insert_ne by done; by rewrite lookup_insert_eq.
Qed.

Lemma succeeds_Ok {A} (r : result A) (d : A) :
  succeeds r = true → r = Ok (match r with Ok a => a | Err _ => d end).
Proof. by destruct r. Qed.

Lemma proc_end_entry_values (step_num : Z) (by_step : gmap Z Z) (lb ub : Z)
    (idx : nat) (e : EndEntry) (s s' : seq_t) :
  proc_end_entry step_num by_step lb ub idx e s = Ok s' →
  ∃ kind value value_unit,
    limit_slot e kind value value_unit
    ∧ s' !! lim_key (idx + 1) "_type" = Some (VStr kind)
    ∧ s' !! lim_key (idx + 1) "_value" = Some (VStr value)
    ∧ s' !! lim_key (idx + 1) "_value_unit" = Some (VStr value_unit).
Proof.
  unfold proc_end_entry. intros H.
  apply bind_Ok in H as (goto_step & Hgoto & H).
  destruct (_ || _); [discriminate|].
  destruct (by_step !! goto_step) as [goto_seq|] eqn:Hseq; [|discriminate].
  inv_ok H.
  all: injection H as <-.
  all: repeat match goal with
              | E : streq _ _ = true |- _ => apply streq_true in E
              end.
  all: eexists _, _, _; split_and!; [|lim_lookup; done..].
  all: unfold limit_slot;
    first [by left | by right; left | by right; right].
Qed.

Lemma end_entries_values (step_num : Z) (by_step : gmap Z Z) (lb ub : Z)
    (l : list EndEntry) (i0 : nat) (s s' : seq_t) (i : nat) (e : EndEntry) :
  for_enumerate (proc_end_entry step_num by_step lb ub) i0 l s = Ok s' →
  (i0 + length l ≤ 3)%nat →
  l !! i = Some e →
  ∃ kind value value_unit,
    limit_slot e kind value value_unit
    ∧ s' !! lim_key (i0 + i + 1) "_type" = Some (VStr kind)
    ∧ s' !! lim_key (i0 + i + 1) "_value" = Some (VStr value)
    ∧ s' !! lim_key (i0 + i + 1) "_value_unit" = Some (VStr value_unit).
Proof.
  revert i0 s i. induction l as [|e0 l IH]; intros i0 s i H Hlen Hi; [done|].
  simpl in H, Hlen. apply bind_Ok in H as (s1 & H1 & H).
  destruct i as [|i]; simpl in Hi.
  - injection Hi as ->. rewrite Nat.add_0_r.
    apply proc_end_entry_values in H1
      as (kind & value & value_unit & ? & Ht & Hv & Hu).
    exists kind, value, value_unit.
    rewrite !(end_entries_frame _ _ _ _ _ _ _ _ _ H); [done|..];
      intros j sfx Hj; apply lim_key_idx_ne; lia.
  - destruct (IH (S i0) s1 i H ltac:(lia) Hi)
      as (kind & value & value_unit & ? & Ht & Hv & Hu).
    exists kind, value, value_unit.
    by replace (i0 + S i + 1)%nat with (S i0 + i + 1)%nat by lia.
Qed.

Section StepCompilerSlots.

Variable blank_seq : seq_t.

(** The stages of [_proc_step_to_seq]: the record after the control
    fields, after the end-conditions, and the returned one. *)
Lemma proc_step_stages (step : TestStep) (step_num : Z)
    (by_step : gmap Z Z) (lb ub : Z) (s : seq_t) :
  _proc_step_to_seq blank_seq step step_num by_step lb ub = Ok s →
  ∃ seq_num s0 s1 s2,
    by_step !! step_num = Some seq_num
    ∧ s0 = <["lim3_seq" := VInt (seq_num + 1)]>
             (<["lim2_seq" := VInt (seq_num + 1)]>
             (<["lim1_seq" := VInt (seq_num + 1)]>
             (<["Ns" := VInt seq_num]> blank_seq)))
    ∧ proc_control step s0 = Ok s1
    ∧ (length (as_list (Ends step)) ≤ 3)%nat
    ∧ for_enumerate (proc_end_entry step_num by_step lb ub) 0
        (as_list (Ends step))
        (<["lim_nb" := VInt (Z.of_nat (length (as_list (Ends step))))]> s1)
      = Ok s2
    ∧ (length (as_list (Reports step)) ≤ 3)%nat
    ∧ for_enumerate proc_report_entry 0 (as_list (Reports step))
        (<["rec_nb" := VInt (Z.of_nat (length (as_list (Reports step))))]> s2)
      = Ok s.
Proof.
  unfold _proc_step_to_seq. intros H. inv_ok H.
  repeat match goal with
         | E : (3 <? _)%nat = false |- _ => apply Nat.ltb_ge in E
         end.
  match goal with
  | E : getitem by_step step_num = Ok ?x |- _ =>
      unfold getitem in E;
      destruct (by_step !! step_num) as [seq_num|] eqn:Hseq;
      [injection E as <-|discriminate E]
  end.
  eexists _, _, _, _. split_and!; [done|reflexivity|eassumption|done|eassumption|done|done].
Qed.

(** X3: the control fields of a compiled record follow the step type and
    mode. A Rest step gives [type] Rest, [Apply I/C] "I", [N] "1.00" and
    [charge/discharge] Charge. A Charge or Dischrge step in Current
    (Voltage) mode gives [type] CC (CV), [Apply I/C] "C / N", [N] "15.00",
    [ctrl1_val_vs] "<None>" ("Ref") and the direction Charge or Discharge;
    [ctrl1_val] and [ctrl1_val_unit] are what [_convert_amps] returns for
    the step value, in Voltage mode too. The later stages of the step
    compiler leave these fields alone. *)
Theorem compiled_control_fields (step : TestStep) (step_num : Z)
    (by_step : gmap Z Z) (lb ub : Z) (s : seq_t) :
  _proc_step_to_seq blank_seq step step_num by_step lb ub = Ok s →
  control_fields step s.
Proof.
  intros H.
  destruct (proc_step_stages _ _ _ _ _ _ H)
    as (seq_num & s0 & s1 & s2 & _ & _ & Hctl & _ & Hends & _ & Hreps).
  assert (Hfr : ∀ key,
             key ∈ ["type"; "Apply I/C"; "N"; "charge/discharge";
                    "ctrl1_val_vs"; "ctrl1_val"; "ctrl1_val_unit"] →
             s !! key = s1 !! key).
  { intros key Hkey.
    repeat (apply elem_of_cons in Hkey as [->|Hkey]);
      [..|by apply elem_of_nil in Hkey].
    all: rewrite (report_entries_frame _ _ _ _ _ Hreps)
      by (intros; unfold rec_key; simpl; discriminate).
    all: rewrite lookup_insert_ne by done.
    all: rewrite (end_entries_frame _ _ _ _ _ _ _ _ _ Hends)
      by (intros; unfold lim_key; simpl; discriminate).
    all: by rewrite lookup_insert_ne. }
  apply proc_control_inv in Hctl. unfold control_fields in *.
  rewrite !Hfr by (rewrite !elem_of_cons; tauto). exact Hctl.
Qed.

(** X4: for the report trigger at position i of a step's list, a compiled
    record holds in [rec(i+1)_type] the kind Time, Voltage or Current (for
    a StepTime, Voltage or Current report) and in [rec(i+1)_value] and
    [rec(i+1)_value_unit] the pair the converter of that kind returns for
    the report's value; a report of any other type is never compiled. *)
Theorem compiled_report_slots (step : TestStep) (step_num : Z)
    (by_step : gmap Z Z) (lb ub : Z) (s : seq_t) (i : nat) (r : ReportEntry) :
  _proc_step_to_seq blank_seq step step_num by_step lb ub = Ok s →
  as_list (Reports step) !! i = Some r →
  ∃ kind value value_unit,
    report_slot r kind value value_unit
    ∧ s !! rec_key (i + 1) "_type" = Some (VStr kind)
    ∧ s !! rec_key (i + 1) "_value" = Some (VStr value)
    ∧ s !! rec_key (i + 1) "_value_unit" = Some (VStr value_unit).
Proof.
  intros H Hi.
  destruct (proc_step_stages _ _ _ _ _ _ H)
    as (seq_num & s0 & s1 & s2 & _ & _ & _ & _ & _ & Hlen & Hreps).
  exact (report_entries_inv _ 0 _ _ _ _ Hreps Hlen Hi).
Qed.

(** X5: for the end-condition at position i of a step's list, a compiled
    record holds in [lim(i+1)_type] the kind Time, Voltage or Current (for
    a StepTime, Voltage or Current end-condition) and in [lim(i+1)_value]
    and [lim(i+1)_value_unit] the pair returned by [_convert_time],
    [_convert_volts] or [_convert_amps] for the condition's value. *)
Theorem compiled_limit_values (step : TestStep) (step_num : Z)
    (by_step : gmap Z Z) (lb ub : Z) (s : seq_t) (i : nat) (e : EndEntry) :
  _proc_step_to_seq blank_seq step step_num by_step lb ub = Ok s →
  as_list (Ends step) !! i = Some e →
  ∃ kind value value_unit,
    limit_slot e kind value value_unit
    ∧ s !! lim_key (i + 1) "_type" = Some (VStr kind)
    ∧ s !! lim_key (i + 1) "_value" = Some (VStr value)
    ∧ s !! lim_key (i + 1) "_value_unit" = Some (VStr value_unit).
Proof.
  intros H Hi.
  destruct (proc_step_stages _ _ _ _ _ _ H)
    as (seq_num & s0 & s1 & s2 & _ & _ & _ & Hlen & Hends & _ & Hreps).
  destruct (end_entries_values _ _ _ _ _ 0 _ _ _ _ Hends Hlen Hi)
    as (kind & value & value_unit & ? & Ht & Hv & Hu).
  exists kind, value, value_unit. simpl in Ht, Hv, Hu.
  assert (Hrec : ∀ sfx, s !! lim_key (i + 1) sfx = s2 !! lim_key (i + 1) sfx).
  { intros sfx.
    rewrite (report_entries_frame _ _ _ _ _ Hreps)
      by (intros n sfx' Heq; by apply (rec_key_not_lim n (i + 1) sfx' sfx)).
    apply lookup_insert_ne. unfold lim_key. simpl. discriminate. }
  by rewrite !Hrec.
Qed.

End StepCompilerSlots.

Lemma goto_targets_within_bounds_witness :
  _proc_step_to_seq ∅ charge_step 1 single_step_map 0 2
  = Ok sample_charge_record
  ∧ as_list (Ends charge_step) !! 0%nat = Some charge_end_entry
  ∧ ∃ goto_step_num,
      py_int_str (Step charge_end_entry) = Ok goto_step_num
      ∧ 0 ≤ goto_step_num ≤ 2
      ∧ is_Some (single_step_map !! goto_step_num).
Proof.
  assert (H1 : _proc_step_to_seq ∅ charge_step 1 single_step_map 0 2
               = Ok sample_charge_record) by (apply succeeds_Ok; vm_compute; reflexivity).
  split; [exact H1|]. split; [reflexivity|].
  exact (goto_targets_within_bounds ∅ charge_step 1 single_step_map 0 2
           sample_charge_record 0 charge_end_entry
           H1 eq_refl).
Defined.

Lemma compiled_record_header_witness :
  _proc_step_to_seq ∅ charge_step 1 single_step_map 0 2
  = Ok sample_charge_record
  ∧ ∃ seq_num,
      single_step_map !! 1 = Some seq_num
      ∧ sample_charge_record !! "Ns" = Some (VInt seq_num)
      ∧ (length (as_list (Ends charge_step)) ≤ 3)%nat
      ∧ (length (as_list (Reports charge_step)) ≤ 3)%nat
      ∧ sample_charge_record !! "lim_nb"
        = Some (VInt (Z.of_nat (length (as_list (Ends charge_step)))))
      ∧ sample_charge_record !! "rec_nb"
        = Some (VInt (Z.of_nat (length (as_list (Reports charge_step)))))
      ∧ ∀ j, (length (as_list (Ends charge_step)) < j ≤ 3)%nat →
             sample_charge_record !! lim_key j "_seq"
             = Some (VInt (seq_num + 1)).
Proof.
  assert (H1 : _proc_step_to_seq ∅ charge_step 1 single_step_map 0 2
               = Ok sample_charge_record) by (apply succeeds_Ok; vm_compute; reflexivity).
  split; [exact H1|].
  exact (compiled_record_header ∅ charge_step 1 single_step_map 0 2
           sample_charge_record H1).
Defined.

Lemma compiled_control_fields_witness :
  _proc_step_to_seq ∅ charge_step 1 single_step_map 0 2
  = Ok sample_charge_record
  ∧ control_fields charge_step sample_charge_record.
Proof.
  assert (H1 : _proc_step_to_seq ∅ charge_step 1 single_step_map 0 2
               = Ok sample_charge_record) by (apply succeeds_Ok; vm_compute; reflexivity).
  split; [exact H1|].
  exact (compiled_control_fields ∅ charge_step 1 single_step_map 0 2
           sample_charge_record H1).
Defined.

Lemma compiled_report_slots_witness :
  _proc_step_to_seq ∅ charge_step 1 single_step_map 0 2
  = Ok sample_charge_record
  ∧ as_list (Reports charge_step) !! 0%nat = Some charge_report_entry
  ∧ ∃ kind value value_unit,
      report_slot charge_report_entry kind value value_unit
      ∧ sample_charge_record !! rec_key (0 + 1) "_type" = Some (VStr kind)
      ∧ sample_charge_record !! rec_key (0 + 1) "_value" = Some (VStr value)
      ∧ sample_charge_record !! rec_key (0 + 1) "_value_unit"
        = Some (VStr value_unit).
Proof.
  assert (H1 : _proc_step_to_seq ∅ charge_step 1 single_step_map 0 2
               = Ok sample_charge_record) by (apply succeeds_Ok; vm_compute; reflexivity).
  split; [exact H1|]. split; [reflexivity|].
  exact (compiled_report_slots ∅ charge_step 1 single_step_map 0 2
           sample_charge_record 0 charge_report_entry
           H1 eq_refl).
Defined.

Lemma compiled_limit_values_witness :
  _proc_step_to_seq ∅ charge_step 1 single_step_map 0 2
  = Ok sample_charge_record
  ∧ as_list (Ends charge_step) !! 0%nat = Some charge_end_entry
  ∧ ∃ kind value value_unit,
      limit_slot charge_end_entry kind value value_unit
      ∧ sample_charge_record !! lim_key (0 + 1) "_type" = Some (VStr kind)
      ∧ sample_charge_record !! lim_key (0 + 1) "_value" = Some (VStr value)
      ∧ sample_charge_record !! lim_key (0 + 1) "_value_unit"
        = Some (VStr value_unit).
Proof.
  assert (H1 : _proc_step_to_seq ∅ charge_step 1 single_step_map 0 2
               = Ok sample_charge_record) by (apply succeeds_Ok; vm_compute; reflexivity).
  split; [exact H1|]. split; [reflexivity|].
  exact (compiled_limit_values ∅ charge_step 1 single_step_map 0 2
           sample_charge_record 0 charge_end_entry
           H1 eq_refl).
Defined.

(** * Further properties of the converters *)

Lemma sign_not_space (c : ascii) : is_sign c = true → is_space c = false.
Proof. destruct c as [[] [] [] [] [] [] [] []]; vm_compute; done. Qed.

Lemma sign_not_digit (c : ascii) : is_sign c = true → is_digit c = false.
Proof. destruct c as [[] [] [] [] [] [] [] []]; vm_compute; done. Qed.

Lemma digits_prefix_digits (l : list ascii) :
  Forall (λ x, is_digit x = true) (digits_prefix l).
Proof.
  induction l as [|c l IH]; simpl; [constructor|].
  destruct (is_digit c) eqn:E; by constructor.
Qed.

Lemma lstrip_head (c : ascii) (l : list ascii) :
  is_space c = false → lstrip (c :: l) = c :: l.
Proof. intros H. simpl. by rewrite H. Qed.

Lemma strip_no_space (l : list ascii) :
  Forall (λ x, is_space x = false) l → strip l = l.
Proof.
  intros Hl. unfold strip.
  assert (Hid : ∀ l', Forall (λ x, is_space x = false) l' → lstrip l' = l').
  { intros l' Hl'. destruct Hl'; [done|by apply lstrip_head]. }
  rewrite (Hid l Hl), Hid, rev_involutive; [done|].
  by apply Forall_rev.
Qed.

(** What the second group of the exponent regex matches is a literal
    [int] accepts. *)
Lemma signed_digits_parse (l g : list ascii) :
  match_signed_digits l = Some g →
  ∃ z, py_int_str (string_of_list_ascii g) = Ok z.
Proof.
  unfold match_signed_digits, py_int_str, chars.
  rewrite list_ascii_of_string_of_list_ascii.
  destruct l as [|c r]; [done|].
  destruct (is_sign c) eqn:Esign.
  - pose proof (digits_prefix_digits r) as Hds.
    destruct (digits_prefix r) as [|d ds] eqn:Er; [done|].
    intros [= <-].
    rewrite strip_no_space.
    2:{ constructor; [by apply sign_not_space|].
        eapply Forall_impl; [exact Hds|]. intros x Hx. by apply digit_cases. }
    unfold read_sign.
    unfold is_sign in Esign.
    destruct (ascii_eqb c "-") eqn:Em;
      [|destruct (ascii_eqb c "+") eqn:Ep; [|done]];
      rewrite (digit_run_all _ Hds); eauto.
  - pose proof (digits_prefix_digits (c :: r)) as Hds.
    destruct (digits_prefix (c :: r)) as [|d ds] eqn:Er; [done|].
    intros [= <-].
    rewrite strip_no_space.
    2:{ eapply Forall_impl; [exact Hds|]. intros x Hx. by apply digit_cases. }
    unfold read_sign.
    assert (Hd : is_sign d = false).
    { inversion Hds; subst. by apply digit_cases. }
    unfold is_sign in Hd. apply orb_false_iff in Hd as [-> ->].
    rewrite (digit_run_all _ Hds). eauto.
Qed.

Lemma search_p10_parse (l g : list ascii) :
  search_p10 l = Some g → ∃ z, py_int_str (string_of_list_ascii g) = Ok z.
Proof.
  induction l as [|c l IH]; simpl; [done|].
  destruct (ascii_eqb c "e" || ascii_eqb c "E"); [|done].
  destruct (match_signed_digits l) as [g'|] eqn:E; [|done].
  intros [= <-]. by eapply signed_digits_parse.
Qed.

(** The precision detection never raises. *)
Lemma get_decimal_sig_figs_returns (val_str : string) :
  ∃ z, _get_decimal_sig_figs val_str = Ok z.
Proof.
  unfold _get_decimal_sig_figs.
  destruct (search_p10 (chars val_str)) as [g|] eqn:E.
  - destruct (search_p10_parse _ _ E) as [z ->]. simpl. eauto.
  - simpl. eauto.
Qed.

Lemma py_float_error (s : string) (e : error) :
  py_float s = Err e → e = ValueError.
Proof.
  unfold py_float. intros H.
  repeat match type of H with
         | (let '(_, _) := ?p in _) = _ => destruct p
         | (if ?c then _ else _) = _ => destruct c
         | match ?o with _ => _ end = _ => destruct o
         end; simplify_eq; done.
Qed.

(** X6: on a string of ASCII characters, at most 4300 long, the four
    magnitude converters return a pair exactly when [float(val_str)]
    parses, and then the unit is one of the converter's own ladder; when
    it does not parse they raise [ValueError], the exception of [float].
    The precision detection itself never raises: what the exponent regex
    captures is a literal [int] accepts. *)
Theorem converters_return_when_float_parses (val_str : string) :
  plain_literal val_str = true →
  match py_float val_str with
  | Ok _ =>
      (∃ v u, _convert_volts val_str = Ok (v, u) ∧ u ∈ ["V"; "mV"])
      ∧ (∃ v u, _convert_amps val_str = Ok (v, u)
                ∧ u ∈ ["A"; "mA"; "µA"; "nA"; "pA"])
      ∧ (∃ v u, _convert_watts val_str = Ok (v, u) ∧ u ∈ ["W"; "mW"; "µW"])
      ∧ (∃ v u, _convert_ohms val_str = Ok (v, u)
                ∧ u ∈ ["MOhms"; "kOhms"; "Ohms"; "mOhms"; "µOhms"])
  | Err e =>
      e = ValueError
      ∧ _convert_volts val_str = Err ValueError
      ∧ _convert_amps val_str = Err ValueError
      ∧ _convert_watts val_str = Err ValueError
      ∧ _convert_ohms val_str = Err ValueError
  end.
Proof.
  intros _.
  unfold _convert_volts, _convert_amps, _convert_watts, _convert_ohms.
  destruct (get_decimal_sig_figs_returns val_str) as [z ->]. simpl.
  destruct (py_float val_str) as [x|e] eqn:E; simpl.
  - split_and!;
      repeat match goal with
             | |- context [if ?c then _ else _] => destruct c
             end;
      eexists _, _; (split; [reflexivity|]);
      rewrite !elem_of_cons; tauto.
  - apply py_float_error in E as ->. done.
Qed.

Lemma converters_return_when_float_parses_witness :
  plain_literal "1.5" = true
  ∧ (∃ v u, _convert_volts "1.5" = Ok (v, u) ∧ u ∈ ["V"; "mV"])
  ∧ (∃ v u, _convert_amps "1.5" = Ok (v, u)
            ∧ u ∈ ["A"; "mA"; "µA"; "nA"; "pA"])
  ∧ (∃ v u, _convert_watts "1.5" = Ok (v, u) ∧ u ∈ ["W"; "mW"; "µW"])
  ∧ (∃ v u, _convert_ohms "1.5" = Ok (v, u)
            ∧ u ∈ ["MOhms"; "kOhms"; "Ohms"; "mOhms"; "µOhms"]).
Proof.
  split; [reflexivity|].
  exact (converters_return_when_float_parses "1.5" eq_refl).
Defined.

Lemma ltb_nonpositive (x : spec_float) (mb : positive) (eb : Z) :
  F64.ltb x F64.zero = true ∨ F64.eqb x F64.zero = true →
  F64.ltb x (S754_finite false mb eb) = true.
Proof.
  unfold F64.ltb, F64.eqb, F64.zero, SFltb, SFeqb, SFcompare.
  destruct x as [sx|sx| |sx m e]; try destruct sx; simpl; intuition done.
Qed.

(** X7: a magnitude that parses to a negative number or to zero is
    always emitted in the smallest unit of the converter, whatever its
    size and its written precision: mV, pA, µW and µOhms. *)
Theorem nonpositive_magnitude_in_smallest_unit (val_str : string)
    (num : spec_float) :
  py_float val_str = Ok num →
  F64.ltb num F64.zero = true ∨ F64.eqb num F64.zero = true →
  _convert_volts val_str = Ok (fmt (F64.mul num f1e3), "mV")
  ∧ _convert_amps val_str = Ok (fmt (F64.mul num f1e12), "pA")
  ∧ _convert_watts val_str = Ok (fmt (F64.mul num f1e6), "µW")
  ∧ _convert_ohms val_str = Ok (fmt (F64.mul num f1e6), "µOhms").
Proof.
  intros Hnum Hle.
  unfold _convert_volts, _convert_amps, _convert_watts, _convert_ohms.
  destruct (get_decimal_sig_figs_returns val_str) as [z ->]. simpl.
  rewrite Hnum. simpl.
  assert (H1 : F64.ltb num f1 = true) by (by apply ltb_nonpositive).
  assert (H2 : F64.ltb num f1em3 = true) by (by apply ltb_nonpositive).
  assert (H3 : F64.ltb num f1em9 = true) by (by apply ltb_nonpositive).
  by rewrite H1, H2, H3.
Qed.

Lemma nonpositive_magnitude_in_smallest_unit_witness :
  py_float "-1.5" = Ok minus_one_and_a_half
  ∧ (F64.ltb minus_one_and_a_half F64.zero = true
     ∨ F64.eqb minus_one_and_a_half F64.zero = true)
  ∧ _convert_volts "-1.5" = Ok (fmt (F64.mul minus_one_and_a_half f1e3), "mV")
  ∧ _convert_amps "-1.5" = Ok (fmt (F64.mul minus_one_and_a_half f1e12), "pA")
  ∧ _convert_watts "-1.5" = Ok (fmt (F64.mul minus_one_and_a_half f1e6), "µW")
  ∧ _convert_ohms "-1.5"
    = Ok (fmt (F64.mul minus_one_and_a_half f1e6), "µOhms").
Proof.
  assert (H1 : py_float "-1.5" = Ok minus_one_and_a_half)
    by (vm_compute; reflexivity).
  assert (H2 : F64.ltb minus_one_and_a_half F64.zero = true
               ∨ F64.eqb minus_one_and_a_half F64.zero = true)
    by (left; vm_compute; reflexivity).
  split; [exact H1|]. split; [exact H2|].
  exact (nonpositive_magnitude_in_smallest_unit "-1.5"
           minus_one_and_a_half H1 H2).
Defined.

Lemma split_on_length (sep : ascii) (l : list ascii) :
  length (split_on sep l)
  = S (length (List.filter (λ c, ascii_eqb c sep) l)).
Proof.
  induction l as [|c l IH]; simpl; [done|].
  destruct (ascii_eqb c sep); simpl; [by rewrite IH|].
  destruct (split_on sep l); simpl in *; lia.
Qed.

(** X8: [_convert_time] raises [ValueError] for a string that does not
    have exactly two colons, and when it returns a pair the string has
    exactly two colons and the unit is hr, mn, s or ms. *)
Theorem convert_time_shape (time_str : string) :
  (colons time_str ≠ 2%nat → _convert_time time_str = Err ValueError)
  ∧ (∀ v u, _convert_time time_str = Ok (v, u) →
       colons time_str = 2%nat ∧ u ∈ ["hr"; "mn"; "s"; "ms"]).
Proof.
  assert (Hlen : length (py_split ":" time_str) = S (colons time_str)).
  { unfold py_split, colons. by rewrite length_map, split_on_length. }
  unfold _convert_time.
  destruct (py_split ":" time_str) as [|h [|m [|s [|x l]]]];
    simpl in Hlen; try (split; [done|intros v u; discriminate]).
  split; [intros Hne; lia|].
  intros v u H. split; [lia|].
  inv_ok H; injection H as <- <-; rewrite !elem_of_cons; tauto.
Qed.

(** X9: unrolling an empty body returns the empty list for every repeat
    count, and unrolling a non-empty body with a negative repeat count
    fails the length assertion. *)
Theorem unroll_loop_degenerate :
  (∀ num_loops lo hi, _unroll_loop [] num_loops lo hi = Ok [])
  ∧ (∀ loop num_loops lo hi,
       num_loops < 0 → loop ≠ [] →
       _unroll_loop loop num_loops lo hi = Err AssertionError).
Proof.
  split.
  - intros num_loops lo hi. unfold _unroll_loop.
    assert (H : ∀ copies, unroll_copies [] lo hi copies [] = Ok []).
    { induction copies as [|i copies IH]; [done|]. simpl. exact IH. }
    rewrite H. simpl. done.
  - intros loop num_loops lo hi Hn Hloop. unfold _unroll_loop.
    assert (seqZ 1 num_loops = []) as ->.
    { apply length_zero_iff_nil. rewrite length_seqZ. lia. }
    simpl.
    assert ((Z.of_nat (length loop)
             =? Z.of_nat (length loop) * (num_loops + 1)) = false) as ->.
    { apply Z.eqb_neq. destruct loop; [done|]. simpl length. nia. }
    done.
Qed.

(** * Further properties of the control-flow planner *)

Lemma numbered_app (base : Z) (l1 l2 : list seq_t) :
  numbered base l1 → numbered (base + Z.of_nat (length l1)) l2 →
  numbered base (l1 ++ l2).
Proof.
  intros H1 H2 k r Hk. apply lookup_app_Some in Hk as [Hk|[Hlen Hk]].
  - by apply H1.
  - rewrite (H2 _ _ Hk). do 2 f_equal. lia.
Qed.

Lemma numbered_singleton (base : Z) (r : seq_t) :
  r !! "Ns" = Some (VInt base) → numbered base [r].
Proof.
  intros Hr k r' Hk. destruct k as [|k]; simpl in Hk; [|done].
  injection Hk as <-. rewrite Hr. do 2 f_equal. lia.
Qed.

Lemma unroll_goto_frame (seq u u' : seq_t) (shift lo hi : Z) (j : nat)
    (key : string) :
  unroll_goto seq shift lo hi u j = Ok u' →
  (∀ n sfx, key ≠ lim_key n sfx) → u' !! key = u !! key.
Proof.
  unfold unroll_goto. intros H Hkey. inv_ok H; injection H as <-; [|done].
  by rewrite lookup_insert_ne.
Qed.

Lemma unroll_seq_Ns (shift lo hi : Z) (r r' : seq_t) :
  unroll_seq shift lo hi r = Ok r' →
  ∃ ns, r !! "Ns" = Some (VInt ns) ∧ r' !! "Ns" = Some (VInt (ns + shift)).
Proof.
  unfold unroll_seq. intros H.
  apply bind_Ok in H as (v & Hv & H).
  apply bind_Ok in H as (v' & Hv' & H).
  apply bind_Ok in H as (u1 & H1 & H).
  apply bind_Ok in H as (u2 & H2 & H3).
  unfold getitem in Hv. destruct (r !! "Ns") as [w|] eqn:Hns; [|done].
  injection Hv as ->. destruct v as [ns|]; [|done]. injection Hv' as <-.
  exists ns. split; [done|].
  rewrite (unroll_goto_frame _ _ _ _ _ _ _ _ H3)
    by (intros; unfold lim_key; simpl; discriminate).
  rewrite (unroll_goto_frame _ _ _ _ _ _ _ _ H2)
    by (intros; unfold lim_key; simpl; discriminate).
  rewrite (unroll_goto_frame _ _ _ _ _ _ _ _ H1)
    by (intros; unfold lim_key; simpl; discriminate).
  by rewrite lookup_insert_eq.
Qed.

Lemma for_append_inv {A B} (body : A → result B) (l : list A)
    (acc out : list B) :
  for_append body l acc = Ok out →
  ∃ ys, out = acc ++ ys ∧ Forall2 (λ x y, body x = Ok y) l ys.
Proof.
  revert acc. induction l as [|x l IH]; intros acc H; simpl in H.
  - injection H as <-. exists []. by rewrite app_nil_r.
  - apply bind_Ok in H as (y & Hy & H).
    destruct (IH _ H) as (ys & -> & Hys).
    exists (y :: ys). split; [by rewrite <- app_assoc|by constructor].
Qed.

Lemma unroll_copies_inv (loop : list seq_t) (lo hi : Z) (copies : list Z)
    (acc out : list seq_t) :
  unroll_copies loop lo hi copies acc = Ok out →
  ∃ blocks,
    out = acc ++ concat blocks
    ∧ Forall2
        (λ i block,
           Forall2 (λ x y, unroll_seq (Z.of_nat (length loop) * i) lo hi x
                           = Ok y) loop block)
        copies blocks.
Proof.
  revert acc. induction copies as [|i copies IH]; intros acc H; simpl in H.
  - injection H as <-. exists []. by rewrite app_nil_r.
  - apply bind_Ok in H as (acc' & Hacc & H).
    apply for_append_inv in Hacc as (block & -> & Hblock).
    destruct (IH _ H) as (blocks & -> & Hblocks).
    exists (block :: blocks). split; [by rewrite <- app_assoc|by constructor].
Qed.

Lemma blocks_numbered (loop : list seq_t) (lo hi : Z) (base : Z)
    (copies : list Z) (blocks : list (list seq_t)) (m : Z) :
  numbered base loop →
  (∀ idx i, copies !! idx = Some i → i = m + Z.of_nat idx) →
  Forall2
    (λ i block,
       Forall2 (λ x y, unroll_seq (Z.of_nat (length loop) * i) lo hi x = Ok y)
               loop block)
    copies blocks →
  numbered (base + Z.of_nat (length loop) * m) (concat blocks).
Proof.
  intros Hloop Hcopies Hblocks. revert m Hcopies.
  induction Hblocks as [|i block copies blocks Hblock _ IH];
    intros m Hcopies; simpl.
  - intros k r Hk. done.
  - pose proof (Hcopies 0%nat i eq_refl) as Hi.
    replace (m + Z.of_nat 0) with m in Hi by lia. subst i.
    apply numbered_app.
    + intros k y Hk.
      destruct (Forall2_lookup_r _ _ _ _ _ Hblock Hk) as (x & Hx & Hxy).
      apply unroll_seq_Ns in Hxy as (ns & Hns & ->).
      rewrite (Hloop _ _ Hx) in Hns. injection Hns as <-.
      do 2 f_equal. lia.
    + rewrite <- (Forall2_length _ _ _ Hblock).
      replace (base + Z.of_nat (length loop) * m + Z.of_nat (length loop))
        with (base + Z.of_nat (length loop) * (m + 1)) by lia.
      apply IH. intros idx i Hidx.
      rewrite (Hcopies (S idx) i Hidx). lia.
Qed.

Lemma unroll_numbered (loop unrolled : list seq_t) (num_loops lo hi : Z)
    (base : Z) :
  numbered base loop →
  _unroll_loop loop num_loops lo hi = Ok unrolled →
  numbered base unrolled.
Proof.
  intros Hloop H. unfold _unroll_loop in H.
  apply bind_Ok in H as (u & Hu & H).
  apply bind_Ok in H as (? & _ & H). injection H as <-.
  apply unroll_copies_inv in Hu as (blocks & -> & Hblocks).
  apply numbered_app; [done|].
  replace (base + Z.of_nat (length loop))
    with (base + Z.of_nat (length loop) * 1) by lia.
  eapply blocks_numbered; [done| |exact Hblocks].
  intros idx i Hi. apply lookup_seqZ in Hi. lia.
Qed.

Lemma proc_step_Ns (blank_seq : seq_t) (step : TestStep) (step_num : Z)
    (by_step : gmap Z Z) (lb ub : Z) (s : seq_t) :
  _proc_step_to_seq blank_seq step step_num by_step lb ub = Ok s →
  ∃ seq_num, by_step !! step_num = Some seq_num
             ∧ s !! "Ns" = Some (VInt seq_num).
Proof.
  intros H.
  destruct (proc_step_stages _ _ _ _ _ _ _ H)
    as (seq_num & s0 & s1 & s2 & Hseq & -> & Hctl & _ & Hends & _ & Hreps).
  exists seq_num. split; [done|].
  rewrite (report_entries_frame _ _ _ _ _ Hreps)
    by (intros; unfold rec_key; simpl; discriminate).
  rewrite lookup_insert_ne by done.
  rewrite (end_entries_frame _ _ _ _ _ _ _ _ _ Hends)
    by (intros; unfold lim_key; simpl; discriminate).
  rewrite lookup_insert_ne by done.
  rewrite (proc_control_frame _ _ _ _ Hctl)
    by (rewrite !not_elem_of_cons; split_and!; try discriminate;
        apply not_elem_of_nil).
  rewrite !lookup_insert_ne by done. by rewrite lookup_insert_eq.
Qed.

Lemma is_do_not_loop (t : string) : is_do t = true → is_loop t = false.
Proof.
  unfold is_do, is_loop, py_prefix, chars.
  destruct t as [|a [|b t']]; [done| |];
    intros H%streq_true; simpl in H; injection H as Ha Hb;
    [discriminate Hb|].
  subst a. apply String.eqb_neq. simpl. discriminate.
Qed.

Lemma sizing_step_map (steps : list TestStep) (k : nat) (step : TestStep)
    (st st' : sizing_state) :
  sizing_step steps k step st = Ok st' →
  seq_num_by_step_num st'
  = <[Z.of_nat k + 1 := curr_seq_num st]> (seq_num_by_step_num st).
Proof.
  intros H. unfold sizing_step in H. inv_ok H; by injection H as <-.
Qed.

Lemma sizing_loop_map_frame (steps todo : list TestStep) (k : nat)
    (st st' : sizing_state) (key : Z) :
  for_enumerate (sizing_step steps) k todo st = Ok st' →
  key ≤ Z.of_nat k →
  seq_num_by_step_num st' !! key = seq_num_by_step_num st !! key.
Proof.
  revert k st. induction todo as [|step todo IH]; intros k st H Hkey;
    simpl in H.
  - by injection H as <-.
  - apply bind_Ok in H as (st1 & H1 & H).
    rewrite (IH _ _ H) by lia.
    rewrite (sizing_step_map _ _ _ _ _ H1).
    apply lookup_insert_ne. lia.
Qed.

(** Inversion of the stack operations of the planner. *)
Ltac inv_stacks :=
  repeat
    (simplify_eq/=;
     match goal with
     | H : update_top _ ?s = Ok _ |- _ => is_var s; destruct s
     | H : pop ?s = Ok _ |- _ => is_var s; destruct s
     | H : top ?s = Ok _ |- _ => is_var s; destruct s
     | H : getitem _ _ = Ok _ |- _ =>
         unfold getitem in H;
         match type of H with
         | match ?o with _ => _ end = _ => destruct o eqn:?
         end
     | H : py_assert _ = Ok _ |- _ => apply py_assert_Ok in H
     end);
  simplify_eq/=.

Lemma sizing_step_total (steps : list TestStep) (k : nat) (step : TestStep)
    (st st' : sizing_state) :
  sizing_step steps k step st = Ok st' →
  curr_seq_num st = total (loop_seq_count_stack st) →
  curr_seq_num st' = total (loop_seq_count_stack st').
Proof.
  intros H Hsum. unfold sizing_step in H.
  destruct st as [cur counts wu bys us ig]. simpl in *.
  inv_ok H; injection H as <-; simpl.
  all: inv_stacks.
  all: repeat match goal with
              | H : (if ?c then _ else _) = (_, _) |- _ => destruct c
              end; simplify_eq/=.
  all: simpl in *; lia.
Qed.

Lemma gen_step_numbered (blank_seq : seq_t) (sz : sizing_state)
    (end_step_num : Z) (k : nat) (step : TestStep) (s2 s2' : gen_state)
    (seq_num : Z) :
  gen_step blank_seq sz end_step_num k step s2 = Ok s2' →
  seq_num_by_step_num sz !! (Z.of_nat k + 1) = Some seq_num →
  seq_num
  = total (map (λ l : list seq_t, Z.of_nat (length l)) (seq_loop_stack s2)) →
  stack_numbered (seq_loop_stack s2) →
  stack_numbered (seq_loop_stack s2').
Proof.
  intros H Hseq Hsum Hnum. unfold gen_step in H.
  destruct s2 as [stack starts lb]. simpl in *.
  apply bind_Ok in H as (seq_num' & Hseq' & H).
  unfold getitem in Hseq'. rewrite Hseq in Hseq'. injection Hseq' as <-.
  destruct (is_do (StepType step)) eqn:Edo.
  { injection H as <-. simpl. split; [|done]. intros k' r Hk. done. }
  destruct (is_loop (StepType step) && negb (Z.of_nat k + 1 =? 0)) eqn:Eloop.
  { inv_ok H; injection H as <-; simpl.
    all: inv_stacks.
    all: destruct Hnum as (Hloop & Hl1 & Hrest).
    all: split; [|done].
    all: apply numbered_app; [done|].
    rewrite Z.add_comm. destruct x1.
    - apply bind_Ok in Hx3 as (u & Hu & Hx3).
      apply bind_Ok in Hx3 as (? & _ & Hx3). injection Hx3 as <-.
      by eapply unroll_numbered.
    - injection Hx3 as <-.
      apply numbered_app; [done|].
      apply numbered_singleton.
      match goal with
      | |- _create_loop_seq ?b ?n ?a ?c !! _ = _ =>
          destruct (create_loop_seq_fields b n a c) as (-> & _)
      end.
      do 2 f_equal. lia. }
  destruct (streq (StepType step) "AdvCycle") eqn:Eadv.
  { inv_ok H; [|by injection H as <-].
    unfold _create_advance_cyle_seqs in *. inv_ok Hx0.
    injection H as <-. simpl. inv_stacks.
    destruct Hnum as (Hl & Hrest). split; [|done].
    apply numbered_app; [apply numbered_app; [done|]|];
      apply numbered_singleton.
    - match goal with
      | |- _create_loop_seq ?b ?n ?a ?c !! _ = _ =>
          destruct (create_loop_seq_fields b n a c) as (-> & _)
      end.
      do 2 f_equal. lia.
    - match goal with
      | |- _create_loop_seq ?b ?n ?a ?c !! _ = _ =>
          destruct (create_loop_seq_fields b n a c) as (-> & _)
      end.
      do 2 f_equal. rewrite length_app. simpl. lia. }
  inv_ok H. injection H as <-. simpl.
  apply proc_step_Ns in Hx as (seq_num' & Hseq' & Hns).
  rewrite Hseq in Hseq'. injection Hseq' as <-.
  inv_stacks. destruct Hnum as (Hl & Hrest). split; [|done].
  apply numbered_app; [done|]. apply numbered_singleton.
  rewrite Hns. do 2 f_equal. lia.
Qed.

Section Numbering.

Variable blank_seq : seq_t.
Variable steps : list TestStep.

Lemma step_numbered (sz : sizing_state) (end_step_num : Z) (k : nat)
    (step : TestStep) (s1 s1' : sizing_state) (s2 s2' : gen_state) :
  sizing_step steps k step s1 = Ok s1' →
  gen_step blank_seq sz end_step_num k step s2 = Ok s2' →
  loop_unroll_status_by_idx sz !! k = loop_unroll_status_by_idx s1' !! k →
  adv_cycle_ignore_status_by_idx sz !! k
  = adv_cycle_ignore_status_by_idx s1' !! k →
  seq_num_by_step_num sz !! (Z.of_nat k + 1) = Some (curr_seq_num s1) →
  plan_inv s1 s2 → plan_inv s1' s2'.
Proof.
  intros H1 H2 Hu Hi Hmap (Hag & Hsum & Hnum). split_and!.
  - by eapply step_agree.
  - by eapply sizing_step_total.
  - eapply gen_step_numbered; [exact H2|exact Hmap| |exact Hnum].
    unfold sizes_agree in Hag. by rewrite Hag.
Qed.

Lemma passes_numbered (end_step_num : Z) (todo : list TestStep) (k : nat)
    (s1 s1' : sizing_state) (s2 s2' : gen_state) :
  for_enumerate (sizing_step steps) k todo s1 = Ok s1' →
  for_enumerate (gen_step blank_seq s1' end_step_num) k todo s2 = Ok s2' →
  plan_inv s1 s2 → plan_inv s1' s2'.
Proof.
  revert k s1 s2.
  induction todo as [|step todo IH]; intros k s1 s2 H1 H2 Hinv;
    simpl in H1, H2.
  - by simplify_eq.
  - apply bind_Ok in H1 as (t1 & Ht1 & H1).
    apply bind_Ok in H2 as (t2 & Ht2 & H2).
    apply (IH _ _ _ H1 H2).
    destruct (sizing_loop_frame _ _ _ k _ _ H1 ltac:(lia)) as [Hu Hi].
    apply (step_numbered _ _ _ _ _ _ _ _ Ht1 Ht2 Hu Hi); [|done].
    rewrite (sizing_loop_map_frame _ _ _ _ _ _ H1) by lia.
    rewrite (sizing_step_map _ _ _ _ _ Ht1). by rewrite lookup_insert_eq.
Qed.

(** What the two loops of the conversion establish together. *)
Lemma conversion_inv (seqs : list seq_t) :
  _create_biologic_seqs_from_maccor_ast blank_seq steps = Ok seqs →
  ∃ sz st,
    for_enumerate (sizing_step steps) 0 (all_but_last steps)
      (sizing_init steps) = Ok sz
    ∧ for_enumerate (gen_step blank_seq sz (Z.of_nat (length steps))) 0
        (all_but_last steps) gen_init = Ok st
    ∧ seq_loop_stack st = [seqs]
    ∧ plan_inv sz st.
Proof.
  unfold _create_biologic_seqs_from_maccor_ast. intros H.
  apply bind_Ok in H as ([sz n] & Hsz & H).
  apply bind_Ok in H as (seqs' & Hgen & H).
  apply bind_Ok in H as (? & _ & H). injection H as ->.
  unfold sizing_pass in Hsz. unfold generation_pass in Hgen.
  inv_ok Hsz. inv_ok Hgen. simplify_eq.
  repeat match goal with
         | H : py_assert _ = Ok _ |- _ => apply py_assert_Ok in H
         end.
  match goal with
  | Hs : for_enumerate (sizing_step _) _ _ _ = Ok ?a,
    Hg : for_enumerate (gen_step _ _ _) _ _ _ = Ok ?b,
    Hp : pop (seq_loop_stack ?b) = Ok _,
    Hl : (length (seq_loop_stack ?b) =? 1)%nat = true |- _ =>
      exists a, b; split; [exact Hs|]; split; [exact Hg|];
      pose proof (passes_numbered _ _ _ _ _ _ _ Hs Hg) as Hinv;
      split;
      [destruct (seq_loop_stack b) as [|? [|? ?]]; simplify_eq/=; done|]
  end.
  apply Hinv. split_and!; [done|done|]. simpl. split; [|done].
  intros k r Hk. done.
Qed.

(** X10: the records of a successful conversion are numbered by position:
    the record at position k of the returned list has [Ns] = k, through
    synthesized loop records and unrolled copies alike. *)
Theorem records_numbered_by_position (seqs : list seq_t) (k : nat)
    (r : seq_t) :
  _create_biologic_seqs_from_maccor_ast blank_seq steps = Ok seqs →
  seqs !! k = Some r →
  r !! "Ns" = Some (VInt (Z.of_nat k)).
Proof.
  intros H Hk.
  destruct (conversion_inv _ H) as (sz & st & _ & _ & Hst & _ & _ & Hnum).
  rewrite Hst in Hnum. destruct Hnum as [Hnum _].
  by rewrite (Hnum _ _ Hk).
Qed.

(** X11: after the loop of the first pass the running total
    [curr_seq_num] is the sum of the counts on [loop_seq_count_stack]; so
    when one level is left, popping it gives [curr_seq_num] and the
    assertion [pre_computed_seq_count == curr_seq_num] cannot fail. *)
Theorem sizing_total_is_stack_sum (st : sizing_state) :
  sizing_loop steps = Ok st →
  curr_seq_num st = total (loop_seq_count_stack st)
  ∧ (length (loop_seq_count_stack st) = 1%nat →
     pop (loop_seq_count_stack st) = Ok (curr_seq_num st, [])).
Proof.
  intros H. unfold sizing_loop in H.
  assert (Hsum : curr_seq_num st = total (loop_seq_count_stack st)).
  { assert (Hgen : ∀ todo k s s',
               for_enumerate (sizing_step steps) k todo s = Ok s' →
               curr_seq_num s = total (loop_seq_count_stack s) →
               curr_seq_num s' = total (loop_seq_count_stack s')).
    { induction todo as [|step todo IH]; intros k s s' Hl Hs; simpl in Hl.
      - by simplify_eq.
      - apply bind_Ok in Hl as (s1 & H1 & Hl).
        apply (IH _ _ _ Hl). by eapply sizing_step_total. }
    by apply (Hgen _ _ _ _ H). }
  split; [done|]. intros Hlen.
  destruct (loop_seq_count_stack st) as [|c [|c' l]]; simplify_eq/=.
  do 2 f_equal. lia.
Qed.

End Numbering.

Lemma for_enumerate_inv {A St} (body : nat → A → St → result St)
    (I : nat → St → Prop) (l : list A) (i0 : nat) (s s' : St) :
  for_enumerate body i0 l s = Ok s' →
  I i0 s →
  (∀ i x a a', l !! i = Some x → I (i0 + i)%nat a →
               body (i0 + i)%nat x a = Ok a' → I (i0 + S i)%nat a') →
  I (i0 + length l)%nat s'.
Proof.
  revert i0 s. induction l as [|x l IH]; intros i0 s H Hs Hstep; simpl in H.
  - injection H as <-. simpl. by rewrite Nat.add_0_r.
  - apply bind_Ok in H as (s1 & H1 & H).
    replace (i0 + length (x :: l))%nat with (S i0 + length l)%nat
      by (simpl; lia).
    apply (IH _ _ H).
    + replace (S i0) with (i0 + 1)%nat by lia.
      apply (Hstep 0%nat x s s1); [done| |]; by rewrite Nat.add_0_r.
    + intros i y a a' Hy Ha Hb.
      replace (S i0 + S i)%nat with (i0 + S (S i))%nat by lia.
      apply (Hstep (S i) y a a'); [done| |];
        by replace (i0 + S i)%nat with (S i0 + i)%nat by lia.
Qed.

Lemma for_enumerate_inv_elem {A St} (body : nat → A → St → result St)
    (I : nat → St → Prop) (l : list A) (i0 : nat) (s s' : St)
    (i : nat) (x : A) :
  for_enumerate body i0 l s = Ok s' →
  I i0 s →
  (∀ i x a a', l !! i = Some x → I (i0 + i)%nat a →
               body (i0 + i)%nat x a = Ok a' → I (i0 + S i)%nat a') →
  l !! i = Some x →
  ∃ a a', I (i0 + i)%nat a ∧ body (i0 + i)%nat x a = Ok a'.
Proof.
  revert i0 s i. induction l as [|y l IH]; intros i0 s i H Hs Hstep Hi;
    [done|].
  simpl in H. apply bind_Ok in H as (s1 & H1 & H).
  destruct i as [|i]; simpl in Hi.
  - injection Hi as ->. rewrite Nat.add_0_r. eauto.
  - replace (i0 + S i)%nat with (S i0 + i)%nat by lia.
    apply (IH _ _ _ H); [| |done].
    + replace (S i0) with (i0 + 1)%nat by lia.
      apply (Hstep 0%nat y s s1); [done| |]; by rewrite Nat.add_0_r.
    + intros j z a a' Hz Ha Hb.
      replace (S i0 + S j)%nat with (i0 + S (S j))%nat by lia.
      apply (Hstep (S j) z a a'); [done| |];
        by replace (i0 + S j)%nat with (S i0 + j)%nat by lia.
Qed.

Lemma all_but_last_lookup {A} (l : list A) (i : nat) (x : A) :
  all_but_last l !! i = Some x → l !! i = Some x ∧ (S i < length l)%nat.
Proof.
  unfold all_but_last. intros H.
  apply lookup_take_Some in H as [H Hi]. split; [done|lia].
Qed.

Lemma lookup_all_but_last {A} (l : list A) (i : nat) (x : A) :
  l !! i = Some x → (S i < length l)%nat → all_but_last l !! i = Some x.
Proof.
  unfold all_but_last. intros H Hi. apply lookup_take_Some. split; [done|lia].
Qed.

Lemma opens_snoc (l : list TestStep) (x : TestStep) :
  opens (l ++ [x])
  = (opens l + if is_do (StepType x) then 1 else 0)%nat.
Proof.
  unfold opens. rewrite List.filter_app, length_app. simpl.
  by destruct (is_do (StepType x)).
Qed.

Lemma closes_snoc (l : list TestStep) (x : TestStep) :
  closes (l ++ [x])
  = (closes l + if is_loop (StepType x) then 1 else 0)%nat.
Proof.
  unfold closes. rewrite List.filter_app, length_app. simpl.
  by destruct (is_loop (StepType x)).
Qed.

Lemma sizing_step_nesting (steps l : list TestStep) (k : nat)
    (x : TestStep) (st st' : sizing_state) :
  l !! k = Some x →
  nesting_inv l k st →
  sizing_step steps k x st = Ok st' →
  nesting_inv l (S k) st'.
Proof.
  intros Hx (Hne & Heq & Hpre) H. unfold nesting_inv.
  rewrite (take_S_r _ _ _ Hx), opens_snoc, closes_snoc.
  assert (Hmain :
    (1 ≤ length (loop_seq_count_stack st'))%nat
    ∧ (length (loop_seq_count_stack st')
       + (closes (take k l) + if is_loop (StepType x) then 1 else 0)
       = 1 + (opens (take k l) + if is_do (StepType x) then 1 else 0))%nat).
  { unfold sizing_step in H.
    destruct st as [cur counts wu bys us ig]. simpl in *.
    destruct (is_do (StepType x)) eqn:Edo;
      destruct (streq (StepType x) "AdvCycle") eqn:Eadv;
      destruct (is_loop (StepType x)) eqn:Eloop;
      try (rewrite (advcycle_not_do _ Eadv) in Edo; discriminate Edo);
      try (rewrite (advcycle_not_loop _ Eadv) in Eloop; discriminate Eloop);
      try (rewrite (is_do_not_loop _ Edo) in Eloop; discriminate Eloop).
    all: inv_ok H; injection H as <-; simpl.
    all: inv_stacks.
    all: simpl in *; lia. }
  destruct Hmain as [Hne' Heq']. split_and!; [done|done|].
  intros n Hn. destruct (decide (n = S k)) as [->|Hne2].
  - rewrite (take_S_r _ _ _ Hx), opens_snoc, closes_snoc. lia.
  - apply Hpre. lia.
Qed.

Section Nesting.

Variable steps : list TestStep.

Lemma sizing_loop_nesting (st : sizing_state) :
  sizing_loop steps = Ok st →
  nesting_inv (all_but_last steps) (length (all_but_last steps)) st.
Proof.
  intros H. unfold sizing_loop in H.
  apply (for_enumerate_inv _ (nesting_inv (all_but_last steps)) _ _ _ _ H).
  - unfold nesting_inv. simpl. split_and!; [lia|done|].
    intros n Hn. replace n with 0%nat by lia. done.
  - intros i x a a' Hx Ha Hb. simpl in *.
    by eapply sizing_step_nesting.
Qed.

Lemma conversion_sizing (blank_seq : seq_t) (seqs : list seq_t) :
  _create_biologic_seqs_from_maccor_ast blank_seq steps = Ok seqs →
  ∃ sz x,
    sizing_pass steps = Ok (sz, Z.of_nat (length seqs))
    ∧ sizing_loop steps = Ok sz
    ∧ length (loop_seq_count_stack sz) = 1%nat
    ∧ generation_pass blank_seq steps sz = Ok seqs
    ∧ last steps = Some x ∧ StepType x = "End".
Proof.
  unfold _create_biologic_seqs_from_maccor_ast. intros H.
  apply bind_Ok in H as ([sz n] & Hsz & H).
  apply bind_Ok in H as (seqs' & Hgen & H).
  apply bind_Ok in H as (? & Hn & H). injection H as ->.
  apply py_assert_Ok, Z.eqb_eq in Hn. subst n.
  pose proof Hsz as Hsz'.
  unfold sizing_pass in Hsz. inv_ok Hsz. simplify_eq.
  repeat match goal with
         | H : py_assert _ = Ok _ |- _ => apply py_assert_Ok in H
         end.
  destruct (last steps) as [last_step|] eqn:Hlast; [|done]. simplify_eq.
  eexists sz, _.
  split_and!; [done|done|by apply Nat.eqb_eq|done|reflexivity|].
  by apply streq_true.
Qed.

(** X12: a conversion returns only for a procedure whose Do and Loop
    steps are balanced and nested: before the final step there are as many
    Loop steps as Do steps, no prefix has more Loop steps than Do steps,
    and the final step is End. *)
Theorem loops_are_balanced (blank_seq : seq_t) (seqs : list seq_t) :
  _create_biologic_seqs_from_maccor_ast blank_seq steps = Ok seqs →
  closes (all_but_last steps) = opens (all_but_last steps)
  ∧ (∀ n, (closes (take n (all_but_last steps))
           ≤ opens (take n (all_but_last steps)))%nat)
  ∧ ∃ x, last steps = Some x ∧ StepType x = "End".
Proof.
  intros H.
  destruct (conversion_sizing _ _ H) as (sz & x & _ & Hsz & Hlen & _ & Hx).
  destruct (sizing_loop_nesting _ Hsz) as (_ & Heq & Hpre).
  rewrite firstn_all in Heq. split_and!; [lia| |by exists x].
  intros n.
  destruct (decide (n ≤ length (all_but_last steps))%nat) as [Hn|Hn].
  - by apply Hpre.
  - rewrite take_ge by lia. lia.
Qed.

End Nesting.

Lemma sizing_step_loop_status (steps : list TestStep) (k : nat)
    (x : TestStep) (st st' : sizing_state) :
  sizing_step steps k x st = Ok st' →
  is_loop (StepType x) = true →
  ∃ b, top (loop_will_unroll_stack st) = Ok b
       ∧ loop_unroll_status_by_idx st' !! k = Some b.
Proof.
  intros H Hloop. unfold sizing_step in H.
  destruct (is_do (StepType x)) eqn:Edo;
    [rewrite (is_do_not_loop _ Edo) in Hloop; discriminate Hloop|].
  destruct (streq (StepType x) "AdvCycle") eqn:Eadv;
    [rewrite (advcycle_not_loop _ Eadv) in Hloop; discriminate Hloop|].
  rewrite Hloop in H. simpl in H.
  inv_ok H; injection H as <-; simpl.
  all: eexists; split; [eassumption|]; by rewrite lookup_insert_eq.
Qed.

Lemma sizing_step_stacks (steps : list TestStep) (k : nat)
    (x : TestStep) (st st' : sizing_state) :
  sizing_step steps k x st = Ok st' →
  length (loop_will_unroll_stack st) = length (loop_seq_count_stack st) →
  Forall (λ b, b = true) (tail (loop_will_unroll_stack st)) →
  length (loop_will_unroll_stack st') = length (loop_seq_count_stack st')
  ∧ Forall (λ b, b = true) (tail (loop_will_unroll_stack st'))
  ∧ (is_do (StepType x) = false → StepType x ≠ "AdvCycle" →
     (∃ next, steps !! S k = Some next ∧ is_loop (StepType next) = true) →
     top (loop_will_unroll_stack st') = Ok true).
Proof.
  intros H Hlen Htail. unfold sizing_step in H.
  destruct st as [cur counts wu bys us ig]. simpl in *.
  apply bind_Ok in H as (next & Hnext & H).
  replace (k + 1)%nat with (S k) in Hnext by lia.
  destruct (steps !! S k) as [next'|] eqn:Enext; [|done].
  injection Hnext as ->.
  destruct (is_do (StepType x)) eqn:Edo;
    destruct (streq (StepType x) "AdvCycle") eqn:Eadv;
    destruct (is_loop (StepType x)) eqn:Eloop;
    destruct (is_loop (StepType next)) eqn:Elast;
    try (rewrite (advcycle_not_do _ Eadv) in Edo; discriminate Edo);
    try (rewrite (advcycle_not_loop _ Eadv) in Eloop; discriminate Eloop);
    try (rewrite (is_do_not_loop _ Edo) in Eloop; discriminate Eloop).
  all: inv_ok H; injection H as <-; simpl.
  all: inv_stacks.
  all: split_and!;
    [simpl in *; lia
    |simpl in *; try done; try (by constructor);
     try (by eapply Forall_inv_tail)
    |intros Hdo Hadv (next' & Hn & Hl); try done; simplify_eq;
     try (apply streq_true in Eadv; done)].
  all: try (destruct l0; simpl in *; [lia|]).
  all: try (destruct l; simpl in *; try done; by inversion Htail).
  all: try (inversion Htail; by subst).
  congruence.
Qed.

Section Unrolling.

Variable steps : list TestStep.

Lemma sizing_step_unroll (k : nat) (x : TestStep) (st st' : sizing_state) :
  steps !! k = Some x →
  unroll_inv steps k st →
  sizing_step steps k x st = Ok st' →
  unroll_inv steps (S k) st'.
Proof.
  intros Hx (Hlen & Htail & Htop & Hstat) H.
  destruct (sizing_step_stacks _ _ _ _ _ H Hlen Htail) as (Hlen' & Htail' & Htop').
  unfold unroll_inv. split_and!; [done|done| |].
  - intros p [= <-] (prev & lp & Hprev & Hlp & Hdo & Hadv & Hloop).
    rewrite Hx in Hprev. injection Hprev as <-.
    apply Htop'; eauto.
  - intros p Hp Hcl.
    destruct (decide (S p = k)) as [Hk|Hk].
    + pose proof Hcl as (prev & lp & Hprev & Hlp & Hdo & Hadv & Hloop).
      rewrite Hk, Hx in Hlp. injection Hlp as <-.
      destruct (sizing_step_loop_status _ _ _ _ _ H Hloop) as (b & Hb & Hs).
      rewrite (Htop p) in Hb by done. injection Hb as <-.
      by rewrite Hk.
    + destruct (sizing_step_frame _ _ (S p) _ _ _ H Hk) as [-> _].
      apply Hstat; [lia|done].
Qed.

Lemma sizing_loop_unroll (st : sizing_state) :
  sizing_loop steps = Ok st →
  unroll_inv steps (length (all_but_last steps)) st.
Proof.
  intros H. unfold sizing_loop in H.
  apply (for_enumerate_inv _ (unroll_inv steps) _ _ _ _ H).
  - unfold unroll_inv. simpl. split_and!; [done|constructor|done|].
    intros p Hp. lia.
  - intros i x a a' Hx Ha Hb. simpl in *.
    apply all_but_last_lookup in Hx as [Hx _].
    by eapply sizing_step_unroll.
Qed.

(** X13: when the first pass succeeds, a Loop step that comes right after
    a step that is neither a Do nor an advance-cycle step is marked to be
    unrolled ([will_unroll] is [True] at its index): a loop is kept native
    only when its Loop step follows a Do or an AdvCycle step. *)
Theorem loop_after_step_is_unrolled (sz : sizing_state) (n : Z) (p : nat) :
  sizing_pass steps = Ok (sz, n) →
  closes_after_step steps p →
  loop_unroll_status_by_idx sz !! S p = Some true.
Proof.
  intros H Hcl.
  assert (Hsz : sizing_loop steps = Ok sz
                ∧ ∃ x, last steps = Some x ∧ StepType x = "End").
  { unfold sizing_pass in H. inv_ok H. simplify_eq.
    repeat match goal with
           | H : py_assert _ = Ok _ |- _ => apply py_assert_Ok in H
           end.
    destruct (last steps) as [last_step|] eqn:Hlast; [|done]. simplify_eq.
    split; [done|]. eexists. split; [done|]. by apply streq_true. }
  destruct Hsz as (Hsz & x & Hlast & Hend).
  destruct (sizing_loop_unroll _ Hsz) as (_ & _ & _ & Hstat).
  apply Hstat; [|done].
  destruct Hcl as (prev & lp & Hprev & Hlp & _ & _ & Hloop).
  unfold all_but_last. rewrite length_take.
  pose proof (lookup_lt_Some _ _ _ Hlp) as Hlt.
  destruct (decide (S p = length steps - 1)%nat) as [Heq|Hne]; [|lia].
  rewrite last_lookup in Hlast.
  replace (Init.Nat.pred (length steps)) with (S p) in Hlast by lia.
  rewrite Hlp in Hlast. injection Hlast as ->.
  rewrite Hend in Hloop. discriminate Hloop.
Qed.

End Unrolling.

Lemma proc_step_gotos (blank_seq : seq_t) (step : TestStep) (step_num : Z)
    (by_step : gmap Z Z) (lb ub : Z) (s : seq_t) (i : nat) (e : EndEntry) :
  _proc_step_to_seq blank_seq step step_num by_step lb ub = Ok s →
  as_list (Ends step) !! i = Some e →
  ∃ goto_step_num,
    py_int_str (Step e) = Ok goto_step_num ∧ lb ≤ goto_step_num ≤ ub.
Proof.
  intros H Hi.
  destruct (proc_step_stages _ _ _ _ _ _ _ H)
    as (seq_num & s0 & s1 & s2 & _ & _ & _ & _ & Hends & _ & _).
  destruct (for_enumerate_elem _ _ _ _ _ _ _ Hends Hi) as (a & a' & Ha).
  apply proc_end_entry_bounds in Ha as (g & Hg & Hb & _). eauto.
Qed.

Lemma gen_step_physical (blank_seq : seq_t) (sz : sizing_state)
    (end_step_num : Z) (k : nat) (step : TestStep) (st st' : gen_state) :
  gen_step blank_seq sz end_step_num k step st = Ok st' →
  physical_step step →
  ∃ seq,
    _proc_step_to_seq blank_seq step (Z.of_nat k + 1)
      (seq_num_by_step_num sz) (step_num_goto_lower_bound st) end_step_num
    = Ok seq.
Proof.
  intros H (Hdo & Hloop & Hadv). unfold gen_step in H.
  apply bind_Ok in H as (seq_num & _ & H).
  rewrite Hdo, Hloop in H. simpl in H.
  destruct (streq (StepType step) "AdvCycle") eqn:E;
    [by apply streq_true in E|].
  apply bind_Ok in H as (seq & Hseq & _). eauto.
Qed.

Lemma gen_step_floor (blank_seq : seq_t) (steps : list TestStep)
    (sz : sizing_state) (end_step_num : Z) (k : nat) (x : TestStep)
    (st st' : gen_state) :
  steps !! k = Some x →
  goto_floor_inv steps k st →
  gen_step blank_seq sz end_step_num k x st = Ok st' →
  goto_floor_inv steps (S k) st'.
Proof.
  intros Hx [Hpos Hfloor] H.
  assert (Hcases :
    (step_num_goto_lower_bound st' = Z.of_nat k + 1)
    ∨ (step_num_goto_lower_bound st' = step_num_goto_lower_bound st
       ∧ is_do (StepType x) = false ∧ is_loop (StepType x) = false)).
  { unfold gen_step in H.
    apply bind_Ok in H as (seq_num & _ & H).
    destruct (is_do (StepType x)) eqn:Edo; [left; by injection H as <-|].
    assert (negb (Z.of_nat k + 1 =? 0) = true) as Hk
      by (apply negb_true_iff, Z.eqb_neq; lia).
    rewrite Hk, andb_true_r in H.
    destruct (is_loop (StepType x)) eqn:Eloop.
    { left. inv_ok H; by injection H as <-. }
    destruct (streq (StepType x) "AdvCycle") eqn:Eadv.
    - inv_ok H; injection H as <-; [by left|by right].
    - inv_ok H. injection H as <-. by right. }
  split.
  - destruct Hcases as [->|[-> _]]; lia.
  - intros j prev Hj Hprev Hdl.
    destruct Hcases as [->|(-> & Hdo & Hloop)]; [lia|].
    destruct (decide (j = k)) as [->|Hne].
    + rewrite Hx in Hprev. injection Hprev as <-.
      destruct Hdl; congruence.
    + apply (Hfloor j prev); [lia|done..].
Qed.

Section Gotos.

Variable blank_seq : seq_t.
Variable steps : list TestStep.

(** X14: in a successful conversion, the goto of every end-condition of a
    step handed to the step compiler is a step number between 0 and the
    number of steps, and is not below the step number of any Do or Loop
    step that comes before the step: no goto leaves backwards the loop
    body, or the stretch after a loop, that its step is in. *)
Theorem gotos_stay_inside_loops (seqs : list seq_t) (idx : nat)
    (step : TestStep) (i : nat) (e : EndEntry) :
  _create_biologic_seqs_from_maccor_ast blank_seq steps = Ok seqs →
  steps !! idx = Some step → (S idx < length steps)%nat →
  physical_step step →
  as_list (Ends step) !! i = Some e →
  ∃ goto_step_num,
    py_int_str (Step e) = Ok goto_step_num
    ∧ 0 ≤ goto_step_num ≤ Z.of_nat (length steps)
    ∧ ∀ j prev, (j < idx)%nat → steps !! j = Some prev →
        is_do (StepType prev) = true ∨ is_loop (StepType prev) = true →
        Z.of_nat j + 1 ≤ goto_step_num.
Proof.
  intros H Hstep Hidx Hphys Hi.
  destruct (conversion_inv _ _ _ H) as (sz & st & _ & Hgen & _).
  destruct (for_enumerate_inv_elem _ (goto_floor_inv steps) _ _ _ _
              idx step Hgen) as (a & a' & [Hpos Hfloor] & Ha).
  - split; [done|]. intros j prev Hj. lia.
  - intros k x b b' Hx Hb Hb'. simpl in *.
    apply all_but_last_lookup in Hx as [Hx _].
    by eapply gen_step_floor.
  - by apply lookup_all_but_last.
  - simpl in Ha.
    destruct (gen_step_physical _ _ _ _ _ _ _ Ha Hphys) as (seq & Hseq).
    destruct (proc_step_gotos _ _ _ _ _ _ _ _ _ Hseq Hi) as (g & Hg & Hb).
    exists g. split_and!; [done|lia|lia|].
    intros j prev Hj Hprev Hdl.
    specialize (Hfloor j prev Hj Hprev Hdl). lia.
Qed.

End Gotos.

Lemma sizing_loop_map_above (steps todo : list TestStep) (k : nat)
    (st st' : sizing_state) (key : Z) :
  for_enumerate (sizing_step steps) k todo st = Ok st' →
  Z.of_nat (k + length todo) < key →
  seq_num_by_step_num st' !! key = seq_num_by_step_num st !! key.
Proof.
  revert k st. induction todo as [|step todo IH]; intros k st H Hkey;
    simpl in H.
  - by injection H as <-.
  - apply bind_Ok in H as (st1 & H1 & H).
    rewrite (IH _ _ H) by (simpl in Hkey; lia).
    rewrite (sizing_step_map _ _ _ _ _ H1).
    apply lookup_insert_ne. simpl in Hkey. lia.
Qed.

(** X15: when the first pass succeeds, the step-to-sequence map sends
    the step number of the final End step to [END_SEQ_NUM] = 9999, so an
    end-condition whose goto is the End step is compiled to the goto index
    9999. *)
Theorem end_step_maps_to_end_seq (steps : list TestStep)
    (sz : sizing_state) (n : Z) :
  sizing_pass steps = Ok (sz, n) →
  seq_num_by_step_num sz !! Z.of_nat (length steps) = Some END_SEQ_NUM
  ∧ ∀ blank_seq step step_num lb s i e,
      _proc_step_to_seq blank_seq step step_num (seq_num_by_step_num sz)
        lb (Z.of_nat (length steps)) = Ok s →
      as_list (Ends step) !! i = Some e →
      py_int_str (Step e) = Ok (Z.of_nat (length steps)) →
      s !! lim_key (i + 1) "_seq" = Some (VInt END_SEQ_NUM).
Proof.
  intros H.
  assert (Hend : seq_num_by_step_num sz !! Z.of_nat (length steps)
                 = Some END_SEQ_NUM).
  { unfold sizing_pass in H. inv_ok H. simplify_eq.
    match goal with
    | Hs : for_enumerate (sizing_step _) _ _ _ = Ok _ |- _ =>
        rewrite (sizing_loop_map_above _ _ _ _ _ _ Hs)
    end.
    - simpl. by rewrite lookup_singleton_eq.
    - destruct (last steps) as [last_step|] eqn:Hlast; [|done].
      assert (length steps ≠ 0)%nat by (by destruct steps).
      unfold all_but_last. rewrite length_take. lia. }
  split; [done|].
  intros blank_seq step step_num lb s i e Hs Hi Hgoto.
  destruct (proc_step_limit_slot _ _ _ _ _ _ _ _ _ Hs Hi)
    as (g & gs & comp & Hg & Hgs & _ & _ & Hseq & _).
  rewrite Hgoto in Hg. injection Hg as <-.
  rewrite Hend in Hgs. injection Hgs as <-. done.
Qed.

Lemma covers_trans (a b c : seq_t) : covers a b → covers b c → covers a c.
Proof. intros Hab Hbc key Hkey. by apply Hbc, Hab. Qed.

Ltac solve_covers :=
  let key := fresh "key" in
  let Hkey := fresh "Hkey" in
  intros key Hkey;
  repeat (apply lookup_insert_is_Some'; right);
  exact Hkey.

Lemma proc_control_covers (step : TestStep) (s s' : seq_t) :
  proc_control step s = Ok s' → covers s s'.
Proof.
  unfold proc_control. intros H.
  repeat match type of H with
         | (if ?c then _ else _) = Ok _ => destruct c
         | match ?o with _ => _ end = Ok _ => destruct o
         | _ => progress inv_ok H
         end;
    try discriminate H; injection H as <-; solve_covers.
Qed.

Lemma proc_end_entry_covers (step_num : Z) (by_step : gmap Z Z) (lb ub : Z)
    (idx : nat) (e : EndEntry) (s s' : seq_t) :
  proc_end_entry step_num by_step lb ub idx e s = Ok s' → covers s s'.
Proof.
  unfold proc_end_entry. intros H.
  apply bind_Ok in H as (goto_step & Hgoto & H).
  destruct (_ || _); [discriminate|].
  destruct (by_step !! goto_step) as [goto_seq|] eqn:Hseq; [|discriminate].
  inv_ok H.
  all: destruct (negb (goto_step =? step_num + 1)); simpl in H.
  all: injection H as <-; solve_covers.
Qed.

Lemma proc_report_entry_covers (idx : nat) (r : ReportEntry) (s s' : seq_t) :
  proc_report_entry idx r s = Ok s' → covers s s'.
Proof.
  unfold proc_report_entry. intros H.
  inv_ok H; injection H as <-; solve_covers.
Qed.

Lemma for_enumerate_covers {A} (body : nat → A → seq_t → result seq_t)
    (l : list A) (i0 : nat) (s s' : seq_t) :
  (∀ i x a a', body i x a = Ok a' → covers a a') →
  for_enumerate body i0 l s = Ok s' → covers s s'.
Proof.
  intros Hbody. revert i0 s.
  induction l as [|x l IH]; intros i0 s H; simpl in H.
  - injection H as <-. by intros key Hkey.
  - apply bind_Ok in H as (s1 & H1 & H).
    eapply covers_trans; [by eapply Hbody|by eapply IH].
Qed.

Lemma proc_step_covers (blank_seq : seq_t) (step : TestStep) (step_num : Z)
    (by_step : gmap Z Z) (lb ub : Z) (s : seq_t) :
  _proc_step_to_seq blank_seq step step_num by_step lb ub = Ok s →
  covers blank_seq s.
Proof.
  intros H.
  destruct (proc_step_stages _ _ _ _ _ _ _ H)
    as (seq_num & s0 & s1 & s2 & _ & -> & Hctl & _ & Hends & _ & Hreps).
  eapply covers_trans; [|eapply for_enumerate_covers; [|exact Hreps]].
  2:{ intros i x a a'. apply proc_report_entry_covers. }
  eapply covers_trans; [|solve_covers].
  eapply covers_trans; [|eapply for_enumerate_covers; [|exact Hends]].
  2:{ intros i x a a'. apply proc_end_entry_covers. }
  eapply covers_trans; [|solve_covers].
  eapply covers_trans; [|by eapply proc_control_covers].
  solve_covers.
Qed.

Lemma create_loop_seq_covers (blank_seq : seq_t) (a b c : Z) :
  covers blank_seq (_create_loop_seq blank_seq a b c).
Proof. unfold _create_loop_seq. solve_covers. Qed.

Lemma unroll_seq_covers (shift lo hi : Z) (r r' : seq_t) :
  unroll_seq shift lo hi r = Ok r' → covers r r'.
Proof.
  unfold unroll_seq. intros H.
  apply bind_Ok in H as (v & Hv & H).
  apply bind_Ok in H as (v' & Hv' & H).
  apply bind_Ok in H as (u1 & H1 & H).
  apply bind_Ok in H as (u2 & H2 & H3).
  assert (Hgoto : ∀ u u' j, unroll_goto r shift lo hi u j = Ok u' →
                            covers u u').
  { intros u u' j Hu. unfold unroll_goto in Hu.
    inv_ok Hu; injection Hu as <-; solve_covers. }
  eapply covers_trans; [|by eapply Hgoto].
  eapply covers_trans; [|by eapply Hgoto].
  eapply covers_trans; [|by eapply Hgoto].
  solve_covers.
Qed.

Lemma unroll_loop_covers (blank_seq : seq_t) (loop unrolled : list seq_t)
    (num_loops lo hi : Z) :
  Forall (covers blank_seq) loop →
  _unroll_loop loop num_loops lo hi = Ok unrolled →
  Forall (covers blank_seq) unrolled.
Proof.
  intros Hloop H. unfold _unroll_loop in H.
  apply bind_Ok in H as (u & Hu & H).
  apply bind_Ok in H as (? & _ & H). injection H as <-.
  apply unroll_copies_inv in Hu as (blocks & -> & Hblocks).
  apply Forall_app. split; [done|].
  apply Forall_concat. apply Forall_forall. intros block Hblock.
  apply list_elem_of_lookup in Hblock as [n Hn].
  destruct (Forall2_lookup_r _ _ _ _ _ Hblocks Hn) as (i & _ & Hi).
  apply Forall_lookup. intros k y Hy.
  destruct (Forall2_lookup_r _ _ _ _ _ Hi Hy) as (orig & Horig & Hcopy).
  eapply covers_trans; [|by eapply unroll_seq_covers].
  by eapply (Forall_lookup_1 _ _ _ _ Hloop).
Qed.

Lemma gen_step_covers (blank_seq : seq_t) (sz : sizing_state)
    (end_step_num : Z) (k : nat) (step : TestStep) (st st' : gen_state) :
  gen_step blank_seq sz end_step_num k step st = Ok st' →
  Forall (Forall (covers blank_seq)) (seq_loop_stack st) →
  Forall (Forall (covers blank_seq)) (seq_loop_stack st').
Proof.
  intros H Hst. unfold gen_step in H.
  destruct st as [stack starts lb]. simpl in *.
  apply bind_Ok in H as (seq_num & _ & H).
  destruct (is_do (StepType step)) eqn:Edo.
  { injection H as <-. simpl. by constructor. }
  destruct (is_loop (StepType step) && negb (Z.of_nat k + 1 =? 0)) eqn:Eloop.
  { inv_ok H; injection H as <-; simpl.
    inv_stacks.
    apply Forall_cons in Hst as [Hloop Hst].
    apply Forall_cons in Hst as [Hl1 Hst].
    constructor; [|done]. apply Forall_app. split; [done|].
    match goal with
    | Hl : (if ?b then _ else _) = Ok _ |- _ =>
        destruct b;
        [apply bind_Ok in Hl as (u & Hu & Hl);
         apply bind_Ok in Hl as (? & _ & Hl); injection Hl as <-;
         eapply unroll_loop_covers; [exact Hloop|exact Hu]
        |injection Hl as <-]
    end.
    apply Forall_app. split; [done|].
    constructor; [|done]. apply create_loop_seq_covers. }
  destruct (streq (StepType step) "AdvCycle") eqn:Eadv.
  { inv_ok H; [|by injection H as <-].
    unfold _create_advance_cyle_seqs in *.
    match goal with
    | Ha : (if _ then _ else _) = Ok _ |- _ => inv_ok Ha
    end.
    injection H as <-. simpl. inv_stacks.
    apply Forall_cons in Hst as [Hl Hst]. constructor; [|done].
    rewrite !Forall_app. split_and!; [done|..];
      (constructor; [apply create_loop_seq_covers|done]). }
  inv_ok H. injection H as <-. simpl.
  match goal with
  | Hp : _proc_step_to_seq _ _ _ _ _ _ = Ok _ |- _ =>
      apply proc_step_covers in Hp
  end.
  inv_stacks. apply Forall_cons in Hst as [Hl Hst]. constructor; [|done].
  apply Forall_app. split; [done|]. by constructor.
Qed.

(** X16: every record of a successful conversion has every field of the
    template [blank_seq]: compiled steps, synthesized loop records and
    unrolled copies only add or overwrite fields. *)
Theorem records_have_template_fields (blank_seq : seq_t)
    (steps : list TestStep) (seqs : list seq_t) (r : seq_t) (key : string) :
  _create_biologic_seqs_from_maccor_ast blank_seq steps = Ok seqs →
  r ∈ seqs → is_Some (blank_seq !! key) → is_Some (r !! key).
Proof.
  intros H Hr Hkey.
  destruct (conversion_inv _ _ _ H) as (sz & st & _ & Hgen & Hst & _).
  pose proof (for_enumerate_inv _
                (λ _ st, Forall (Forall (covers blank_seq))
                                (seq_loop_stack st))
                _ _ _ _ Hgen) as Hinv.
  simpl in Hinv. rewrite Hst in Hinv.
  assert (Hall : Forall (Forall (covers blank_seq)) [seqs]).
  { apply Hinv; [by repeat constructor|].
    intros i x a a' _ Ha Hb. by eapply gen_step_covers. }
  apply Forall_cons in Hall as [Hall _].
  rewrite Forall_forall in Hall. by apply (Hall r Hr).
Qed.

Lemma all_but_last_cons {A} (a b : A) (l : list A) :
  all_but_last (a :: b :: l) = a :: all_but_last (b :: l).
Proof. unfold all_but_last. simpl. by rewrite Nat.sub_0_r. Qed.

(** X17: a procedure whose first step is AdvCycle is never converted:
    either the planner fails on an unbalanced Loop step, or
    [_create_advance_cyle_seqs] is called with sequence index 0 and
    raises. *)
Theorem adv_cycle_first_fails (blank_seq : seq_t) (steps : list TestStep)
    (step : TestStep) :
  steps !! 0%nat = Some step → StepType step = "AdvCycle" →
  is_Err (_create_biologic_seqs_from_maccor_ast blank_seq steps).
Proof.
  intros Hstep Hadv.
  destruct (_create_biologic_seqs_from_maccor_ast blank_seq steps)
    as [seqs|err] eqn:H; [exfalso|by exists err].
  destruct (conversion_sizing _ _ _ H)
    as (sz & x & _ & Hsz & _ & _ & Hlast & Hend).
  destruct (conversion_inv _ _ _ H) as (sz' & st & Hsz' & Hgen & _).
  pose proof (sizing_loop_nesting _ _ Hsz) as (_ & _ & Hpre).
  unfold sizing_loop in Hsz. rewrite Hsz in Hsz'. injection Hsz' as <-.
  destruct steps as [|s0 [|r rest]]; [done| |].
  { simpl in *. simplify_eq. rewrite Hadv in Hend. discriminate Hend. }
  simpl in Hstep. injection Hstep as ->.
  rewrite all_but_last_cons in Hsz, Hgen, Hpre.
  simpl in Hsz, Hgen.
  apply bind_Ok in Hsz as (t1 & Ht1 & Hsz).
  apply bind_Ok in Hgen as (t2 & Ht2 & Hgen).
  pose proof (sizing_step_map _ _ _ _ _ Ht1) as Hmap.
  destruct (sizing_loop_frame _ _ _ 0%nat _ _ Hsz ltac:(lia)) as [_ Hign].
  pose proof (sizing_loop_map_frame _ _ _ _ _ 1 Hsz ltac:(lia)) as Hkey.
  rewrite Hmap in Hkey. simpl in Hkey. rewrite lookup_insert_eq in Hkey.
  unfold gen_step in Ht2. unfold getitem in Ht2.
  change (Z.of_nat 0 + 1) with 1 in Ht2.
  rewrite Hkey, Hadv in Ht2. simpl in Ht2.
  unfold sizing_step in Ht1. simpl in Ht1. rewrite Hadv in Ht1.
  simpl in Ht1.
  destruct (is_loop (StepType r)) eqn:Eloop; simpl in Ht1.
  - destruct rest as [|r2 rest].
    { simpl in Hlast. injection Hlast as ->.
      rewrite Hend in Eloop. discriminate Eloop. }
    rewrite all_but_last_cons in Hpre.
    specialize (Hpre 2%nat ltac:(simpl; lia)).
    simpl in Hpre. unfold closes, opens in Hpre. simpl in Hpre.
    rewrite Hadv, Eloop in Hpre. simpl in Hpre.
    destruct (is_do (StepType r)) eqn:Edo;
      [rewrite (is_do_not_loop _ Edo) in Eloop; discriminate Eloop|].
    simpl in Hpre. lia.
  - injection Ht1 as <-. simpl in Hign.
    rewrite lookup_insert_eq in Hign. rewrite Hign in Ht2.
    simpl in Ht2. discriminate Ht2.
Qed.

(** ** Instances of the further properties *)

Lemma lookup_present {A} (l : list A) (k : nat) (d : A) :
  (k <? length l)%nat = true → l !! k = Some (default d (l !! k)).
Proof.
  intros H%Nat.ltb_lt. by destruct (lookup_lt_is_Some_2 l k H) as [x ->].
Qed.

Lemma records_numbered_by_position_witness :
  _create_biologic_seqs_from_maccor_ast ∅ goto_over_do_procedure
  = Ok goto_over_do_records
  ∧ goto_over_do_records !! 4%nat = Some goto_over_do_last
  ∧ goto_over_do_last !! "Ns" = Some (VInt (Z.of_nat 4)).
Proof.
  assert (H1 : _create_biologic_seqs_from_maccor_ast ∅ goto_over_do_procedure
               = Ok goto_over_do_records)
    by (apply succeeds_Ok; vm_compute; reflexivity).
  assert (H2 : goto_over_do_records !! 4%nat = Some goto_over_do_last)
    by (apply lookup_present; vm_compute; reflexivity).
  split; [exact H1|]. split; [exact H2|].
  exact (records_numbered_by_position ∅ goto_over_do_procedure
           goto_over_do_records 4 goto_over_do_last H1 H2).
Defined.

Lemma sizing_total_is_stack_sum_witness :
  sizing_loop goto_over_do_procedure = Ok goto_over_do_sizing
  ∧ curr_seq_num goto_over_do_sizing
    = total (loop_seq_count_stack goto_over_do_sizing)
  ∧ (length (loop_seq_count_stack goto_over_do_sizing) = 1%nat →
     pop (loop_seq_count_stack goto_over_do_sizing)
     = Ok (curr_seq_num goto_over_do_sizing, [])).
Proof.
  assert (H1 : sizing_loop goto_over_do_procedure = Ok goto_over_do_sizing)
    by (apply succeeds_Ok; vm_compute; reflexivity).
  split; [exact H1|].
  exact (sizing_total_is_stack_sum goto_over_do_procedure
           goto_over_do_sizing H1).
Defined.

Lemma loops_are_balanced_witness :
  _create_biologic_seqs_from_maccor_ast ∅ goto_over_do_procedure
  = Ok goto_over_do_records
  ∧ closes (all_but_last goto_over_do_procedure)
    = opens (all_but_last goto_over_do_procedure)
  ∧ (∀ n, (closes (take n (all_but_last goto_over_do_procedure))
           ≤ opens (take n (all_but_last goto_over_do_procedure)))%nat)
  ∧ ∃ x, last goto_over_do_procedure = Some x ∧ StepType x = "End".
Proof.
  assert (H1 : _create_biologic_seqs_from_maccor_ast ∅ goto_over_do_procedure
               = Ok goto_over_do_records)
    by (apply succeeds_Ok; vm_compute; reflexivity).
  split; [exact H1|].
  exact (loops_are_balanced goto_over_do_procedure ∅ goto_over_do_records H1).
Defined.

Lemma loop_after_step_is_unrolled_witness :
  sizing_pass goto_over_do_procedure = Ok (goto_over_do_sizing, 5)
  ∧ closes_after_step goto_over_do_procedure 3
  ∧ loop_unroll_status_by_idx goto_over_do_sizing !! 4%nat = Some true.
Proof.
  assert (H1 : sizing_pass goto_over_do_procedure
               = Ok (goto_over_do_sizing, 5)) by (vm_compute; reflexivity).
  assert (H2 : closes_after_step goto_over_do_procedure 3).
  { exists (rest_step "005"), (loop_step "Loop 1" "1").
    split_and!; [reflexivity..|discriminate|reflexivity]. }
  split; [exact H1|]. split; [exact H2|].
  exact (loop_after_step_is_unrolled goto_over_do_procedure
           goto_over_do_sizing 5 3 H1 H2).
Defined.

Lemma gotos_stay_inside_loops_witness :
  _create_biologic_seqs_from_maccor_ast ∅ goto_over_do_procedure
  = Ok goto_over_do_records
  ∧ goto_over_do_procedure !! 2%nat = Some (rest_step "004")
  ∧ (3 < length goto_over_do_procedure)%nat
  ∧ physical_step (rest_step "004")
  ∧ as_list (Ends (rest_step "004")) !! 0%nat
    = Some {| EndType := "StepTime"; Oper := "="; Value := "00:00:10";
              Step := "004" |}
  ∧ ∃ goto_step_num,
      py_int_str "004" = Ok goto_step_num
      ∧ 0 ≤ goto_step_num ≤ Z.of_nat (length goto_over_do_procedure)
      ∧ ∀ j prev, (j < 2)%nat → goto_over_do_procedure !! j = Some prev →
          is_do (StepType prev) = true ∨ is_loop (StepType prev) = true →
          Z.of_nat j + 1 ≤ goto_step_num.
Proof.
  assert (H1 : _create_biologic_seqs_from_maccor_ast ∅ goto_over_do_procedure
               = Ok goto_over_do_records)
    by (apply succeeds_Ok; vm_compute; reflexivity).
  assert (H2 : (3 < length goto_over_do_procedure)%nat) by (simpl; lia).
  assert (H3 : physical_step (rest_step "004")).
  { split_and!; [reflexivity..|discriminate]. }
  split; [exact H1|]. split; [reflexivity|]. split; [exact H2|].
  split; [exact H3|]. split; [reflexivity|].
  exact (gotos_stay_inside_loops ∅ goto_over_do_procedure
           goto_over_do_records 2 (rest_step "004") 0 _
           H1 eq_refl H2 H3 eq_refl).
Defined.

Lemma end_step_maps_to_end_seq_witness :
  sizing_pass native_loop_procedure = Ok (native_loop_sizing, 2)
  ∧ seq_num_by_step_num native_loop_sizing
      !! Z.of_nat (length native_loop_procedure) = Some END_SEQ_NUM
  ∧ ∀ blank_seq step step_num lb s i e,
      _proc_step_to_seq blank_seq step step_num
        (seq_num_by_step_num native_loop_sizing)
        lb (Z.of_nat (length native_loop_procedure)) = Ok s →
      as_list (Ends step) !! i = Some e →
      py_int_str (Step e) = Ok (Z.of_nat (length native_loop_procedure)) →
      s !! lim_key (i + 1) "_seq" = Some (VInt END_SEQ_NUM).
Proof.
  assert (H1 : sizing_pass native_loop_procedure
               = Ok (native_loop_sizing, 2)) by (vm_compute; reflexivity).
  split; [exact H1|].
  exact (end_step_maps_to_end_seq native_loop_procedure native_loop_sizing
           2 H1).
Defined.

Lemma records_have_template_fields_witness :
  _create_biologic_seqs_from_maccor_ast sample_template adv_cycle_procedure
  = Ok adv_cycle_records
  ∧ adv_cycle_blank_loop ∈ adv_cycle_records
  ∧ is_Some (sample_template !! "Bandwidth")
  ∧ is_Some (adv_cycle_blank_loop !! "Bandwidth").
Proof.
  assert (H1 : _create_biologic_seqs_from_maccor_ast sample_template
                 adv_cycle_procedure = Ok adv_cycle_records)
    by (apply succeeds_Ok; vm_compute; reflexivity).
  assert (H2 : adv_cycle_blank_loop ∈ adv_cycle_records).
  { apply (list_elem_of_lookup_2 _ 1%nat).
    apply lookup_present. vm_compute. reflexivity. }
  assert (H3 : is_Some (sample_template !! "Bandwidth")).
  { exists (VInt 4). vm_compute. reflexivity. }
  split; [exact H1|]. split; [exact H2|]. split; [exact H3|].
  exact (records_have_template_fields sample_template adv_cycle_procedure
           adv_cycle_records adv_cycle_blank_loop "Bandwidth" H1 H2 H3).
Defined.

Lemma adv_cycle_first_fails_witness :
  adv_cycle_first_procedure !! 0%nat = Some (control_step "AdvCycle")
  ∧ StepType (control_step "AdvCycle") = "AdvCycle"
  ∧ is_Err (_create_biologic_seqs_from_maccor_ast ∅
              adv_cycle_first_procedure).
Proof.
  split; [reflexivity|]. split; [reflexivity|].
  exact (adv_cycle_first_fails ∅ adv_cycle_first_procedure
           (control_step "AdvCycle") eq_refl eq_refl).
Defined.

(** * Properties of the serializer *)

Lemma append_assoc (a b c : string) : (a +:+ b) +:+ c = a +:+ (b +:+ c).
Proof.
  induction a as [|x a IH]; [done|].
  change (String x ((a +:+ b) +:+ c) = String x (a +:+ (b +:+ c))).
  by rewrite IH.
Qed.

Lemma append_empty_r (a : string) : a +:+ EmptyString = a.
Proof.
  induction a as [|x a IH]; [done|].
  change (String x (a +:+ EmptyString) = String x a). by rewrite IH.
Qed.

Lemma chars_append (a b : string) : chars (a +:+ b) = chars a ++ chars b.
Proof.
  induction a as [|x a IH]; [done|].
  change (x :: chars (a +:+ b) = x :: (chars a ++ chars b)). by rewrite IH.
Qed.

Lemma py_len_append (a b : string) :
  py_len (a +:+ b) = (py_len a + py_len b)%nat.
Proof.
  unfold py_len. by rewrite chars_append, List.filter_app, length_app.
Qed.

Lemma py_len_spaces (n : nat) : py_len (spaces n) = n.
Proof.
  induction n as [|n IH]; [done|].
  unfold py_len in *. simpl. by rewrite IH.
Qed.

Lemma py_len_ljust (s : string) (width : Z) :
  Z.of_nat (py_len s) ≤ width →
  Z.of_nat (py_len (ljust s width)) = width.
Proof.
  intros H. unfold ljust. rewrite py_len_append, py_len_spaces. lia.
Qed.

Lemma field_cells_inv (key : string) (col_width : Z) (seqs : list seq_t)
    (i0 : nat) (acc out : string) :
  for_enumerate (field_cell key col_width) i0 seqs acc = Ok out →
  out = acc +:+ concat_strings (map (table_cell key col_width) seqs)
  ∧ ∀ seq, seq ∈ seqs →
      ∃ v, seq !! key = Some v ∧ Z.of_nat (py_len (py_str v)) ≤ col_width.
Proof.
  revert i0 acc. induction seqs as [|seq seqs IH]; intros i0 acc H;
    simpl in H.
  - injection H as <-. simpl. rewrite append_empty_r. split; [done|].
    intros seq Hseq. by apply elem_of_nil in Hseq.
  - apply bind_Ok in H as (acc' & Hcell & H).
    unfold field_cell in Hcell.
    destruct (seq !! key) as [v|] eqn:Hv; [|done].
    destruct (col_width <? _) eqn:Hw; [done|]. injection Hcell as <-.
    apply Z.ltb_ge in Hw.
    assert (Hc : table_cell key col_width seq = ljust (py_str v) col_width)
      by (unfold table_cell; by rewrite Hv).
    destruct (IH _ _ H) as [-> Hfit]. split.
    + simpl. by rewrite Hc, append_assoc.
    + intros seq' [->|Hseq']%elem_of_cons; [eauto|by apply Hfit].
Qed.

Lemma field_cells_fit (key : string) (col_width : Z) (seqs : list seq_t)
    (i0 : nat) (acc : string) :
  (∀ seq, seq ∈ seqs →
     ∃ v, seq !! key = Some v ∧ Z.of_nat (py_len (py_str v)) ≤ col_width) →
  for_enumerate (field_cell key col_width) i0 seqs acc
  = Ok (acc +:+ concat_strings (map (table_cell key col_width) seqs)).
Proof.
  revert i0 acc. induction seqs as [|seq seqs IH]; intros i0 acc Hfit; simpl.
  - by rewrite append_empty_r.
  - destruct (Hfit seq) as (v & Hv & Hw); [by left|].
    assert (Hcell : field_cell key col_width i0 seq acc
                    = Ok (acc +:+ ljust (py_str v) col_width)).
    { unfold field_cell. rewrite Hv. apply Z.ltb_ge in Hw. by rewrite Hw. }
    rewrite Hcell. simpl.
    assert (Hc : table_cell key col_width seq = ljust (py_str v) col_width)
      by (unfold table_cell; by rewrite Hv).
    rewrite IH by (intros seq' Hseq'; apply Hfit; by right).
    simpl. by rewrite Hc, append_assoc.
Qed.

Lemma field_lines_inv (seqs : list seq_t) (col_width : Z)
    (keys : list string) (acc out : string) :
  for_each (field_line seqs col_width) keys acc = Ok out →
  out = acc +:+ table keys col_width seqs ∧ fits keys col_width seqs.
Proof.
  revert acc. induction keys as [|key keys IH]; intros acc H; simpl in H.
  - injection H as <-. unfold table. simpl. rewrite append_empty_r.
    split; [done|]. intros key Hkey. by apply elem_of_nil in Hkey.
  - apply bind_Ok in H as (acc' & Hline & H).
    unfold field_line in Hline.
    destruct (col_width <? _) eqn:Hw; [done|]. apply Z.ltb_ge in Hw.
    apply bind_Ok in Hline as (field_row & Hrow & Hline).
    injection Hline as <-.
    apply field_cells_inv in Hrow as [-> Hcells].
    destruct (IH _ H) as [-> Hfit]. split.
    + unfold table. simpl. unfold table_line.
      by rewrite !append_assoc.
    + intros key' [->|Hkey']%elem_of_cons; [done|by apply Hfit].
Qed.

Lemma field_lines_fit (seqs : list seq_t) (col_width : Z)
    (keys : list string) (acc : string) :
  fits keys col_width seqs →
  for_each (field_line seqs col_width) keys acc
  = Ok (acc +:+ table keys col_width seqs).
Proof.
  revert acc. induction keys as [|key keys IH]; intros acc Hfit; simpl.
  - unfold table. simpl. by rewrite append_empty_r.
  - destruct (Hfit key) as [Hw Hcells]; [by left|].
    assert (Hline : field_line seqs col_width key acc
                    = Ok (acc +:+ (table_line key col_width seqs))).
    { unfold field_line. apply Z.ltb_ge in Hw. rewrite Hw.
      rewrite (field_cells_fit _ _ _ _ _ Hcells). simpl.
      unfold table_line. by rewrite !append_assoc. }
    rewrite Hline. simpl.
    rewrite IH by (intros key' Hkey'; apply Hfit; by right).
    unfold table. simpl. by rewrite !append_assoc.
Qed.

Lemma table_line_width (key : string) (col_width : Z) (seqs : list seq_t) :
  Z.of_nat (py_len key) ≤ col_width →
  (∀ seq, seq ∈ seqs →
     ∃ v, seq !! key = Some v ∧ Z.of_nat (py_len (py_str v)) ≤ col_width) →
  Z.of_nat (py_len (table_line key col_width seqs))
  = col_width * (1 + Z.of_nat (length seqs)) + 2.
Proof.
  intros Hw Hcells. unfold table_line.
  rewrite !py_len_append.
  assert (Hrow : Z.of_nat (py_len (concat_strings
                                     (map (table_cell key col_width) seqs)))
                 = col_width * Z.of_nat (length seqs)).
  { induction seqs as [|seq seqs IH]; simpl; [by rewrite Z.mul_0_r|].
    rewrite py_len_append.
    destruct (Hcells seq) as (v & Hv & Hvw); [by left|].
    rewrite Nat2Z.inj_add, IH by (intros s Hs; apply Hcells; by right).
    unfold table_cell. rewrite Hv. simpl.
    rewrite (py_len_ljust _ _ Hvw). lia. }
  rewrite !Nat2Z.inj_add, Hrow, (py_len_ljust _ _ Hw).
  change (Z.of_nat (py_len crlf)) with 2. lia.
Qed.

(** X18: when the serializer returns, the conversion has returned its
    records and the string is the fixed header followed by one line per
    template key, in the order of the keys: the key and then the field of
    every record, each padded with spaces to [col_width], and ["\r\n"].
    Every key and every written field has at most [col_width] characters,
    so every line of the table has [col_width] characters for each of its
    1 + len(seqs) columns, and two for the line end. *)
Theorem protocol_str_layout (blank_keys : list string) (blank_seq : seq_t)
    (steps : list TestStep) (col_width : Z) (file_str : string) :
  maccor_ast_to_protocol_str blank_keys blank_seq steps col_width
  = Ok file_str →
  ∃ seqs,
    _create_biologic_seqs_from_maccor_ast blank_seq steps = Ok seqs
    ∧ file_str = file_header +:+ table blank_keys col_width seqs
    ∧ fits blank_keys col_width seqs
    ∧ ∀ key, key ∈ blank_keys →
        Z.of_nat (py_len (table_line key col_width seqs))
        = col_width * (1 + Z.of_nat (length seqs)) + 2.
Proof.
  unfold maccor_ast_to_protocol_str. intros H.
  apply bind_Ok in H as (seqs & Hseqs & H).
  apply field_lines_inv in H as [-> Hfit].
  exists seqs. split_and!; [done..|].
  intros key Hkey. destruct (Hfit key Hkey) as [Hw Hcells].
  by apply table_line_width.
Qed.

(** X19: when the listed keys are fields of the template, the conversion
    returns, and every key and every field to be written has at most
    [col_width] characters, the serializer returns the header followed by
    the table; in particular its check for a field missing from a record
    never fires. *)
Theorem protocol_str_returns (blank_keys : list string) (blank_seq : seq_t)
    (steps : list TestStep) (col_width : Z) (seqs : list seq_t) :
  (∀ key, key ∈ blank_keys → is_Some (blank_seq !! key)) →
  _create_biologic_seqs_from_maccor_ast blank_seq steps = Ok seqs →
  (∀ key, key ∈ blank_keys → Z.of_nat (py_len key) ≤ col_width) →
  (∀ seq key v, seq ∈ seqs → key ∈ blank_keys → seq !! key = Some v →
     Z.of_nat (py_len (py_str v)) ≤ col_width) →
  maccor_ast_to_protocol_str blank_keys blank_seq steps col_width
  = Ok (file_header +:+ table blank_keys col_width seqs).
Proof.
  intros Hkeys Hseqs Hw Hcells. unfold maccor_ast_to_protocol_str.
  rewrite Hseqs. simpl. apply field_lines_fit.
  intros key Hkey. split; [by apply Hw|].
  intros seq Hseq.
  assert (Hfield : is_Some (seq !! key)).
  { destruct (conversion_inv _ _ _ Hseqs) as (sz & st & _ & Hgen & Hst & _).
    pose proof (for_enumerate_inv _
                  (λ _ st, Forall (Forall (covers blank_seq))
                                  (seq_loop_stack st))
                  _ _ _ _ Hgen) as Hinv.
    simpl in Hinv. rewrite Hst in Hinv.
    assert (Hall : Forall (Forall (covers blank_seq)) [seqs]).
    { apply Hinv; [by repeat constructor|].
      intros i x a a' _ Ha Hb. by eapply gen_step_covers. }
    apply Forall_cons in Hall as [Hall _].
    rewrite Forall_forall in Hall. apply (Hall seq Hseq). by apply Hkeys. }
  destruct Hfield as [v Hv]. exists v. split; [done|]. by eapply Hcells.
Qed.

Lemma cells_fit_sound (keys : list string) (col_width : Z)
    (seqs : list seq_t) :
  cells_fit keys col_width seqs = true →
  ∀ seq key v, seq ∈ seqs → key ∈ keys → seq !! key = Some v →
    Z.of_nat (py_len (py_str v)) ≤ col_width.
Proof.
  unfold cells_fit. intros H seq key v Hseq Hkey Hv.
  rewrite forallb_forall in H.
  apply list_elem_of_In in Hseq. specialize (H _ Hseq).
  rewrite forallb_forall in H.
  apply list_elem_of_In in Hkey. specialize (H _ Hkey).
  rewrite Hv in H. by apply Z.leb_le.
Qed.

Lemma protocol_str_layout_witness :
  maccor_ast_to_protocol_str sample_keys sample_template
    adv_cycle_procedure 20 = Ok sample_protocol_str
  ∧ ∃ seqs,
      _create_biologic_seqs_from_maccor_ast sample_template
        adv_cycle_procedure = Ok seqs
      ∧ sample_protocol_str = file_header +:+ table sample_keys 20 seqs
      ∧ fits sample_keys 20 seqs
      ∧ ∀ key, key ∈ sample_keys →
          Z.of_nat (py_len (table_line key 20 seqs))
          = 20 * (1 + Z.of_nat (length seqs)) + 2.
Proof.
  assert (H1 : maccor_ast_to_protocol_str sample_keys sample_template
                 adv_cycle_procedure 20 = Ok sample_protocol_str)
    by (apply succeeds_Ok; vm_compute; reflexivity).
  split; [exact H1|].
  exact (protocol_str_layout sample_keys sample_template
           adv_cycle_procedure 20 sample_protocol_str H1).
Defined.

Lemma protocol_str_returns_witness :
  (∀ key, key ∈ sample_keys → is_Some (sample_template !! key))
  ∧ _create_biologic_seqs_from_maccor_ast sample_template
      adv_cycle_procedure = Ok adv_cycle_records
  ∧ (∀ key, key ∈ sample_keys → Z.of_nat (py_len key) ≤ 20)
  ∧ (∀ seq key v, seq ∈ adv_cycle_records → key ∈ sample_keys →
       seq !! key = Some v → Z.of_nat (py_len (py_str v)) ≤ 20)
  ∧ maccor_ast_to_protocol_str sample_keys sample_template
      adv_cycle_procedure 20
    = Ok (file_header +:+ table sample_keys 20 adv_cycle_records).
Proof.
  assert (H1 : ∀ key, key ∈ sample_keys → is_Some (sample_template !! key)).
  { intros key Hkey. unfold sample_keys in Hkey.
    repeat (apply elem_of_cons in Hkey as [->|Hkey]);
      [..|by apply elem_of_nil in Hkey];
      apply (bool_decide_unpack _); vm_compute; exact I. }
  assert (H2 : _create_biologic_seqs_from_maccor_ast sample_template
                 adv_cycle_procedure = Ok adv_cycle_records)
    by (apply succeeds_Ok; vm_compute; reflexivity).
  assert (H3 : ∀ key, key ∈ sample_keys → Z.of_nat (py_len key) ≤ 20).
  { intros key Hkey. unfold sample_keys in Hkey.
    repeat (apply elem_of_cons in Hkey as [->|Hkey]);
      [..|by apply elem_of_nil in Hkey];
      apply Z.leb_le; vm_compute; reflexivity. }
  assert (H4 : ∀ seq key v, seq ∈ adv_cycle_records → key ∈ sample_keys →
                 seq !! key = Some v → Z.of_nat (py_len (py_str v)) ≤ 20)
    by (apply cells_fit_sound; vm_compute; reflexivity).
  split; [exact H1|]. split; [exact H2|]. split; [exact H3|].
  split; [exact H4|].
  exact (protocol_str_returns sample_keys sample_template
           adv_cycle_procedure 20 adv_cycle_records H1 H2 H3 H4).
Defined.

(** ** No goto of a generated record dangles *)

Lemma proc_step_default_gotos (blank_seq : seq_t) (step : TestStep)
    (step_num : Z) (by_step : gmap Z Z) (lb ub : Z) (s : seq_t) (j : nat) :
  _proc_step_to_seq blank_seq step step_num by_step lb ub = Ok s →
  (length (as_list (Ends step)) < j ≤ 3)%nat →
  ∃ seq_num, by_step !! step_num = Some seq_num
             ∧ s !! lim_key j "_seq" = Some (VInt (seq_num + 1)).
Proof.
  intros H Hj.
  destruct (proc_step_stages _ _ _ _ _ _ _ H)
    as (seq_num & s0 & s1 & s2 & Hseq & -> & Hctl & _ & Hends & _ & Hreps).
  exists seq_num. split; [done|].
  rewrite (report_entries_frame _ _ _ _ _ Hreps)
    by (intros n sfx Heq; symmetry in Heq; by apply rec_key_not_lim in Heq).
  rewrite lookup_insert_ne by (unfold lim_key; simpl; discriminate).
  rewrite (end_entries_frame _ _ _ _ _ _ _ _ _ Hends)
    by (intros k sfx Hk; apply lim_key_idx_ne; simpl in Hk; lia).
  assert (Hj3 : j = 1%nat ∨ j = 2%nat ∨ j = 3%nat) by lia.
  destruct Hj3 as [-> | [-> | ->]].
  all: rewrite lookup_insert_ne by (unfold lim_key; simpl; discriminate).
  all: rewrite (proc_control_frame _ _ _ _ Hctl)
    by (unfold lim_key; simpl; rewrite !not_elem_of_cons; split_and!;
        try discriminate; apply not_elem_of_nil).
  all: unfold lim_key; simpl.
  all: rewrite ?lookup_insert_ne by done; by rewrite lookup_insert_eq.
Qed.

Lemma proc_step_goto_fields (blank_seq : seq_t) (step : TestStep)
    (step_num : Z) (by_step : gmap Z Z) (lb ub : Z) (s : seq_t) (j : nat) :
  _proc_step_to_seq blank_seq step step_num by_step lb ub = Ok s →
  (1 ≤ j ≤ 3)%nat →
  ∃ g, s !! lim_key j "_seq" = Some (VInt g)
       ∧ ((∃ seq_num, by_step !! step_num = Some seq_num ∧ g = seq_num + 1)
          ∨ ∃ key, by_step !! key = Some g).
Proof.
  intros H Hj.
  destruct (decide (j ≤ length (as_list (Ends step)))%nat) as [Hle|Hgt].
  - destruct (lookup_lt_is_Some_2 (as_list (Ends step)) (j - 1)) as [e He];
      [lia|].
    destruct (proc_step_limit_slot _ _ _ _ _ _ _ _ _ H He)
      as (goto_step & goto_seq & _ & _ & Hmap & _ & _ & Hseq & _).
    replace (j - 1 + 1)%nat with j in Hseq by lia.
    exists goto_seq. split; [done|]. right. by exists goto_step.
  - destruct (proc_step_default_gotos _ _ _ _ _ _ _ j H ltac:(lia))
      as (seq_num & Hseq & Hlim).
    exists (seq_num + 1). split; [done|]. left. by exists seq_num.
Qed.

Lemma create_loop_seq_gotos (blank_seq : seq_t) (a b c : Z) (j : nat) :
  (1 ≤ j ≤ 3)%nat →
  _create_loop_seq blank_seq a b c !! lim_key j "_seq" = Some (VInt (a + 1)).
Proof.
  intros Hj. assert (Hj3 : j = 1%nat ∨ j = 2%nat ∨ j = 3%nat) by lia.
  unfold _create_loop_seq.
  destruct Hj3 as [-> | [-> | ->]]; unfold lim_key; simpl;
    rewrite ?lookup_insert_ne by done; by rewrite lookup_insert_eq.
Qed.

Lemma valid_goto_mono (count count' g : Z) :
  count ≤ count' → valid_goto count g → valid_goto count' g.
Proof. unfold valid_goto. lia. Qed.

Lemma unroll_seq_valid (count shift lo hi : Z) (r r' : seq_t) :
  unroll_seq shift lo hi r = Ok r' →
  valid_gotos count r →
  0 ≤ shift → hi + shift ≤ count →
  valid_gotos count r'.
Proof.
  intros H Hr Hshift Hhi.
  destruct (unroll_seq_Ns _ _ _ _ _ H) as (ns & Hns & _).
  destruct (Hr 1%nat ltac:(lia)) as (g1 & H1 & Hv1).
  destruct (Hr 2%nat ltac:(lia)) as (g2 & H2 & Hv2).
  destruct (Hr 3%nat ltac:(lia)) as (g3 & H3 & Hv3).
  rewrite (unroll_seq_spec shift lo hi r ns g1 g2 g3) in H by done.
  injection H as <-.
  assert (Hsh : ∀ g, valid_goto count g →
                     valid_goto count (shift_index shift lo hi g)).
  { intros g Hg. unfold shift_index.
    destruct ((lo <=? g) && (g <=? hi)) eqn:E; [|done].
    apply andb_true_iff in E as [E1 E2].
    apply Z.leb_le in E1, E2. unfold valid_goto in *.
    unfold END_SEQ_NUM in *. lia. }
  intros j Hj. assert (Hj3 : j = 1%nat ∨ j = 2%nat ∨ j = 3%nat) by lia.
  destruct Hj3 as [-> | [-> | ->]]; eexists; (split; [|apply Hsh]).
  - change (lim_key 1 "_seq") with "lim1_seq".
    rewrite !lookup_insert_ne by done. by rewrite lookup_insert_eq.
  - done.
  - change (lim_key 2 "_seq") with "lim2_seq".
    rewrite !lookup_insert_ne by done. by rewrite lookup_insert_eq.
  - done.
  - change (lim_key 3 "_seq") with "lim3_seq".
    by rewrite lookup_insert_eq.
  - done.
Qed.

Lemma unroll_loop_valid (count : Z) (loop unrolled : list seq_t)
    (num_loops lo hi : Z) :
  _unroll_loop loop num_loops lo hi = Ok unrolled →
  Forall (valid_gotos count) loop →
  hi + Z.of_nat (length loop) * num_loops ≤ count →
  Forall (valid_gotos count) unrolled.
Proof.
  intros H Hloop Hhi. unfold _unroll_loop in H.
  apply bind_Ok in H as (u & Hu & H).
  apply bind_Ok in H as (? & _ & H). injection H as <-.
  apply unroll_copies_inv in Hu as (blocks & -> & Hblocks).
  apply Forall_app. split; [done|].
  apply Forall_concat. apply Forall_forall. intros block Hblock.
  apply list_elem_of_lookup in Hblock as [n Hn].
  destruct (Forall2_lookup_r _ _ _ _ _ Hblocks Hn) as (i & Hi & Hcopy).
  apply lookup_seqZ in Hi as [-> Hlt].
  apply Forall_lookup. intros k y Hy.
  destruct (Forall2_lookup_r _ _ _ _ _ Hcopy Hy) as (orig & Horig & Hxy).
  eapply unroll_seq_valid; [exact Hxy| | |].
  - by eapply (Forall_lookup_1 _ _ _ _ Hloop).
  - nia.
  - nia.
Qed.

Lemma unroll_loop_length (loop unrolled : list seq_t) (num_loops lo hi : Z) :
  _unroll_loop loop num_loops lo hi = Ok unrolled →
  Z.of_nat (length unrolled) = Z.of_nat (length loop) * (num_loops + 1)
  ∧ (length loop ≤ length unrolled)%nat.
Proof.
  intros H. unfold _unroll_loop in H.
  apply bind_Ok in H as (u & Hu & H).
  apply bind_Ok in H as (? & Hlen & H). injection H as <-.
  apply py_assert_Ok, Z.eqb_eq in Hlen. split; [done|].
  apply unroll_copies_inv in Hu as (blocks & -> & _).
  rewrite length_app. lia.
Qed.

(** By how much one step of the first pass moves the running total. *)
Lemma sizing_step_increase (steps : list TestStep) (k : nat) (x : TestStep)
    (s1 t1 : sizing_state) :
  sizing_step steps k x s1 = Ok t1 →
  (is_do (StepType x) = true → curr_seq_num t1 = curr_seq_num s1)
  ∧ (StepType x = "AdvCycle" →
     (adv_cycle_ignore_status_by_idx t1 !! k = Some true
      ∧ curr_seq_num t1 = curr_seq_num s1)
     ∨ (adv_cycle_ignore_status_by_idx t1 !! k = Some false
        ∧ curr_seq_num t1 = curr_seq_num s1 + 2))
  ∧ (is_loop (StepType x) = true →
     ∃ n c below wu,
       loop_count x = Ok n
       ∧ loop_seq_count_stack s1 = c :: below
       ∧ loop_unroll_status_by_idx t1 !! k = Some wu
       ∧ curr_seq_num t1
         = if wu : bool then curr_seq_num s1 + c * n
           else curr_seq_num s1 + 1)
  ∧ (physical_step x → curr_seq_num t1 = curr_seq_num s1 + 1).
Proof.
  intros H. unfold sizing_step in H. unfold physical_step.
  destruct s1 as [cur counts wu bys us ig]. simpl in *.
  destruct (is_do (StepType x)) eqn:Edo;
    destruct (streq (StepType x) "AdvCycle") eqn:Eadv;
    destruct (is_loop (StepType x)) eqn:Eloop;
    try (rewrite (advcycle_not_do _ Eadv) in Edo; discriminate Edo);
    try (rewrite (advcycle_not_loop _ Eadv) in Eloop; discriminate Eloop);
    try (rewrite (is_do_not_loop _ Edo) in Eloop; discriminate Eloop).
  all: try apply streq_true in Eadv.
  all: inv_ok H; injection H as <-; simpl.
  all: split_and!; try done; try (by intros (? & ? & ?)).
  all: try (intros _; rewrite lookup_insert_eq; by eauto).
  all: try (intros Hadv; rewrite Hadv in Eadv; discriminate Eadv).
  all: intros _; inv_stacks.
  all: match goal with
       | H : (if ?c then _ else _) = (_, _) |- _ => destruct c
       end; simplify_eq/=.
  all: eexists _, _, _, _; split_and!;
    [done|done|by rewrite lookup_insert_eq|done].
Qed.

Lemma gen_step_valid (blank_seq : seq_t) (sz : sizing_state)
    (end_step_num : Z) (k : nat) (x : TestStep) (s2 t2 : gen_state)
    (count seq_num : Z) :
  gen_step blank_seq sz end_step_num k x s2 = Ok t2 →
  seq_num_by_step_num sz !! (Z.of_nat k + 1) = Some seq_num →
  (∀ key v, seq_num_by_step_num sz !! key = Some v → valid_goto count v) →
  0 ≤ seq_num →
  (physical_step x → seq_num + 1 ≤ count) →
  (StepType x = "AdvCycle" →
   adv_cycle_ignore_status_by_idx sz !! k = Some false →
   seq_num + 2 ≤ count) →
  (is_loop (StepType x) = true →
   ∀ n wu loop below,
     loop_count x = Ok n →
     loop_unroll_status_by_idx sz !! k = Some wu →
     seq_loop_stack s2 = loop :: below →
     if wu : bool then seq_num + Z.of_nat (length loop) * n ≤ count
     else seq_num + 1 ≤ count) →
  Forall (Forall (valid_gotos count)) (seq_loop_stack s2) →
  Forall (Forall (valid_gotos count)) (seq_loop_stack t2).
Proof.
  intros H Hseq Hmap Hpos Hphys Hadv Hloop Hst. unfold gen_step in H.
  destruct s2 as [stack starts lb]. simpl in *.
  apply bind_Ok in H as (seq_num' & Hseq' & H).
  unfold getitem in Hseq'. rewrite Hseq in Hseq'. injection Hseq' as <-.
  assert (Hnew : ∀ a b c, 0 ≤ a → a + 1 ≤ count →
                   valid_gotos count (_create_loop_seq blank_seq a b c)).
  { intros a b c Ha Hb j Hj. exists (a + 1).
    split; [by apply create_loop_seq_gotos|]. left. lia. }
  destruct (is_do (StepType x)) eqn:Edo.
  { injection H as <-. simpl. by constructor. }
  assert (negb (Z.of_nat k + 1 =? 0) = true) as Hk
    by (apply negb_true_iff, Z.eqb_neq; lia).
  rewrite Hk, andb_true_r in H.
  destruct (is_loop (StepType x)) eqn:Eloop.
  { apply bind_Ok in H as ([start starts'] & Hstart & H).
    apply bind_Ok in H as (n & Hn & H).
    apply bind_Ok in H as (wu & Hwu & H).
    apply bind_Ok in H as ([loop stack'] & Hpop & H).
    apply bind_Ok in H as (loop' & Hloop' & H).
    apply bind_Ok in H as (stack'' & Hupd & H).
    injection H as <-. simpl.
    unfold getitem in Hwu.
    destruct (loop_unroll_status_by_idx sz !! k) as [wu'|] eqn:Estat;
      [|done].
    injection Hwu as ->.
    destruct stack as [|loop0 stack0]; [done|]. injection Hpop as -> ->.
    destruct stack' as [|l1 below]; [done|]. injection Hupd as <-.
    apply Forall_cons in Hst as [Hl0 Hst].
    apply Forall_cons in Hst as [Hl1 Hst].
    specialize (Hloop eq_refl n wu loop (l1 :: below) Hn eq_refl eq_refl).
    constructor; [|done]. apply Forall_app. split; [done|].
    destruct wu.
    - apply bind_Ok in Hloop' as (u & Hu & Hloop').
      apply bind_Ok in Hloop' as (? & _ & Hloop'). injection Hloop' as <-.
      by eapply unroll_loop_valid.
    - injection Hloop' as <-. apply Forall_app. split; [done|].
      constructor; [|done]. by apply Hnew. }
  destruct (streq (StepType x) "AdvCycle") eqn:Eadv.
  { apply streq_true in Eadv.
    apply bind_Ok in H as (ignore & Hign & H).
    unfold getitem in Hign.
    destruct (adv_cycle_ignore_status_by_idx sz !! k) as [ig|] eqn:Eig;
      [|done].
    injection Hign as ->.
    destruct ignore; simpl in H; [by injection H as <-|].
    specialize (Hadv Eadv eq_refl).
    apply bind_Ok in H as ([a b] & Hpair & H).
    apply bind_Ok in H as (stack' & Hupd & H). injection H as <-. simpl.
    unfold _create_advance_cyle_seqs in Hpair.
    destruct (seq_num =? 0); [done|]. injection Hpair as <- <-.
    destruct stack as [|l0 below]; [done|]. injection Hupd as <-.
    apply Forall_cons in Hst as [Hl0 Hst]. constructor; [|done].
    rewrite !Forall_app. split_and!; [done|..];
      (constructor; [apply Hnew; lia|done]). }
  assert (Hp : physical_step x).
  { split_and!; [done..|]. intros Heq. rewrite Heq in Eadv.
    discriminate Eadv. }
  specialize (Hphys Hp).
  apply bind_Ok in H as (seq & Hcomp & H).
  apply bind_Ok in H as (stack' & Hupd & H). injection H as <-. simpl.
  destruct stack as [|l0 below]; [done|]. injection Hupd as <-.
  apply Forall_cons in Hst as [Hl0 Hst]. constructor; [|done].
  apply Forall_app. split; [done|]. constructor; [|done].
  intros j Hj.
  destruct (proc_step_goto_fields _ _ _ _ _ _ _ j Hcomp Hj)
    as (g & Hg & [(sn & Hsn & ->)|(key & Hkey)]).
  - rewrite Hseq in Hsn. injection Hsn as <-.
    exists (seq_num + 1). split; [done|]. left. lia.
  - exists g. split; [done|]. by eapply Hmap.
Qed.

Section GotoValidity.

Variable blank_seq : seq_t.
Variable steps : list TestStep.

Lemma step_monotone (sz : sizing_state) (end_step_num : Z) (k : nat)
    (x : TestStep) (s1 t1 : sizing_state) (s2 t2 : gen_state) :
  sizing_step steps k x s1 = Ok t1 →
  gen_step blank_seq sz end_step_num k x s2 = Ok t2 →
  loop_unroll_status_by_idx sz !! k = loop_unroll_status_by_idx t1 !! k →
  sizes_agree s1 s2 →
  curr_seq_num s1 ≤ curr_seq_num t1.
Proof.
  intros H1 H2 Hu Hag.
  destruct (sizing_step_increase _ _ _ _ _ H1)
    as (Hdo & Hadv & Hloop & Hphys).
  destruct (is_do (StepType x)) eqn:Edo; [rewrite Hdo; [lia|done]|].
  destruct (is_loop (StepType x)) eqn:Eloop.
  { destruct (Hloop eq_refl) as (n & c & below & wu & Hn & Hc & Hwu & ->).
    destruct wu; [|lia].
    unfold gen_step in H2.
    apply bind_Ok in H2 as (seq_num & _ & H2).
    rewrite Edo, Eloop in H2.
    assert (negb (Z.of_nat k + 1 =? 0) = true) as Hk
      by (apply negb_true_iff, Z.eqb_neq; lia).
    rewrite Hk in H2. simpl in H2.
    apply bind_Ok in H2 as ([start starts'] & _ & H2).
    apply bind_Ok in H2 as (n' & Hn' & H2).
    rewrite Hn in Hn'. injection Hn' as <-.
    apply bind_Ok in H2 as (wu & Hwu' & H2).
    unfold getitem in Hwu'. rewrite Hu, Hwu in Hwu'. injection Hwu' as <-.
    apply bind_Ok in H2 as ([loop stack'] & Hpop & H2).
    apply bind_Ok in H2 as (loop' & Hloop' & _).
    apply bind_Ok in Hloop' as (u & Hunroll & _).
    apply unroll_loop_length in Hunroll as [Hlen Hle].
    unfold sizes_agree in Hag. rewrite Hc in Hag.
    destruct (seq_loop_stack s2) as [|l0 below0]; [done|].
    injection Hpop as -> ->. simpl in Hag. injection Hag as <- _.
    nia. }
  destruct (decide (StepType x = "AdvCycle")) as [Ha|Ha].
  - destruct (Hadv Ha) as [[_ ->]|[_ ->]]; lia.
  - rewrite Hphys; [lia|]. by split_and!.
Qed.

Lemma passes_bounds (end_step_num : Z) (todo : list TestStep) (k : nat)
    (s1 s1' : sizing_state) (s2 s2' : gen_state) :
  for_enumerate (sizing_step steps) k todo s1 = Ok s1' →
  for_enumerate (gen_step blank_seq s1' end_step_num) k todo s2 = Ok s2' →
  plan_inv s1 s2 →
  curr_seq_num s1 ≤ curr_seq_num s1'
  ∧ ∀ key v, Z.of_nat k < key ≤ Z.of_nat (k + length todo) →
      seq_num_by_step_num s1' !! key = Some v →
      curr_seq_num s1 ≤ v ≤ curr_seq_num s1'.
Proof.
  revert k s1 s2.
  induction todo as [|x todo IH]; intros k s1 s2 H1 H2 Hinv;
    simpl in H1, H2.
  - simplify_eq. split; [lia|]. intros key v Hkey. simpl in Hkey. lia.
  - apply bind_Ok in H1 as (t1 & Ht1 & H1).
    apply bind_Ok in H2 as (t2 & Ht2 & H2).
    destruct (sizing_loop_frame _ _ _ k _ _ H1 ltac:(lia)) as [Hu Hi].
    assert (Hmap : seq_num_by_step_num s1' !! (Z.of_nat k + 1)
                   = Some (curr_seq_num s1)).
    { rewrite (sizing_loop_map_frame _ _ _ _ _ _ H1) by lia.
      rewrite (sizing_step_map _ _ _ _ _ Ht1). by rewrite lookup_insert_eq. }
    assert (Hinv' : plan_inv t1 t2)
      by (by eapply (step_numbered blank_seq steps s1')).
    destruct (IH _ _ _ H1 H2 Hinv') as [Hle Hkeys].
    assert (Hstep : curr_seq_num s1 ≤ curr_seq_num t1).
    { eapply step_monotone; [exact Ht1|exact Ht2|exact Hu|].
      by destruct Hinv. }
    split; [lia|]. intros key v Hkey Hv.
    destruct (decide (key = Z.of_nat k + 1)) as [->|Hne].
    + rewrite Hmap in Hv. injection Hv as <-. lia.
    + simpl in Hkey. specialize (Hkeys key v ltac:(lia) Hv). lia.
Qed.

Lemma passes_valid (end_step_num : Z) (count : Z) (todo : list TestStep)
    (k : nat) (s1 s1' : sizing_state) (s2 s2' : gen_state) :
  for_enumerate (sizing_step steps) k todo s1 = Ok s1' →
  for_enumerate (gen_step blank_seq s1' end_step_num) k todo s2 = Ok s2' →
  plan_inv s1 s2 →
  0 ≤ curr_seq_num s1 →
  curr_seq_num s1' ≤ count →
  (∀ key v, seq_num_by_step_num s1' !! key = Some v → valid_goto count v) →
  Forall (Forall (valid_gotos count)) (seq_loop_stack s2) →
  Forall (Forall (valid_gotos count)) (seq_loop_stack s2').
Proof.
  revert k s1 s2.
  induction todo as [|x todo IH]; intros k s1 s2 H1 H2 Hinv Hpos Hcount
    Hmapv Hst; simpl in H1, H2.
  - by simplify_eq.
  - apply bind_Ok in H1 as (t1 & Ht1 & H1).
    apply bind_Ok in H2 as (t2 & Ht2 & H2).
    destruct (sizing_loop_frame _ _ _ k _ _ H1 ltac:(lia)) as [Hu Hi].
    assert (Hmap : seq_num_by_step_num s1' !! (Z.of_nat k + 1)
                   = Some (curr_seq_num s1)).
    { rewrite (sizing_loop_map_frame _ _ _ _ _ _ H1) by lia.
      rewrite (sizing_step_map _ _ _ _ _ Ht1). by rewrite lookup_insert_eq. }
    assert (Hinv' : plan_inv t1 t2)
      by (by eapply (step_numbered blank_seq steps s1')).
    destruct (passes_bounds _ _ _ _ _ _ _ H1 H2 Hinv') as [Hle _].
    assert (Hstep : curr_seq_num s1 ≤ curr_seq_num t1).
    { eapply step_monotone; [exact Ht1|exact Ht2|exact Hu|].
      by destruct Hinv. }
    destruct (sizing_step_increase _ _ _ _ _ Ht1)
      as (_ & Hadv & Hloop & Hphys).
    apply (IH _ _ _ H1 H2 Hinv'); [lia|done|done|].
    eapply gen_step_valid; [exact Ht2|exact Hmap|exact Hmapv|exact Hpos
                           | | | |exact Hst].
    + intros Hp. rewrite (Hphys Hp) in Hle. lia.
    + intros Ha Hig. rewrite Hi in Hig.
      destruct (Hadv Ha) as [[Hig' _]|[_ Heq]]; [congruence|].
      rewrite Heq in Hle. lia.
    + intros Hl n wu loop below Hn Hwu Hstack.
      destruct (Hloop Hl) as (n' & c & below' & wu' & Hn' & Hc & Hwu' & Heq).
      rewrite Hn in Hn'. injection Hn' as <-.
      rewrite Hu, Hwu' in Hwu. injection Hwu as <-.
      destruct Hinv as (Hag & _). unfold sizes_agree in Hag.
      rewrite Hstack, Hc in Hag. simpl in Hag. injection Hag as <- _.
      rewrite Heq in Hle. destruct wu'; lia.
Qed.

(** X20: no goto of a generated record dangles. In every record of a
    successful conversion each of [lim1_seq], [lim2_seq] and [lim3_seq]
    holds an integer that lies between 0 and the number of records (the
    index of a record, or the position right after the last one) or is
    [END_SEQ_NUM]; this includes the gotos moved by loop unrolling. *)
Theorem gotos_are_valid (seqs : list seq_t) (k : nat) (r : seq_t)
    (j : nat) :
  _create_biologic_seqs_from_maccor_ast blank_seq steps = Ok seqs →
  seqs !! k = Some r → (1 ≤ j ≤ 3)%nat →
  ∃ g, r !! lim_key j "_seq" = Some (VInt g)
       ∧ (0 ≤ g ≤ Z.of_nat (length seqs) ∨ g = END_SEQ_NUM).
Proof.
  intros H Hk Hj.
  destruct (conversion_inv _ _ _ H) as (sz & st & Hsz & Hgen & Hst & Hinv).
  destruct (conversion_sizing _ _ _ H) as (_ & x & _ & _ & _ & _ & Hlast & _).
  assert (Hcount : curr_seq_num sz = Z.of_nat (length seqs)).
  { destruct Hinv as (Hag & -> & _). unfold sizes_agree in Hag.
    rewrite Hst in Hag. rewrite <- Hag. simpl. lia. }
  assert (Hinit : plan_inv (sizing_init steps) gen_init).
  { split_and!; [done|done|]. simpl. split; [|done]. by intros ? ? ?. }
  destruct (passes_bounds _ _ _ _ _ _ _ Hsz Hgen Hinit) as [_ Hkeys].
  assert (Hlen : (length (all_but_last steps) = length steps - 1)%nat
                 ∧ (1 ≤ length steps)%nat).
  { unfold all_but_last. rewrite length_take.
    destruct steps; [done|]. simpl. lia. }
  assert (Hmapv : ∀ key v, seq_num_by_step_num sz !! key = Some v →
                           valid_goto (Z.of_nat (length seqs)) v).
  { intros key v Hv.
    destruct (decide (0 < key ≤ Z.of_nat (length (all_but_last steps))))
      as [Hin|Hout].
    - specialize (Hkeys key v ltac:(simpl; lia) Hv). simpl in Hkeys.
      left. lia.
    - destruct (decide (key ≤ 0)) as [Hlo|Hhi].
      + rewrite (sizing_loop_map_frame _ _ _ _ _ _ Hsz) in Hv by (simpl; lia).
        simpl in Hv. apply lookup_singleton_Some in Hv as [Heq _]. lia.
      + rewrite (sizing_loop_map_above _ _ _ _ _ _ Hsz) in Hv
          by (simpl; lia).
        simpl in Hv. apply lookup_singleton_Some in Hv as [_ <-].
        by right. }
  pose proof (passes_valid _ (Z.of_nat (length seqs)) _ _ _ _ _ _
                Hsz Hgen Hinit) as Hvalid.
  rewrite Hst in Hvalid.
  assert (Hall : Forall (Forall (valid_gotos (Z.of_nat (length seqs))))
                        [seqs]).
  { apply Hvalid; [done|lia|done|]. simpl. by repeat constructor. }
  apply Forall_cons in Hall as [Hall _].
  exact (Forall_lookup_1 _ _ _ _ Hall Hk j Hj).
Qed.

End GotoValidity.

(** ** Procedures without control-flow steps *)

Section Flat.

Variable blank_seq : seq_t.
Variable steps : list TestStep.

Lemma sizing_step_flat (k : nat) (x : TestStep) (st st' : sizing_state) :
  physical_step x →
  flat_sizing_inv k st →
  sizing_step steps k x st = Ok st' →
  flat_sizing_inv (S k) st'.
Proof.
  intros Hp [Hcur Hmap] H.
  destruct (sizing_step_increase _ _ _ _ _ H) as (_ & _ & _ & Hphys).
  split; [rewrite (Hphys Hp); lia|].
  intros j Hj. rewrite (sizing_step_map _ _ _ _ _ H).
  destruct (decide (j = k)) as [->|Hne].
  - rewrite lookup_insert_eq. by rewrite Hcur.
  - rewrite lookup_insert_ne by lia. apply Hmap. lia.
Qed.

Lemma gen_step_flat (sz : sizing_state) (k : nat) (x : TestStep)
    (st st' : gen_state) :
  physical_step x → steps !! k = Some x →
  flat_gen_inv blank_seq steps (seq_num_by_step_num sz) k st →
  gen_step blank_seq sz (Z.of_nat (length steps)) k x st = Ok st' →
  flat_gen_inv blank_seq steps (seq_num_by_step_num sz) (S k) st'.
Proof.
  intros Hp Hx (Hlb & l & Hstack & Hlen & Hrecs) H.
  destruct (gen_step_physical _ _ _ _ _ _ _ H Hp) as (seq & Hseq).
  rewrite Hlb in Hseq.
  destruct Hp as (Hdo & Hloop & Hadv).
  unfold gen_step in H.
  apply bind_Ok in H as (seq_num & _ & H).
  rewrite Hdo, Hloop in H. simpl in H.
  destruct (streq (StepType x) "AdvCycle") eqn:E;
    [by apply streq_true in E|].
  rewrite Hlb, Hseq, Hstack in H. simpl in H. injection H as <-.
  split; [done|]. exists (l ++ [seq]). simpl.
  split_and!; [done|rewrite length_app; simpl; lia|].
  intros j step Hj Hstep.
  destruct (decide (j = k)) as [->|Hne].
  - rewrite Hx in Hstep. injection Hstep as <-.
    exists seq. split; [|done].
    rewrite lookup_app_r by lia. by rewrite Hlen, Nat.sub_diag.
  - destruct (Hrecs j step ltac:(lia) Hstep) as (r & Hr & Hcomp).
    exists r. split; [|done]. by apply lookup_app_l_Some.
Qed.

(** X21: for a procedure whose steps before the final one are all handed
    to the step compiler (no Do, Loop or AdvCycle step), the conversion
    returns one record per step, in order: record k is the result of
    [_proc_step_to_seq] on step k with step number k + 1, goto lower
    bound 0, end step number len(steps), and a step-to-sequence map that
    sends step number j + 1 to j and the final step to [END_SEQ_NUM]. *)
Theorem physical_steps_compile_in_order (seqs : list seq_t) :
  Forall physical_step (all_but_last steps) →
  _create_biologic_seqs_from_maccor_ast blank_seq steps = Ok seqs →
  ∃ by_step,
    (∀ j, (j < length (all_but_last steps))%nat →
          by_step !! (Z.of_nat j + 1) = Some (Z.of_nat j))
    ∧ by_step !! Z.of_nat (length steps) = Some END_SEQ_NUM
    ∧ length seqs = length (all_but_last steps)
    ∧ ∀ k step, all_but_last steps !! k = Some step →
        ∃ r, seqs !! k = Some r
             ∧ _proc_step_to_seq blank_seq step (Z.of_nat k + 1) by_step
                 0 (Z.of_nat (length steps)) = Ok r.
Proof.
  intros Hflat H.
  destruct (conversion_inv _ _ _ H) as (sz & st & Hsz & Hgen & Hst & _).
  destruct (conversion_sizing _ _ _ H) as (_ & x & _ & _ & _ & _ & Hlast & _).
  assert (Hlen : (length (all_but_last steps) = length steps - 1)%nat
                 ∧ (1 ≤ length steps)%nat).
  { unfold all_but_last. rewrite length_take.
    destruct steps; [done|]. simpl. lia. }
  pose proof (for_enumerate_inv _ flat_sizing_inv _ _ _ _ Hsz) as Hs.
  simpl in Hs. destruct Hs as [_ Hmap].
  { split; [done|]. intros j Hj. lia. }
  { intros i y a a' Hy Ha Hb.
    eapply sizing_step_flat; [|exact Ha|exact Hb].
    by eapply (Forall_lookup_1 _ _ _ _ Hflat). }
  pose proof (for_enumerate_inv _
                (flat_gen_inv blank_seq steps (seq_num_by_step_num sz))
                _ _ _ _ Hgen) as Hg.
  simpl in Hg. destruct Hg as (_ & l & Hstack & Hl & Hrecs).
  { split; [done|]. exists []. split_and!; [done|done|].
    intros j step Hj. lia. }
  { intros i y a a' Hy Ha Hb.
    eapply gen_step_flat; [|by eapply all_but_last_lookup|exact Ha|exact Hb].
    by eapply (Forall_lookup_1 _ _ _ _ Hflat). }
  rewrite Hst in Hstack. injection Hstack as <-.
  exists (seq_num_by_step_num sz). split_and!; [done| |done|].
  - rewrite (sizing_loop_map_above _ _ _ _ _ _ Hsz) by (simpl; lia).
    simpl. by rewrite lookup_singleton_eq.
  - intros k step Hk. apply Hrecs.
    + by eapply lookup_lt_Some.
    + by eapply all_but_last_lookup.
Qed.

End Flat.

Lemma gotos_are_valid_witness :
  _create_biologic_seqs_from_maccor_ast ∅ goto_over_do_procedure
  = Ok goto_over_do_records
  ∧ goto_over_do_records !! 4%nat = Some goto_over_do_last
  ∧ (1 ≤ 1 ≤ 3)%nat
  ∧ ∃ g, goto_over_do_last !! lim_key 1 "_seq" = Some (VInt g)
         ∧ (0 ≤ g ≤ Z.of_nat (length goto_over_do_records)
            ∨ g = END_SEQ_NUM).
Proof.
  assert (H1 : _create_biologic_seqs_from_maccor_ast ∅ goto_over_do_procedure
               = Ok goto_over_do_records)
    by (apply succeeds_Ok; vm_compute; reflexivity).
  assert (H2 : goto_over_do_records !! 4%nat = Some goto_over_do_last)
    by (apply lookup_present; vm_compute; reflexivity).
  assert (H3 : (1 ≤ 1 ≤ 3)%nat) by lia.
  split; [exact H1|]. split; [exact H2|]. split; [exact H3|].
  exact (gotos_are_valid ∅ goto_over_do_procedure goto_over_do_records 4
           goto_over_do_last 1 H1 H2 H3).
Defined.

Lemma physical_steps_compile_in_order_witness :
  Forall physical_step (all_but_last flat_procedure)
  ∧ _create_biologic_seqs_from_maccor_ast ∅ flat_procedure = Ok flat_records
  ∧ ∃ by_step,
      (∀ j, (j < length (all_but_last flat_procedure))%nat →
            by_step !! (Z.of_nat j + 1) = Some (Z.of_nat j))
      ∧ by_step !! Z.of_nat (length flat_procedure) = Some END_SEQ_NUM
      ∧ length flat_records = length (all_but_last flat_procedure)
      ∧ ∀ k step, all_but_last flat_procedure !! k = Some step →
          ∃ r, flat_records !! k = Some r
               ∧ _proc_step_to_seq ∅ step (Z.of_nat k + 1) by_step
                   0 (Z.of_nat (length flat_procedure)) = Ok r.
Proof.
  assert (H1 : Forall physical_step (all_but_last flat_procedure)).
  { repeat constructor; discriminate. }
  assert (H2 : _create_biologic_seqs_from_maccor_ast ∅ flat_procedure
               = Ok flat_records)
    by (apply succeeds_Ok; vm_compute; reflexivity).
  split; [exact H1|]. split; [exact H2|].
  exact (physical_steps_compile_in_order ∅ flat_procedure flat_records
           H1 H2).
Defined.

(** ** Record kinds *)

Lemma proc_step_type (blank_seq : seq_t) (step : TestStep) (step_num : Z)
    (by_step : gmap Z Z) (lb ub : Z) (s : seq_t) :
  _proc_step_to_seq blank_seq step step_num by_step lb ub = Ok s →
  ∃ kind, s !! "type" = Some (VStr kind) ∧ kind ∈ ["Rest"; "CC"; "CV"].
Proof.
  intros H.
  destruct (proc_step_stages _ _ _ _ _ _ _ H)
    as (seq_num & s0 & s1 & s2 & _ & _ & Hctl & _ & Hends & _ & Hreps).
  rewrite (report_entries_frame _ _ _ _ _ Hreps)
    by (intros; unfold rec_key; simpl; discriminate).
  rewrite lookup_insert_ne by done.
  rewrite (end_entries_frame _ _ _ _ _ _ _ _ _ Hends)
    by (intros; unfold lim_key; simpl; discriminate).
  rewrite lookup_insert_ne by done.
  apply proc_control_inv in Hctl.
  destruct Hctl as [(_ & Ht & _)
                   |(d & kind & vs & sv & v & u & _ & Hmode & _ & _ & Ht & _)].
  - exists "Rest". split; [done|]. rewrite !elem_of_cons. tauto.
  - exists kind. split; [done|]. rewrite !elem_of_cons.
    destruct Hmode as [(_ & -> & _)|(_ & -> & _)]; tauto.
Qed.

Lemma unroll_seq_type (shift lo hi : Z) (r r' : seq_t) :
  unroll_seq shift lo hi r = Ok r' → r' !! "type" = r !! "type".
Proof.
  unfold unroll_seq. intros H.
  apply bind_Ok in H as (v & Hv & H).
  apply bind_Ok in H as (v' & Hv' & H).
  apply bind_Ok in H as (u1 & H1 & H).
  apply bind_Ok in H as (u2 & H2 & H3).
  rewrite (unroll_goto_frame _ _ _ _ _ _ _ _ H3)
    by (intros; unfold lim_key; simpl; discriminate).
  rewrite (unroll_goto_frame _ _ _ _ _ _ _ _ H2)
    by (intros; unfold lim_key; simpl; discriminate).
  rewrite (unroll_goto_frame _ _ _ _ _ _ _ _ H1)
    by (intros; unfold lim_key; simpl; discriminate).
  by rewrite lookup_insert_ne.
Qed.

Lemma unroll_loop_types (loop unrolled : list seq_t) (num_loops lo hi : Z) :
  Forall known_type loop →
  _unroll_loop loop num_loops lo hi = Ok unrolled →
  Forall known_type unrolled.
Proof.
  intros Hloop H. unfold _unroll_loop in H.
  apply bind_Ok in H as (u & Hu & H).
  apply bind_Ok in H as (? & _ & H). injection H as <-.
  apply unroll_copies_inv in Hu as (blocks & -> & Hblocks).
  apply Forall_app. split; [done|].
  apply Forall_concat. apply Forall_forall. intros block Hblock.
  apply list_elem_of_lookup in Hblock as [n Hn].
  destruct (Forall2_lookup_r _ _ _ _ _ Hblocks Hn) as (i & _ & Hi).
  apply Forall_lookup. intros k y Hy.
  destruct (Forall2_lookup_r _ _ _ _ _ Hi Hy) as (orig & Horig & Hcopy).
  unfold known_type. rewrite (unroll_seq_type _ _ _ _ _ Hcopy).
  by eapply (Forall_lookup_1 _ _ _ _ Hloop).
Qed.

Lemma gen_step_types (blank_seq : seq_t) (sz : sizing_state)
    (end_step_num : Z) (k : nat) (step : TestStep) (st st' : gen_state) :
  gen_step blank_seq sz end_step_num k step st = Ok st' →
  Forall (Forall known_type) (seq_loop_stack st) →
  Forall (Forall known_type) (seq_loop_stack st').
Proof.
  intros H Hst. unfold gen_step in H.
  destruct st as [stack starts lb]. simpl in *.
  apply bind_Ok in H as (seq_num & _ & H).
  assert (Hnew : ∀ a b c, known_type (_create_loop_seq blank_seq a b c)).
  { intros a b c. exists "Loop".
    destruct (create_loop_seq_fields blank_seq a b c) as (_ & -> & _).
    split; [done|]. rewrite !elem_of_cons. tauto. }
  destruct (is_do (StepType step)) eqn:Edo.
  { injection H as <-. simpl. by constructor. }
  destruct (is_loop (StepType step) && negb (Z.of_nat k + 1 =? 0)) eqn:Eloop.
  { apply bind_Ok in H as ([start starts'] & Hstart & H).
    apply bind_Ok in H as (n & Hn & H).
    apply bind_Ok in H as (wu & Hwu & H).
    apply bind_Ok in H as ([loop stack'] & Hpop & H).
    apply bind_Ok in H as (loop' & Hloop' & H).
    apply bind_Ok in H as (stack'' & Hupd & H).
    injection H as <-. simpl.
    destruct stack as [|loop0 stack0]; [done|]. injection Hpop as -> ->.
    destruct stack' as [|l1 below]; [done|]. injection Hupd as <-.
    apply Forall_cons in Hst as [Hl0 Hst].
    apply Forall_cons in Hst as [Hl1 Hst].
    constructor; [|done]. apply Forall_app. split; [done|].
    destruct wu.
    - apply bind_Ok in Hloop' as (u & Hu & Hloop').
      apply bind_Ok in Hloop' as (? & _ & Hloop'). injection Hloop' as <-.
      eapply unroll_loop_types; [exact Hl0|exact Hu].
    - injection Hloop' as <-. apply Forall_app. split; [done|].
      by constructor. }
  destruct (streq (StepType step) "AdvCycle") eqn:Eadv.
  { apply bind_Ok in H as (ignore & Hign & H).
    destruct ignore; simpl in H; [by injection H as <-|].
    apply bind_Ok in H as ([a b] & Hpair & H).
    apply bind_Ok in H as (stack' & Hupd & H). injection H as <-. simpl.
    unfold _create_advance_cyle_seqs in Hpair.
    destruct (seq_num =? 0); [done|]. injection Hpair as <- <-.
    destruct stack as [|l0 below]; [done|]. injection Hupd as <-.
    apply Forall_cons in Hst as [Hl0 Hst]. constructor; [|done].
    rewrite !Forall_app. split_and!; [done|..]; by constructor. }
  apply bind_Ok in H as (seq & Hcomp & H).
  apply bind_Ok in H as (stack' & Hupd & H). injection H as <-. simpl.
  destruct stack as [|l0 below]; [done|]. injection Hupd as <-.
  apply Forall_cons in Hst as [Hl0 Hst]. constructor; [|done].
  apply Forall_app. split; [done|]. constructor; [|done].
  apply proc_step_type in Hcomp as (kind & Hkind & Hin).
  exists kind. split; [done|]. rewrite !elem_of_cons in *. tauto.
Qed.

(** X22: every record of a successful conversion has a [type] among
    Rest, CC, CV and Loop: the step compiler writes one of the first
    three, the synthesized loop records are of type Loop, and unrolling
    copies the type unchanged. *)
Theorem records_have_known_types (blank_seq : seq_t)
    (steps : list TestStep) (seqs : list seq_t) (k : nat) (r : seq_t) :
  _create_biologic_seqs_from_maccor_ast blank_seq steps = Ok seqs →
  seqs !! k = Some r →
  ∃ kind, r !! "type" = Some (VStr kind)
          ∧ kind ∈ ["Rest"; "CC"; "CV"; "Loop"].
Proof.
  intros H Hk.
  destruct (conversion_inv _ _ _ H) as (sz & st & _ & Hgen & Hst & _).
  pose proof (for_enumerate_inv _
                (λ _ st, Forall (Forall known_type) (seq_loop_stack st))
                _ _ _ _ Hgen) as Hinv.
  simpl in Hinv. rewrite Hst in Hinv.
  assert (Hall : Forall (Forall known_type) [seqs]).
  { apply Hinv; [by repeat constructor|].
    intros i x a a' _ Ha Hb. by eapply gen_step_types. }
  apply Forall_cons in Hall as [Hall _].
  exact (Forall_lookup_1 _ _ _ _ Hall Hk).
Qed.

Lemma records_have_known_types_witness :
  _create_biologic_seqs_from_maccor_ast ∅ goto_over_do_procedure
  = Ok goto_over_do_records
  ∧ goto_over_do_records !! 4%nat = Some goto_over_do_last
  ∧ ∃ kind, goto_over_do_last !! "type" = Some (VStr kind)
            ∧ kind ∈ ["Rest"; "CC"; "CV"; "Loop"].
Proof.
  assert (H1 : _create_biologic_seqs_from_maccor_ast ∅ goto_over_do_procedure
               = Ok goto_over_do_records)
    by (apply succeeds_Ok; vm_compute; reflexivity).
  assert (H2 : goto_over_do_records !! 4%nat = Some goto_over_do_last)
    by (apply lookup_present; vm_compute; reflexivity).
  split; [exact H1|]. split; [exact H2|].
  exact (records_have_known_types ∅ goto_over_do_procedure
           goto_over_do_records 4 goto_over_do_last H1 H2).
Defined.
